(** * Eshkol compiler: a shallow embedding of the arena, the binding table,
      the lexer's number routine, the code generation context, call lowering
      and the command line driver, with the properties their specification
      states about them. *)

From Stdlib Require Import ZArith String Ascii List Bool Lia DecimalString.
From Stdlib Require Import Floats.SpecFloat Sorted.
From stdpp Require Import base list.

Import ListNotations.
Local Open Scope Z_scope.
Set Warnings "-register-all".

(** ** Machine integers

    [size_t] and [uint64_t] are 64 bits wide on the targets of the compiler;
    their arithmetic wraps around. *)

Definition SIZE_MAX : Z := 2 ^ 64 - 1.

Definition wrap64 (z : Z) : Z := z mod 2 ^ 64.

Definition in_size_t (z : Z) : Prop := 0 <= z <= SIZE_MAX.

(** ** The arena (docs/aidocs/MEMORY_MANAGEMENT.md) *)

Module Arena.

(** A block of the chain. The [next] pointer is the block's place in the
    chain and the data area is left out: the allocator never reads it. *)
Record Block := mkBlock {
  size : Z;   (* size of the data area in bytes *)
  used : Z    (* number of bytes used in the data area *)
}.

(** The arena control structure. The chain that starts at [first] is
    [earlier ++ current :: later]: [earlier] are the blocks in front of
    [current], [later] those that [current->next] still reaches. *)
Record Arena := mkArena {
  earlier : list Block;
  current : Block;
  later : list Block;
  total_used : Z;
  allocation_count : Z;
  min_block_size : Z
}.

(** What [arena_alloc] hands out: the block (by its place in the chain) and
    the offset into its data area; [None] is [NULL]. *)
Definition Ptr : Type := nat * Z.

(** [arena_create]. [malloc_arena] and [malloc_block] tell whether the two
    calls of [malloc] succeed. *)
Definition arena_create (malloc_arena malloc_block : bool)
    (initial_capacity : Z) : option Arena :=
  let min_size := 1024 in
  let block_size :=
    if initial_capacity >? min_size then initial_capacity else min_size in
  if negb malloc_arena then None
  else if negb malloc_block then None
  else Some (mkArena [] (mkBlock block_size 0) [] 0 0 min_size).

(** [(size + 7) & ~7] on [size_t]. *)
Definition align8 (size : Z) : Z :=
  Z.land (wrap64 (size + 7)) (wrap64 (Z.lnot 7)).

(** [arena_alloc]. [malloc_ok] tells whether the call of [malloc] for a new
    block succeeds, if it is reached. *)
Definition arena_alloc (malloc_ok : bool) (arena : Arena) (size : Z)
    : option Ptr * Arena :=
  (* Handle zero-sized allocations *)
  if size =? 0 then (None, arena)
  else
    (* Align size to ensure proper alignment *)
    let size := align8 size in
    let cur := current arena in
    (* Check if there's enough space in the current block *)
    if wrap64 (used cur + size) >? Arena.size cur then
      (* Need a new block *)
      let new_block_size := wrap64 (Arena.size cur * 2) in
      let new_block_size :=
        if new_block_size <? size then size else new_block_size in
      if negb malloc_ok then (None, arena)
      else
        (* Link new block: current->next = new_block; current = new_block *)
        let chain := earlier arena ++ [cur] in
        (* Allocate from current block *)
        (Some (length chain, 0),
         mkArena chain (mkBlock new_block_size (wrap64 (0 + size))) []
                 (wrap64 (total_used arena + size))
                 (wrap64 (allocation_count arena + 1))
                 (min_block_size arena))
    else
      (Some (length (earlier arena), used cur),
       mkArena (earlier arena)
               (mkBlock (Arena.size cur) (wrap64 (used cur + size)))
               (later arena)
               (wrap64 (total_used arena + size))
               (wrap64 (allocation_count arena + 1))
               (min_block_size arena)).

(** Rounding up to the next multiple of 8, as the specification words it. *)
Definition round_up8 (size : Z) : Z := 8 * ((size + 7) / 8).

(** The fields are within [size_t], and a block never holds more than its
    size. *)
Definition block_ok (b : Block) : Prop :=
  in_size_t (size b) /\ 0 <= used b <= size b.

Definition arena_ok (a : Arena) : Prop :=
  block_ok (current a) /\ in_size_t (total_used a).

(** None of the [size_t] computations of an allocation wraps around:
    [size + 7], [used + size], [size * 2] of the block and
    [total_used + size]. *)
Definition no_wrap (a : Arena) (size : Z) : Prop :=
  size + 7 <= SIZE_MAX
  /\ used (current a) + round_up8 size <= SIZE_MAX
  /\ Arena.size (current a) * 2 <= SIZE_MAX
  /\ total_used a + round_up8 size <= SIZE_MAX.

(** [arena_destroy]: the blocks it frees, in the order of the chain from
    [first]; a null arena frees nothing. *)
Definition arena_destroy (arena : option Arena) : list Block :=
  match arena with
  | None => []
  | Some a => earlier a ++ current a :: later a
  end.

(** One request: whether [malloc] would succeed, and the size asked for. *)
Definition Request : Type := bool * Z.

(** Successive calls of [arena_alloc] on one arena: the pointers returned,
    in call order, and the arena they leave. *)
Fixpoint arena_allocs (requests : list Request) (arena : Arena)
    : list (option Ptr) * Arena :=
  match requests with
  | [] => ([], arena)
  | (malloc_ok, size) :: rest =>
      let '(p, arena') := arena_alloc malloc_ok arena size in
      let '(ps, arena'') := arena_allocs rest arena' in
      (p :: ps, arena'')
  end.

(** The blocks an allocation can still reach: those up to [current]. *)
Definition live_blocks (a : Arena) : list Block := earlier a ++ [current a].

(** The bytes used across the blocks up to [current]. *)
Definition used_sum (a : Arena) : Z :=
  foldr (fun b acc => used b + acc) 0 (live_blocks a).

(** Every block up to [current] holds no more than its size. *)
Definition chain_ok (a : Arena) : Prop :=
  Forall block_ok (live_blocks a) /\ in_size_t (total_used a).

(** The bytes a successful request was given: the block, the offset and
    the rounded size. *)
Definition Region : Type := nat * Z * Z.

Fixpoint regions (requests : list Request) (results : list (option Ptr))
    : list Region :=
  match requests, results with
  | (_, size) :: requests', Some (i, o) :: results' =>
      (i, o, align8 size) :: regions requests' results'
  | _ :: requests', None :: results' => regions requests' results'
  | _, _ => []
  end.

Definition disjoint (r1 r2 : Region) : Prop :=
  let '(i1, o1, n1) := r1 in
  let '(i2, o2, n2) := r2 in
  i1 <> i2 \/ o1 + n1 <= o2 \/ o2 + n2 <= o1.

(** A region lies at or behind the cursor of an arena: in its current
    block from [used] on, or in a later block. *)
Definition behind (a : Arena) (r : Region) : Prop :=
  let '(i, o, n) := r in
  (i = length (earlier a) /\ used (current a) <= o)
  \/ (length (earlier a) < i)%nat.

(** The bytes of the data area of a block. A block is obtained by
    [malloc(header_size + block_size)], a sum on [size_t], and its [size]
    field is set to that [block_size]; [header_size] is [sizeof(Block)]. *)
Definition data_area (header_size : Z) (b : Block) : Z :=
  wrap64 (header_size + Arena.size b) - header_size.

(** A region lies within the data area of its block. *)
Definition inside (header_size : Z) (a : Arena) (r : Region) : Prop :=
  let '(i, o, n) := r in
  exists b,
    live_blocks a !! i = Some b
    /\ 0 <= o /\ o + n <= data_area header_size b.

(** No computation of any request of a run wraps around: those of
    [no_wrap] and, where the request needs a new block, the argument
    [header_size + new_block_size] of [malloc]. *)
Fixpoint run_no_wrap (header_size : Z) (requests : list Request) (a : Arena)
    : Prop :=
  match requests with
  | [] => True
  | (malloc_ok, size) :: rest =>
      0 < size /\ no_wrap a size
      /\ (Arena.size (current a) < used (current a) + round_up8 size ->
          header_size
          + Z.max (Arena.size (current a) * 2) (round_up8 size)
          <= SIZE_MAX)
      /\ run_no_wrap header_size rest (snd (arena_alloc malloc_ok a size))
  end.

End Arena.

(** ** The binding table (binding_system_create_binding) *)

Module Binding.

(** Modelled from the spec: the typedefs [StringId] ("a map from text to
    stable integer ids") and [BindingFlags] ("flags (mutable? captured?
    parameter?)") are not among the sources; both are integers here. *)
Definition StringId : Type := Z.
Definition BindingFlags : Type := Z.

(** The four parallel arrays of the table. An array is the list of its
    [capacity] slots. *)
Record BindingTable := mkTable {
  binding_ids : list Z;
  scope_ids : list Z;
  names : list StringId;
  flags : list BindingFlags;
  count : Z;
  capacity : Z
}.

Record BindingSystem := mkSystem {
  arena : Arena.Arena;
  binding_table : BindingTable;
  next_binding_id : Z   (* uint64_t *)
}.

(** Memory fresh from the arena: [n] slots of no particular content. *)
Definition fresh_array (n : Z) : list Z := replicate (Z.to_nat n) 0.

(** [memcpy(dst, src, n * sizeof(elt))]: the first [n] slots of [dst] become
    those of [src]. *)
Definition memcpy (dst src : list Z) (n : Z) : list Z :=
  take (Z.to_nat n) src ++ drop (Z.to_nat n) dst.

(** [array[i] = v]. *)
Definition store (array : list Z) (i : Z) (v : Z) : list Z :=
  <[Z.to_nat i := v]> array.

Section CreateBinding.

(** [sizeof(StringId)] and [sizeof(BindingFlags)]: the typedefs are not among
    the sources. *)
Variable sizeof_StringId sizeof_BindingFlags : Z.

Definition sizeof_uint64_t : Z := 8.

(** [binding_system_create_binding]. [mallocs] tells, for each of the four
    calls of [arena_alloc] of a resize, whether its [malloc] succeeds if it
    is reached. The result [None] is [BINDING_ID_INVALID]. *)
Definition binding_system_create_binding
    (mallocs : bool * bool * bool * bool) (system : BindingSystem)
    (scope_id : Z) (name : StringId) (flags : BindingFlags)
    : option Z * BindingSystem :=
  let '(m1, m2, m3, m4) := mallocs in
  (* Generate unique binding ID: binding_id = system->next_binding_id++ *)
  let binding_id := next_binding_id system in
  let next := wrap64 (next_binding_id system + 1) in
  let table := binding_table system in
  let append (a : Arena.Arena) (t : BindingTable) :=
    (* Add binding to table *)
    (Some binding_id,
     mkSystem a
       (mkTable (store (binding_ids t) (count t) binding_id)
                (store (scope_ids t) (count t) scope_id)
                (store (names t) (count t) name)
                (store (Binding.flags t) (count t) flags)
                (wrap64 (count t + 1))
                (capacity t))
       next) in
  if count table >=? capacity table then
    (* Resize binding table *)
    let new_capacity := wrap64 (capacity table * 2) in
    let new_capacity := if new_capacity =? 0 then 8 else new_capacity in
    (* Allocate new arrays *)
    let '(new_binding_ids, a1) :=
      Arena.arena_alloc m1 (arena system)
        (wrap64 (new_capacity * sizeof_uint64_t)) in
    let '(new_scope_ids, a2) :=
      Arena.arena_alloc m2 a1 (wrap64 (new_capacity * sizeof_uint64_t)) in
    let '(new_names, a3) :=
      Arena.arena_alloc m3 a2 (wrap64 (new_capacity * sizeof_StringId)) in
    let '(new_flags, a4) :=
      Arena.arena_alloc m4 a3 (wrap64 (new_capacity * sizeof_BindingFlags)) in
    match new_binding_ids, new_scope_ids, new_names, new_flags with
    | Some _, Some _, Some _, Some _ =>
        (* Copy existing bindings, update binding table *)
        let fresh := fresh_array new_capacity in
        append a4
          (mkTable (memcpy fresh (binding_ids table) (count table))
                   (memcpy fresh (scope_ids table) (count table))
                   (memcpy fresh (names table) (count table))
                   (memcpy fresh (Binding.flags table) (count table))
                   (count table)
                   new_capacity)
    | _, _, _, _ =>
        (None, mkSystem a4 table next)
    end
  else append (arena system) table.

(** One call: which allocations succeed and the arguments. *)
Record Call := mkCall {
  call_mallocs : bool * bool * bool * bool;
  call_scope : Z;
  call_name : StringId;
  call_flags : BindingFlags
}.

(** Successive calls on one binding system: the results in call order and
    the system they leave. *)
Fixpoint create_bindings (calls : list Call) (system : BindingSystem)
    : list (option Z) * BindingSystem :=
  match calls with
  | [] => ([], system)
  | c :: rest =>
      let '(r, system') :=
        binding_system_create_binding (call_mallocs c) system
          (call_scope c) (call_name c) (call_flags c) in
      let '(rs, system'') := create_bindings rest system' in
      (r :: rs, system'')
  end.

(** The ids of the successful calls, in call order. *)
Definition successful_ids (results : list (option Z)) : list Z :=
  omap id results.

End CreateBinding.

(** A table with room for eight bindings and none in it, in the arena
    [arena_create] returns, and a call whose allocations all succeed. *)
Definition empty_system (next : Z) : BindingSystem :=
  mkSystem
    (Arena.mkArena [] (Arena.mkBlock 1024 0) [] 0 0 1024)
    (mkTable (replicate 8 0) (replicate 8 0) (replicate 8 0)
       (replicate 8 0) 0 8)
    next.

Definition a_call : Call := mkCall (true, true, true, true) 0 0 0.

(** The binding in slot [i] of the table: its id, scope, name and flags. *)
Definition binding_at (t : BindingTable) (i : nat)
    : option (Z * Z * StringId * BindingFlags) :=
  match binding_ids t !! i, scope_ids t !! i, names t !! i, flags t !! i with
  | Some binding_id, Some scope_id, Some name, Some flags =>
      Some (binding_id, scope_id, name, flags)
  | _, _, _, _ => None
  end.

(** The table is in order: [count] slots of [capacity] are taken, and each
    array has [capacity] slots. *)
Definition table_ok (t : BindingTable) : Prop :=
  0 <= count t <= capacity t /\ capacity t <= SIZE_MAX
  /\ length (binding_ids t) = Z.to_nat (capacity t)
  /\ length (scope_ids t) = Z.to_nat (capacity t)
  /\ length (names t) = Z.to_nat (capacity t)
  /\ length (flags t) = Z.to_nat (capacity t).

(** A full table with one binding in its only slot, in an arena whose
    block is full too. *)
Definition full_system : BindingSystem :=
  mkSystem
    (Arena.mkArena [] (Arena.mkBlock 1024 1024) [] 1024 1 1024)
    (mkTable [7] [0] [3] [1] 1 1)
    8.

End Binding.

(** ** The lexer's number routine (number) *)

Module Lexer.

(** Modelled from the spec: the token kinds of section 3; the lexer's header
    is not among the sources. *)
Inductive TokenType :=
  | TOKEN_LPAREN | TOKEN_RPAREN | TOKEN_LBRACKET | TOKEN_RBRACKET
  | TOKEN_QUOTE | TOKEN_BACKTICK | TOKEN_COMMA | TOKEN_DOT
  | TOKEN_NUMBER | TOKEN_STRING | TOKEN_CHAR | TOKEN_BOOL
  | TOKEN_IDENTIFIER | TOKEN_KEYWORD | TOKEN_COLON | TOKEN_ARROW
  | TOKEN_EOF.

(** A [double], as IEEE 754 describes its values. *)
Definition double : Type := spec_float.

(** The union [token.value]: the member that was written last. *)
Inductive TokenValue :=
  | NoValue
  | IntegerValue (integer : Z)
  | FloatingValue (floating : double).

(** Modelled from the spec: a token is [{kind, span, value?}]; [lexeme] and
    [length] give the span as offsets into the source text. *)
Record Token := mkToken {
  type : TokenType;
  lexeme : nat;
  length : nat;
  value : TokenValue
}.

(** The lexer's cursor: [start] and [current] point into [source]; they are
    offsets here. *)
Record Lexer := mkLexer {
  source : string;
  start : nat;
  current : nat
}.

(** The byte at an offset of the source text, the terminating NUL at its
    end. *)
Definition char_at (lexer : Lexer) (i : nat) : ascii :=
  match String.get i (source lexer) with
  | Some c => c
  | None => zero
  end.

(** Modelled from the spec: the helpers [peek], [peek_next], [advance],
    [is_digit] and [make_token] of lexer.c are not among the sources. [peek]
    reads the byte under the cursor, [peek_next] the one after it (NUL at the
    end of the text), [advance] moves the cursor by one byte, and
    [make_token] spans the text from [start] to [current]. *)
Definition peek (lexer : Lexer) : ascii := char_at lexer (current lexer).

Definition is_at_end (lexer : Lexer) : bool :=
  Ascii.eqb (peek lexer) zero.

Definition peek_next (lexer : Lexer) : ascii :=
  if is_at_end lexer then zero else char_at lexer (S (current lexer)).

Definition advance (lexer : Lexer) : Lexer :=
  mkLexer (source lexer) (start lexer) (S (current lexer)).

Definition is_digit (c : ascii) : bool :=
  (nat_of_ascii "0" <=? nat_of_ascii c)%nat
  && (nat_of_ascii c <=? nat_of_ascii "9")%nat.

Definition make_token (lexer : Lexer) (type : TokenType) : Token :=
  mkToken type (start lexer) (current lexer - start lexer) NoValue.

(** [while (is_digit(peek(lexer))) advance(lexer);] with the number of
    iterations bounded by [fuel]. *)
Fixpoint advance_digits (fuel : nat) (lexer : Lexer) : Lexer :=
  match fuel with
  | O => lexer
  | S fuel' =>
      if is_digit (peek lexer) then advance_digits fuel' (advance lexer)
      else lexer
  end.

(** The loop runs at most once per byte left in the text. *)
Definition skip_digits (lexer : Lexer) : Lexer :=
  advance_digits (String.length (source lexer) - current lexer) lexer.

(** [for (i = 0; i < length; i++) if (start[i] == '.') { is_float = true;
    break; }] *)
Fixpoint has_dot (lexer : Lexer) (i : nat) (remaining : nat) : bool :=
  match remaining with
  | O => false
  | S remaining' =>
      if Ascii.eqb (char_at lexer i) "." then true
      else has_dot lexer (S i) remaining'
  end.

(** The text a [char*] into the source points at: from the offset to the
    terminating NUL. *)
Definition text_from (lexer : Lexer) (i : nat) : string :=
  String.substring i (String.length (source lexer) - i) (source lexer).

Section Number.

(** The C library's conversions: [strtod(text, &end)] and
    [strtol(text, &end, base)]. *)
Variable strtod : string -> double.
Variable strtol : string -> Z -> Z.

(** [number]: the token and the lexer it leaves. *)
Definition number (lexer : Lexer) : Token * Lexer :=
  let lexer := skip_digits lexer in
  (* Look for a decimal point *)
  let lexer :=
    if Ascii.eqb (peek lexer) "." && is_digit (peek_next lexer) then
      (* Consume the '.' *)
      skip_digits (advance lexer)
    else lexer in
  (* Create token *)
  let token := make_token lexer TOKEN_NUMBER in
  (* Check if it's an integer or float *)
  let is_float := has_dot lexer (start lexer) (length token) in
  let text := text_from lexer (start lexer) in
  (mkToken (type token) (lexeme token) (length token)
     (if is_float then FloatingValue (strtod text)
      else IntegerValue (strtol text 10)),
   lexer).

End Number.

(** The lexeme of a token: the bytes of its span. *)
Definition lexeme_text (lexer : Lexer) (token : Token) : list ascii :=
  map (char_at lexer) (seq (lexeme token) (length token)).

(** The bytes between the cursor of [lexer] and the cursor of [lexer']. *)
Definition consumed (lexer lexer' : Lexer) : list ascii :=
  map (char_at lexer) (seq (current lexer) (current lexer' - current lexer)).

Definition all_digits (bytes : list ascii) : Prop :=
  Forall (fun c => is_digit c = true) bytes.

End Lexer.

(** ** The code generation context (backend/codegen/context.c) *)

Module Context.

(** Where a pointer points: the arena, the diagnostics and the type
    inference context are objects of other modules. *)
Definition address : Type := nat.

(** An open stream: the bytes written to it so far. *)
Definition FILE : Type := string.

Definition INT_MAX : Z := 2 ^ 31 - 1.

Record CodegenContext := mkContext {
  arena : address;
  diagnostics : address;
  type_context : option address;   (* [None] is [NULL] *)
  output : option FILE;            (* [None] is [NULL] *)
  indent_level : Z;                (* int *)
  in_function : bool;
  temp_dir : option string
}.

Section Create.

(** [sizeof(CodegenContext)]: the struct is declared in a header that is not
    among the sources. *)
Variable sizeof_CodegenContext : Z.

(** [codegen_context_create]. [arena] is where the arena lives and
    [arena_state] what it holds; [None] is [NULL]. *)
Definition codegen_context_create (malloc_ok : bool)
    (arena : address) (arena_state : Arena.Arena)
    (diagnostics : address) (type_context : option address)
    : option CodegenContext * Arena.Arena :=
  (* Allocate context *)
  match Arena.arena_alloc malloc_ok arena_state sizeof_CodegenContext with
  | (None, arena_state') => (None, arena_state')
  | (Some _, arena_state') =>
      (* Initialize context *)
      (Some (mkContext arena diagnostics type_context None 0 false None),
       arena_state')
  end.

End Create.

(** [codegen_context_init]. [output_file] is the stream [fopen] returns for
    the file name, if a name is given ([None] inside: [fopen] failed), and
    [stdout] the standard output stream. *)
Definition codegen_context_init (context : CodegenContext) (arena : address)
    (type_context : option address) (output_file : option (option FILE))
    (stdout : FILE) : bool * CodegenContext :=
  let init out :=
    mkContext arena (diagnostics context) type_context out 0 false None in
  match output_file with
  | Some (Some file) => (true, init (Some file))
  | Some None => (false, init None)
  | None => (true, init (Some stdout))
  end.

Definition codegen_context_get_arena (context : CodegenContext) : address :=
  arena context.

Definition codegen_context_get_diagnostics (context : CodegenContext)
    : address :=
  diagnostics context.

Definition codegen_context_get_type_context (context : CodegenContext)
    : option address :=
  type_context context.

Definition codegen_context_get_output (context : CodegenContext)
    : option FILE :=
  output context.

Definition codegen_context_set_output (context : CodegenContext)
    (output : option FILE) : CodegenContext :=
  mkContext (arena context) (diagnostics context) (type_context context)
    output (indent_level context) (in_function context) (temp_dir context).

Definition codegen_context_get_indent_level (context : CodegenContext) : Z :=
  indent_level context.

Definition codegen_context_set_indent_level (context : CodegenContext)
    (indent_level : Z) : CodegenContext :=
  mkContext (arena context) (diagnostics context) (type_context context)
    (output context) indent_level (in_function context) (temp_dir context).

(** [context->indent_level++]. The level is an [int]: past [INT_MAX] the
    increment overflows, which C leaves undefined, and there is no result. *)
Definition codegen_context_increment_indent (context : CodegenContext)
    : option CodegenContext :=
  if indent_level context <? INT_MAX then
    Some (codegen_context_set_indent_level context (indent_level context + 1))
  else None.

Definition codegen_context_decrement_indent (context : CodegenContext)
    : CodegenContext :=
  if indent_level context >? 0 then
    codegen_context_set_indent_level context (indent_level context - 1)
  else context.

Definition codegen_context_in_function (context : CodegenContext) : bool :=
  in_function context.

Definition codegen_context_set_in_function (context : CodegenContext)
    (in_function : bool) : CodegenContext :=
  mkContext (arena context) (diagnostics context) (type_context context)
    (output context) (indent_level context) in_function (temp_dir context).

(** [fprintf(context->output, text)] with a text that holds no conversion:
    the bytes are appended to the stream. Nothing is written through a null
    stream. *)
Definition fprintf (text : string) (context : CodegenContext)
    : CodegenContext :=
  codegen_context_set_output context
    (option_map (fun file => String.append file text) (output context)).

(** [for (int i = 0; i < indent_level; i++) fprintf(output, "    ");] *)
Fixpoint write_indents (n : nat) (context : CodegenContext)
    : CodegenContext :=
  match n with
  | O => context
  | S n' => write_indents n' (fprintf "    " context)
  end.

Definition codegen_context_write_indent (context : CodegenContext)
    : CodegenContext :=
  write_indents (Z.to_nat (indent_level context)) context.

(** The two operations that move the indentation, and a run of them from a
    context; [None] when an increment has no result. *)
Inductive IndentOp := Increment | Decrement.

Definition indent_step (op : IndentOp) (context : CodegenContext)
    : option CodegenContext :=
  match op with
  | Increment => codegen_context_increment_indent context
  | Decrement => Some (codegen_context_decrement_indent context)
  end.

Fixpoint indent_run (ops : list IndentOp) (context : CodegenContext)
    : option CodegenContext :=
  match ops with
  | [] => Some context
  | op :: rest =>
      match indent_step op context with
      | Some context' => indent_run rest context'
      | None => None
      end
  end.

(** The number of increments among the operations. *)
Fixpoint increments (ops : list IndentOp) : nat :=
  match ops with
  | [] => O
  | Increment :: ops' => S (increments ops')
  | Decrement :: ops' => increments ops'
  end.

End Context.

(** ** The syntax tree *)

Module Ast.

(** Modelled from the spec: the AST header is not among the sources. The
    node variants and the type annotations are those of section 3 of the
    specification; an identifier carries its name, which is what the code
    generator reads ([node->as.identifier.name]), and [arg_count] is the
    length of [args]. *)
Inductive TypeAnnotation :=
  | TypeInteger | TypeFloat | TypeBool | TypeString | TypeChar | TypeSymbol
  | TypeVoid | TypeUnknown
  | TypePair (first second : TypeAnnotation)
  | TypeVector (element : TypeAnnotation)
  | TypeFunction (args : list TypeAnnotation) (ret : TypeAnnotation)
  | TypeVariable (id : nat).

Record Param := mkParam {
  param_name : string;
  param_type : option TypeAnnotation
}.

Inductive LetKind := LetPlain | LetStar | LetRec.

Inductive AstNode :=
  | IntegerLiteral (value : Z)
  | FloatLiteral (value : Lexer.double)
  | BoolLiteral (value : bool)
  | StringLiteral (value : string)
  | CharLiteral (value : ascii)
  | Identifier (name : string)
  | Lambda (params : list Param) (ret : option TypeAnnotation)
      (body : AstNode)
  | Define (target value : AstNode)
  | If (test consequent : AstNode) (alternate : option AstNode)
  | LetForm (kind : LetKind)
      (bindings : list (string * option TypeAnnotation * AstNode))
      (body : AstNode)
  | SetForm (target value : AstNode)
  | Begin (exprs : list AstNode)
  | Quote (datum : AstNode)
  | And (operands : list AstNode)
  | Or (operands : list AstNode)
  | Call (callee : AstNode) (args : list AstNode)
  | TypeDeclaration (name : string) (signature : TypeAnnotation)
  | Program (forms : list AstNode).

End Ast.

(** ** Call lowering (backend/codegen/calls.c) *)

Module Calls.

Import Context Ast.
Local Open Scope nat_scope.
Local Open Scope string_scope.

(** A code generation routine: it runs on the context and returns its
    success flag. *)
Definition Gen : Type := CodegenContext -> bool * CodegenContext.

(** [fprintf(output, text);] *)
Definition emit (text : string) : Gen :=
  fun context => (true, fprintf text context).

(** [if (!first) return false; then] *)
Definition and_then (first then_ : Gen) : Gen :=
  fun context =>
    match first context with
    | (true, context') => then_ context'
    | (false, context') => (false, context')
    end.

Declare Scope gen_scope.
Delimit Scope gen_scope with gen.
Bind Scope gen_scope with Gen.
Notation "m ;; k" := (and_then m k)
  (at level 100, k at level 200, right associativity) : gen_scope.
Local Open Scope gen_scope.

(** The double quote and the texts of calls.c that hold one. *)
Definition dquote : string := String (ascii_of_nat 34) EmptyString.

Definition display_open : string :=
  "printf(" ++ dquote ++ "%s\n" ++ dquote ++ ", ".

Definition string_append_open : string :=
  "({ char buffer[1024] = " ++ dquote ++ dquote ++ "; ".

Definition number_to_string_open : string :=
  "({ char buffer[64]; snprintf(buffer, sizeof(buffer), " ++ dquote ++ "%g"
  ++ dquote ++ ", ".

(** [%zu] and [%ld]. *)
Definition format_zu (n : nat) : string :=
  NilZero.string_of_uint (Nat.to_uint n).

Definition format_ld (z : Z) : string :=
  NilZero.string_of_int (Z.to_int z).

(** [strcmp(a, b) == 0] *)
Definition strcmp0 (a b : string) : bool := String.eqb a b.

Section Generate.

(** [codegen_generate_expression], which expressions.c defines. *)
Variable codegen_generate_expression : AstNode -> Gen.

(** [for (i = from; i < arg_count; i++) { if (i > 0) fprintf(output, ", ");
    if (!codegen_generate_expression(context, args[i])) return false; }] *)
Fixpoint generate_arguments (i : nat) (args : list AstNode) : Gen :=
  match args with
  | [] => fun context => (true, context)
  | arg :: rest =>
      (if (0 <? i)%nat then emit ", " else fun context => (true, context)) ;;
      codegen_generate_expression arg ;;
      generate_arguments (S i) rest
  end.

(** [for (...) { fprintf(output, "strcat(buffer, "); if (!...) return false;
    fprintf(output, "); "); }] *)
Fixpoint generate_strcats (args : list AstNode) : Gen :=
  match args with
  | [] => fun context => (true, context)
  | arg :: rest =>
      emit "strcat(buffer, " ;;
      codegen_generate_expression arg ;;
      emit "); " ;;
      generate_strcats rest
  end.

(** The shape most branches have: a text, the first argument, a text, the
    second argument, a text. *)
Definition around2 (open_ : string) (a : AstNode) (middle : string)
    (b : AstNode) (close : string) : Gen :=
  emit open_ ;; codegen_generate_expression a ;;
  emit middle ;; codegen_generate_expression b ;;
  emit close.

Definition wrapper_float_VectorF : string :=
  "({ float (*wrapper_func)(VectorF*) = (float (*)(VectorF*))".

(** The tail of the function: the regular function call. *)
Definition regular_call (callee : AstNode) (args : list AstNode) : Gen :=
  codegen_generate_expression callee ;;
  (* Generate arguments *)
  emit "(" ;;
  generate_arguments 0 args ;;
  emit ")".

(** [codegen_generate_call]. On a node that is no call the assertion stops
    the program; the model returns the failure flag there. *)
Definition codegen_generate_call (node : AstNode) : Gen :=
  match node with
  | Call callee args =>
    let arg_count := List.length args in
    let arg (i : nat) := nth i args callee in
    let gen := codegen_generate_expression in
    let named (name : string) (n : nat) (op_name : string) :=
      strcmp0 op_name name && (arg_count =? n)%nat in
    (* Check if it's an operator call *)
    match callee with
    | Identifier op_name =>
      (* Handle arithmetic operators *)
      if named "+" 2 op_name then around2 "(" (arg 0) " + " (arg 1) ")"
      else if strcmp0 op_name "-" then
        if (arg_count =? 1)%nat then
          (* Unary minus *)
          emit "(-" ;; gen (arg 0) ;; emit ")"
        else if (arg_count =? 2)%nat then
          (* Binary minus *)
          around2 "(" (arg 0) " - " (arg 1) ")"
        else regular_call callee args
      else if named "*" 2 op_name then around2 "(" (arg 0) " * " (arg 1) ")"
      else if named "/" 2 op_name then around2 "(" (arg 0) " / " (arg 1) ")"
      (* Handle comparison operators *)
      else if named "<" 2 op_name then around2 "(" (arg 0) " < " (arg 1) ")"
      else if named ">" 2 op_name then around2 "(" (arg 0) " > " (arg 1) ")"
      else if named "<=" 2 op_name then around2 "(" (arg 0) " <= " (arg 1) ")"
      else if named ">=" 2 op_name then around2 "(" (arg 0) " >= " (arg 1) ")"
      else if named "=" 2 op_name then around2 "(" (arg 0) " == " (arg 1) ")"
      (* Handle vector operations *)
      else if strcmp0 op_name "vector" then
        emit "vector_f_create_from_array(arena, (float[]){" ;;
        generate_arguments 0 args ;;
        emit ("}, " ++ format_zu arg_count ++ ")")
      else if named "v+" 2 op_name then
        around2 "vector_f_add(arena, " (arg 0) ", " (arg 1) ")"
      else if named "v-" 2 op_name then
        around2 "vector_f_sub(arena, " (arg 0) ", " (arg 1) ")"
      else if named "v*" 2 op_name then
        around2 "vector_f_mul_scalar(arena, " (arg 0) ", " (arg 1) ")"
      else if named "dot" 2 op_name then
        around2 "vector_f_dot(" (arg 0) ", " (arg 1) ")"
      else if named "cross" 2 op_name then
        around2 "vector_f_cross(arena, " (arg 0) ", " (arg 1) ")"
      else if named "norm" 1 op_name then
        emit "vector_f_magnitude(" ;; gen (arg 0) ;; emit ")"
      else if named "gradient" 2 op_name then
        around2 "compute_gradient(arena, " (arg 0) ", " (arg 1) ")"
      else if named "divergence" 2 op_name then
        around2 "compute_divergence(arena, " (arg 0) ", " (arg 1) ")"
      else if named "curl" 2 op_name then
        around2 "compute_curl(arena, " (arg 0) ", " (arg 1) ")"
      else if named "laplacian" 2 op_name then
        around2 "compute_laplacian(arena, " (arg 0) ", " (arg 1) ")"
      else if named "display" 1 op_name then
        (* Display function (Scheme compatibility) *)
        emit display_open ;; gen (arg 0) ;; emit ")"
      else if strcmp0 op_name "string-append" then
        emit string_append_open ;;
        (* Concatenate all arguments *)
        generate_strcats args ;;
        emit "strdup(buffer); })"
      else if named "number->string" 1 op_name then
        emit number_to_string_open ;; gen (arg 0) ;;
        emit "); strdup(buffer); })"
      (* Handle autodiff functions *)
      else if named "autodiff-forward" 2 op_name then
        (* Create a wrapper function *)
        emit wrapper_float_VectorF ;; gen (arg 0) ;; emit "; " ;;
        (* Create a vector from the scalar input *)
        emit "VectorF* vec_input = vector_f_create_from_array(arena, (float[]){" ;;
        gen (arg 1) ;;
        emit "}, 1); " ;;
        (* Call the autodiff function *)
        emit "vector_f_get(compute_gradient_autodiff(arena, wrapper_func, vec_input), 0); })"
      else if named "autodiff-reverse" 2 op_name then
        emit wrapper_float_VectorF ;; gen (arg 0) ;; emit "; " ;;
        emit "VectorF* vec_input = vector_f_create_from_array(arena, (float[]){" ;;
        gen (arg 1) ;;
        emit "}, 1); " ;;
        emit "vector_f_get(compute_gradient_reverse_mode(arena, wrapper_func, vec_input), 0); })"
      else if named "autodiff-forward-gradient" 2 op_name then
        emit wrapper_float_VectorF ;; gen (arg 0) ;; emit "; " ;;
        (* The input is already a vector *)
        emit "compute_gradient_autodiff(arena, wrapper_func, " ;;
        gen (arg 1) ;;
        emit "); })"
      else if named "autodiff-reverse-gradient" 2 op_name then
        emit wrapper_float_VectorF ;; gen (arg 0) ;; emit "; " ;;
        emit "compute_gradient_reverse_mode(arena, wrapper_func, " ;;
        gen (arg 1) ;;
        emit "); })"
      else if named "autodiff-jacobian" 2 op_name then
        emit "({ VectorF* (*wrapper_func)(Arena*, VectorF*) = (VectorF* (*)(Arena*, VectorF*))" ;;
        gen (arg 0) ;; emit "; " ;;
        emit "compute_jacobian(arena, wrapper_func, " ;;
        gen (arg 1) ;;
        emit "); })"
      else if named "autodiff-hessian" 2 op_name then
        emit wrapper_float_VectorF ;; gen (arg 0) ;; emit "; " ;;
        emit "compute_hessian(arena, wrapper_func, " ;;
        gen (arg 1) ;;
        emit "); })"
      else if named "derivative" 2 op_name then
        emit "({ float (*wrapper_func)(float) = (float (*)(float))" ;;
        gen (arg 0) ;; emit "; " ;;
        emit "compute_nth_derivative(arena, wrapper_func, " ;;
        gen (arg 1) ;;
        emit ", 1); })"
      (* Handle vector and matrix operations *)
      else if named "vector-ref" 2 op_name then
        around2 "(" (arg 0) "->data[" (arg 1) "])"
      else if named "matrix-ref" 3 op_name then
        emit "(" ;; gen (arg 0) ;; emit "[" ;; gen (arg 1) ;;
        emit "]->data[" ;; gen (arg 2) ;; emit "])"
      else if strcmp0 op_name "printf" then
        emit "printf(" ;;
        (* Generate arguments *)
        generate_arguments 0 args ;;
        emit ")"
      else regular_call callee args
    | _ => regular_call callee args
    end
  | _ => fun context => (false, context)
  end.

End Generate.

(** The expression generator as the compiler's architecture document shows
    it: integer and float literals are lowered, and a node of no handled
    variant reaches the final [return false]. [format_f] is the C library's
    [%f] conversion. The debug message goes to the diagnostics, which the
    context only points at. *)
Definition codegen_generate_expression (format_f : Lexer.double -> string)
    (node : AstNode) : Gen :=
  match node with
  | IntegerLiteral value => emit (format_ld value)
  | FloatLiteral value => emit (format_f value)
  | _ => fun context => (false, context)
  end.

(** The built-in operator table of the arithmetic and comparison operators,
    as the specification words the lowering: the source operator and the C
    operator it becomes. *)
Definition c_operator (op_name : string) : option string :=
  if String.eqb op_name "+" then Some "+"
  else if String.eqb op_name "-" then Some "-"
  else if String.eqb op_name "*" then Some "*"
  else if String.eqb op_name "/" then Some "/"
  else if String.eqb op_name "<" then Some "<"
  else if String.eqb op_name ">" then Some ">"
  else if String.eqb op_name "<=" then Some "<="
  else if String.eqb op_name ">=" then Some ">="
  else if String.eqb op_name "=" then Some "=="
  else None.

Section Lowerings.

Variable gen : AstNode -> Gen.

(** The parenthesized infix C expression [(a op b)]. *)
Definition infix_lowering (c_op : string) (a b : AstNode) : Gen :=
  emit "(" ;; gen a ;; emit (" " ++ c_op ++ " ") ;; gen b ;; emit ")".

(** The unary minus [(-a)]. *)
Definition negation_lowering (a : AstNode) : Gen :=
  emit "(-" ;; gen a ;; emit ")".

(** The arguments of a general call, separated by commas. *)
Fixpoint comma_separated (first : bool) (args : list AstNode) : Gen :=
  match args with
  | [] => fun context => (true, context)
  | arg :: rest =>
      (if first then gen arg else (emit ", " ;; gen arg)) ;;
      comma_separated false rest
  end.

(** The general call through the callee: [callee(arg, ..., arg)]. *)
Definition general_call (callee : AstNode) (args : list AstNode) : Gen :=
  gen callee ;; emit "(" ;; comma_separated true args ;; emit ")".

End Lowerings.

(** A routine appends a text: it succeeds on every context, and what it does
    to the context is to write that text. *)
Definition writes (m : Gen) (text : string) : Prop :=
  forall context, m context = (true, fprintf text context).

(** A context with an open stream that holds [file]. *)
Definition on_stream (context : CodegenContext) (file : FILE)
    : CodegenContext :=
  codegen_context_set_output context (Some file).

(** A routine does not read the stream: its flag, the bytes it appends and
    the rest of the context it leaves are the same whatever the stream held
    before. *)
Definition stream_blind (m : Gen) : Prop :=
  forall context, exists ok text context',
    forall file,
      m (on_stream context file) = (ok, on_stream context' (file ++ text)).

(** A routine fails only where the expression generator [gen] fails, and
    leaves the context that failure left: nothing is written after it. *)
Definition fails_with (gen : AstNode -> Gen) (m : Gen) : Prop :=
  forall context context',
    m context = (false, context') ->
    exists node context0, gen node context0 = (false, context').

(** The text of an indentation of [level]: four spaces per level. *)
Fixpoint indentation_of (levels : nat) : string :=
  match levels with
  | O => ""
  | S levels' => "    " ++ indentation_of levels'
  end.

Definition indentation (level : Z) : string :=
  indentation_of (Z.to_nat level).

(** The source expression [(+ 'x 1)]. *)
Definition sum_of_quote : AstNode :=
  Call (Identifier "+") [Quote (Identifier "x"); IntegerLiteral 1].

(** A context as [codegen_context_create] leaves it, with [file] as its
    open stream. *)
Definition context_on (file : FILE) : CodegenContext :=
  mkContext 1 2 None (Some file) 0 false None.

(** A routine only appends to the stream. *)
Definition append_only (m : Gen) : Prop :=
  forall context file ok context',
    output context = Some file ->
    m context = (ok, context') ->
    exists text, output context' = Some (file ++ text).

(** The calls of a fixed number of arguments that calls.c lowers itself,
    read off its chain of comparisons: for the name of the callee and the
    number of arguments, the C texts written before the first argument,
    between the arguments and after the last one. *)
Definition intrinsic_pieces (op_name : string) (arg_count : nat)
    : option (list string) :=
  let named name := String.eqb op_name name in
  match arg_count with
  | 1 =>
      if named "-" then Some ["(-"; ")"]
      else if named "norm" then Some ["vector_f_magnitude("; ")"]
      else if named "display" then Some [display_open; ")"]
      else if named "number->string" then
        Some [number_to_string_open; "); strdup(buffer); })"]
      else None
  | 2 =>
      if named "+" then Some ["("; " + "; ")"]
      else if named "-" then Some ["("; " - "; ")"]
      else if named "*" then Some ["("; " * "; ")"]
      else if named "/" then Some ["("; " / "; ")"]
      else if named "<" then Some ["("; " < "; ")"]
      else if named ">" then Some ["("; " > "; ")"]
      else if named "<=" then Some ["("; " <= "; ")"]
      else if named ">=" then Some ["("; " >= "; ")"]
      else if named "=" then Some ["("; " == "; ")"]
      else if named "v+" then Some ["vector_f_add(arena, "; ", "; ")"]
      else if named "v-" then Some ["vector_f_sub(arena, "; ", "; ")"]
      else if named "v*" then Some ["vector_f_mul_scalar(arena, "; ", "; ")"]
      else if named "dot" then Some ["vector_f_dot("; ", "; ")"]
      else if named "cross" then Some ["vector_f_cross(arena, "; ", "; ")"]
      else if named "gradient" then Some ["compute_gradient(arena, "; ", "; ")"]
      else if named "divergence" then
        Some ["compute_divergence(arena, "; ", "; ")"]
      else if named "curl" then Some ["compute_curl(arena, "; ", "; ")"]
      else if named "laplacian" then
        Some ["compute_laplacian(arena, "; ", "; ")"]
      else if named "autodiff-forward" then
        Some [wrapper_float_VectorF;
              "; VectorF* vec_input = vector_f_create_from_array(arena, (float[]){";
              "}, 1); vector_f_get(compute_gradient_autodiff(arena, wrapper_func, vec_input), 0); })"]
      else if named "autodiff-reverse" then
        Some [wrapper_float_VectorF;
              "; VectorF* vec_input = vector_f_create_from_array(arena, (float[]){";
              "}, 1); vector_f_get(compute_gradient_reverse_mode(arena, wrapper_func, vec_input), 0); })"]
      else if named "autodiff-forward-gradient" then
        Some [wrapper_float_VectorF;
              "; compute_gradient_autodiff(arena, wrapper_func, "; "); })"]
      else if named "autodiff-reverse-gradient" then
        Some [wrapper_float_VectorF;
              "; compute_gradient_reverse_mode(arena, wrapper_func, ";
              "); })"]
      else if named "autodiff-jacobian" then
        Some ["({ VectorF* (*wrapper_func)(Arena*, VectorF*) = (VectorF* (*)(Arena*, VectorF*))";
              "; compute_jacobian(arena, wrapper_func, "; "); })"]
      else if named "autodiff-hessian" then
        Some [wrapper_float_VectorF;
              "; compute_hessian(arena, wrapper_func, "; "); })"]
      else if named "derivative" then
        Some ["({ float (*wrapper_func)(float) = (float (*)(float))";
              "; compute_nth_derivative(arena, wrapper_func, "; ", 1); })"]
      else if named "vector-ref" then Some ["("; "->data["; "])"]
      else None
  | 3 =>
      if named "matrix-ref" then Some ["("; "["; "]->data["; "])"] else None
  | _ => None
  end.

(** The names calls.c lowers itself whatever the number of arguments. *)
Definition is_variadic (op_name : string) : bool :=
  String.eqb op_name "vector" || String.eqb op_name "string-append"
  || String.eqb op_name "printf".

(** The pieces with the arguments' texts between them. *)
Fixpoint interleave (pieces texts : list string) : string :=
  match pieces, texts with
  | piece :: pieces', text :: texts' =>
      piece ++ text ++ interleave pieces' texts'
  | piece :: _, [] => piece
  | [], _ => ""
  end.

(** One C statement [strcat(buffer, text); ] for each text. *)
Fixpoint strcat_statements (texts : list string) : string :=
  match texts with
  | [] => ""
  | text :: texts' => "strcat(buffer, " ++ text ++ "); "
                      ++ strcat_statements texts'
  end.

(** The texts of the arguments as [generate_arguments] separates them:
    a comma and a space before each one but the very first. *)
Fixpoint separated (first : bool) (texts : list string) : string :=
  match texts with
  | [] => ""
  | text :: texts' =>
      (if first then text else ", " ++ text) ++ separated false texts'
  end.

(** Two contexts that differ at most in the stream. *)
Definition same_but_output (context context' : CodegenContext) : Prop :=
  codegen_context_set_output context' (output context) = context.

(** A routine changes nothing of the context but the stream. *)
Definition output_only (m : Gen) : Prop :=
  forall context, same_but_output context (snd (m context)).

(** What the generation of a call consists of: C texts to write and
    sub-expressions to generate, in the order in which calls.c goes
    through them. *)
Inductive Item :=
  | Text (text : string)
  | Sub (node : AstNode).

(** Going through the items: the first sub-expression that fails ends the
    run. *)
Fixpoint run_items (gen : AstNode -> Gen) (items : list Item) : Gen :=
  match items with
  | [] => fun context => (true, context)
  | Text text :: rest => emit text ;; run_items gen rest
  | Sub node :: rest => gen node ;; run_items gen rest
  end.

(** The pieces of a table entry with the arguments between them. *)
Fixpoint weave (pieces : list string) (args : list AstNode) : list Item :=
  match pieces, args with
  | piece :: pieces', arg :: args' =>
      Text piece :: Sub arg :: weave pieces' args'
  | piece :: _, [] => [Text piece]
  | [], _ => []
  end.

(** The arguments with a comma and a space before each one but the very
    first. *)
Fixpoint separated_items (first : bool) (args : list AstNode) : list Item :=
  match args with
  | [] => []
  | arg :: rest =>
      (if first then [Sub arg] else [Text ", "; Sub arg])
      ++ separated_items false rest
  end.

(** One [strcat(buffer, arg); ] for each argument. *)
Fixpoint strcat_items (args : list AstNode) : list Item :=
  match args with
  | [] => []
  | arg :: rest =>
      Text "strcat(buffer, " :: Sub arg :: Text "); " :: strcat_items rest
  end.

(** The items of a call: those of its table entry, of the three intrinsics
    of any number of arguments, or of the general call through the
    callee. *)
Definition call_items (callee : AstNode) (args : list AstNode) : list Item :=
  let general :=
    Sub callee :: Text "(" :: separated_items true args ++ [Text ")"] in
  match callee with
  | Identifier op_name =>
      match intrinsic_pieces op_name (length args) with
      | Some pieces => weave pieces args
      | None =>
          if String.eqb op_name "vector" then
            Text "vector_f_create_from_array(arena, (float[]){"
            :: separated_items true args
            ++ [Text ("}, " ++ format_zu (length args) ++ ")")]
          else if String.eqb op_name "string-append" then
            Text string_append_open :: strcat_items args
            ++ [Text "strdup(buffer); })"]
          else if String.eqb op_name "printf" then
            Text "printf(" :: separated_items true args ++ [Text ")"]
          else general
      end
  | _ => general
  end.

(** The sub-expressions among the items. *)
Fixpoint subs (items : list Item) : list AstNode :=
  match items with
  | [] => []
  | Text _ :: rest => subs rest
  | Sub node :: rest => node :: subs rest
  end.

(** What the items have written when each sub-expression has written the
    text listed for it. *)
Fixpoint written (items : list Item) (texts : list string)
    : option string :=
  match items, texts with
  | [], [] => Some ""
  | Text text :: rest, _ =>
      option_map (String.append text) (written rest texts)
  | Sub _ :: rest, text :: texts' =>
      option_map (String.append text) (written rest texts')
  | _, _ => None
  end.

End Calls.

(** ** The command line driver (src/main.c) *)

Module Driver.

Local Open Scope string_scope.
Local Open Scope list_scope.

(** What the world outside [main] answers: the file system and the C
    library to [read_file], the C library to [arena_create], and the
    functions of the compiler that [main] calls and that are defined in
    other files. *)
Record World := mkWorld {
  fopen : string -> option string;   (* the readable files *)
  read_malloc : bool;                (* [malloc(size + 1)] succeeds *)
  fread_complete : bool;             (* [fread] returns [size] *)
  arena_mallocs : bool * bool;
  string_table_create : bool;        (* not [NULL] *)
  diagnostic_context_create : bool;
  lexer_create : bool;
  parser_create : bool;
  parser_parse_program : bool;
  codegen_context_create : bool;
  codegen_generate : bool;
  codegen_compile_and_execute : Z
}.

(** [read_file]; [None] is [NULL]. *)
Definition read_file (world : World) (filename : string) : option string :=
  match fopen world filename with
  | None => None   (* Could not open file *)
  | Some contents =>
      if negb (read_malloc world) then None   (* Out of memory *)
      else if negb (fread_complete world) then None   (* Could not read *)
      else Some contents
  end.

(** What [main] calls, in the order of the calls. *)
Inductive Step :=
  | ReadFile (filename : string)
  | ArenaCreate
  | StringTableCreate
  | DiagnosticContextCreate
  | LexerCreate
  | ParserCreate
  | ParserParseProgram
  | CodegenContextCreate (type_context : option Context.address)
  | CodegenGenerate (output_file : string)
  | CodegenCompileAndExecute (c_file : string)
  | ArenaDestroy.

(** [argv[arg_index][0] == '-'] *)
Definition is_option (arg : string) : bool :=
  match arg with
  | String c _ => Ascii.eqb c "-"
  | EmptyString => false
  end.

Inductive Options :=
  | Help                                        (* [return 0] *)
  | UnknownOption                               (* [return 1] *)
  | Parsed (verbose_mode debug_mode : bool) (rest : list string).

(** The loop that parses the options, on the arguments from [arg_index]. *)
Fixpoint parse_options (args : list string) (verbose_mode debug_mode : bool)
    : Options :=
  match args with
  | arg :: rest =>
      if is_option arg then
        if String.eqb arg "-v" || String.eqb arg "--verbose" then
          parse_options rest true debug_mode
        else if String.eqb arg "-d" || String.eqb arg "--debug" then
          (* Debug implies verbose *)
          parse_options rest true true
        else if String.eqb arg "-h" || String.eqb arg "--help" then Help
        else UnknownOption
      else Parsed verbose_mode debug_mode args
  | [] => Parsed verbose_mode debug_mode []
  end.

(** [snprintf(temp_file, sizeof(temp_file), "%s.c", input_file)] with
    [char temp_file[256]]. *)
Definition temp_file_name (input_file : string) : string :=
  String.substring 0 255 (String.append input_file ".c").

(** [main]: the exit code and the calls made. [argv] holds the program name
    first. *)
Definition main (argv : list string) (world : World) : Z * list Step :=
  (* Skip program name, parse options *)
  match parse_options (skipn 1 argv) false false with
  | Help => (0, [])
  | UnknownOption => (1, [])
  | Parsed verbose_mode debug_mode [] =>
      (* No input file specified *)
      (1, [])
  | Parsed verbose_mode debug_mode (input_file :: rest) =>
      (* Get output filename if provided *)
      let output_file := head rest in
      (* Read input file *)
      let trace := [ReadFile input_file] in
      if negb (bool_decide (is_Some (read_file world input_file))) then
        (1, trace)
      else
      let stop (trace : list Step) := (1, trace ++ [ArenaDestroy]) in
      (* Initialize memory arena *)
      let trace := trace ++ [ArenaCreate] in
      if negb (bool_decide (is_Some
           (Arena.arena_create (fst (arena_mallocs world))
              (snd (arena_mallocs world)) (1024 * 1024)))) then (1, trace)
      else
      (* Initialize string table *)
      let trace := trace ++ [StringTableCreate] in
      if negb (string_table_create world) then stop trace else
      (* Initialize diagnostic context *)
      let trace := trace ++ [DiagnosticContextCreate] in
      if negb (diagnostic_context_create world) then stop trace else
      (* Initialize lexer *)
      let trace := trace ++ [LexerCreate] in
      if negb (lexer_create world) then stop trace else
      (* Initialize parser *)
      let trace := trace ++ [ParserCreate] in
      if negb (parser_create world) then stop trace else
      (* Parse program *)
      let trace := trace ++ [ParserParseProgram] in
      if negb (parser_parse_program world) then stop trace else
      (* Initialize code generator: codegen_context_create(arena, diag) *)
      let trace := trace ++ [CodegenContextCreate None] in
      if negb (codegen_context_create world) then stop trace else
      (* Determine mode *)
      match output_file with
      | Some output_file =>
          (* Compile to C file *)
          let trace := trace ++ [CodegenGenerate output_file] in
          if negb (codegen_generate world) then stop trace
          else (0, trace ++ [ArenaDestroy])
      | None =>
          (* Compile and run: generate C code to a temporary file *)
          let temp_file := temp_file_name input_file in
          let trace := trace ++ [CodegenGenerate temp_file] in
          if negb (codegen_generate world) then stop trace else
          (* Compile and execute *)
          let trace := trace ++ [CodegenCompileAndExecute temp_file] in
          if negb (codegen_compile_and_execute world =? 0)%Z then stop trace
          else (0, trace ++ [ArenaDestroy])
      end
  end.

(** *** The command line and the outcome, as the specification words them *)

Definition is_verbose (arg : string) : bool :=
  String.eqb arg "-v" || String.eqb arg "--verbose".

Definition is_debug (arg : string) : bool :=
  String.eqb arg "-d" || String.eqb arg "--debug".

Definition is_help (arg : string) : bool :=
  String.eqb arg "-h" || String.eqb arg "--help".

(** The leading options of a command line and the arguments after them. *)
Fixpoint leading_options (args : list string) : list string :=
  match args with
  | arg :: rest => if is_option arg then arg :: leading_options rest else []
  | [] => []
  end.

Fixpoint positional (args : list string) : list string :=
  match args with
  | arg :: rest => if is_option arg then positional rest else args
  | [] => []
  end.

(** The first option that is neither [-v] nor [-d]: a request for help, or
    an unknown option. *)
Definition deciding_option (args : list string) : option string :=
  List.find (fun arg => negb (is_verbose arg || is_debug arg))
    (leading_options args).

(** Every step of a compilation succeeds: the file is read, the arena, the
    string table, the diagnostics, the lexer, the parser and the code
    generator are created, the program is parsed, the C code is generated
    and, when no output file is named, the host C compiler returns zero. *)
Definition all_succeed (world : World) (input_file : string)
    (output_file : option string) : bool :=
  bool_decide (is_Some (fopen world input_file))
  && read_malloc world && fread_complete world
  && fst (arena_mallocs world) && snd (arena_mallocs world)
  && string_table_create world
  && diagnostic_context_create world
  && lexer_create world
  && parser_create world
  && parser_parse_program world
  && codegen_context_create world
  && codegen_generate world
  && (bool_decide (is_Some output_file)
      || (codegen_compile_and_execute world =? 0)%Z).

Definition exit_code (argv : list string) (world : World) : Z :=
  let args := skipn 1 argv in
  match deciding_option args with
  | Some arg => if is_help arg then 0 else 1
  | None =>
      match positional args with
      | [] => 1
      | input_file :: rest =>
          if all_succeed world input_file (head rest) then 0 else 1
      end
  end.

(** The stages of the pipeline of section 2 of the specification, and the
    stage a call of [main] belongs to. *)
Inductive Stage :=
  | StageLexer | StageParser | StageBindingResolver | StageTypeInferencer
  | StageCodeGenerator.

Definition stage_of (step : Step) : option Stage :=
  match step with
  | LexerCreate => Some StageLexer
  | ParserCreate | ParserParseProgram => Some StageParser
  | CodegenContextCreate _ | CodegenGenerate _ => Some StageCodeGenerator
  | _ => None
  end.

Definition stages (trace : list Step) : list Stage := omap stage_of trace.

Definition generates_code (trace : list Step) : Prop :=
  exists file, In (CodegenGenerate file) trace.

(** A world in which every step succeeds, and the command line
    [eshkol a.esk a.c]. *)
Definition willing_world : World :=
  mkWorld (fun _ => Some "(display 1)") true true (true, true) true true
    true true true true true 0.

Definition compile_to_c : list string := ["eshkol"; "a.esk"; "a.c"].

End Driver.

(** ** Reference-counted environments (eshkol_environment_retain and
    eshkol_environment_release) *)

Module Environment.

(** An environment in the heap: its parent ([None] is [NULL]) and its
    reference count, a [size_t]. The arrays of values, types and names are
    freed with the environment; the two functions read nothing else. *)
Record EshkolEnvironment := mkEnvironment {
  parent : option nat;
  ref_count : Z
}.

(** The heap of environments by address; [None] at an address is an
    environment that has been freed. *)
Abbreviation Heap := (list (option EshkolEnvironment)).

(** [eshkol_environment_retain]. There is no result where the pointer is
    dangling, which C leaves undefined. *)
Definition eshkol_environment_retain (env : option nat) (heap : Heap)
    : option Heap :=
  match env with
  | None => Some heap
  | Some e =>
      match heap !! e with
      | Some (Some r) =>
          Some (<[e := Some (mkEnvironment (parent r)
                               (wrap64 (ref_count r + 1)))]> heap)
      | _ => None
      end
  end.

(** [eshkol_environment_release], with the depth of the recursion bounded
    by [fuel]. *)
Fixpoint release (fuel : nat) (env : option nat) (heap : Heap)
    : option Heap :=
  match env with
  | None => Some heap
  | Some e =>
      match heap !! e with
      | Some (Some r) =>
          (* --env->ref_count *)
          let count := wrap64 (ref_count r - 1) in
          let heap := <[e := Some (mkEnvironment (parent r) count)]> heap in
          if count =? 0 then
            (* Release parent environment *)
            let released :=
              match parent r with
              | Some p =>
                  match fuel with
                  | S fuel' => release fuel' (Some p) heap
                  | O => None
                  end
              | None => Some heap
              end in
            (* Free environment *)
            match released with
            | Some heap => Some (<[e := None]> heap)
            | None => None
            end
          else Some heap
      | _ => None
      end
  end.

(** An environment is freed at most once in a run, so that the recursion
    is never deeper than the heap is long. *)
Definition eshkol_environment_release (env : option nat) (heap : Heap)
    : option Heap :=
  release (length heap) env heap.

(** The environment a chain starts with: its first member, or what comes
    after the chain when it is empty. *)
Definition first_of (chain : list nat) (stop : option nat) : option nat :=
  match chain with
  | e :: _ => Some e
  | [] => stop
  end.

(** A chain of environments, each the parent of the one before it and each
    held by one reference only; [stop] is the parent of the last one. *)
Fixpoint sole_chain (heap : Heap) (chain : list nat) (stop : option nat)
    : Prop :=
  match chain with
  | [] => True
  | e :: chain' =>
      (exists r,
         heap !! e = Some (Some r)
         /\ ref_count r = 1
         /\ parent r = first_of chain' stop)
      /\ sole_chain heap chain' stop
  end.

(** An environment that is live and that other references hold too. *)
Definition shared (heap : Heap) (env : option nat) : Prop :=
  match env with
  | None => True
  | Some p =>
      exists r,
        heap !! p = Some (Some r)
        /\ in_size_t (ref_count r) /\ ref_count r <> 1
  end.

(** The heap with the environments of a chain freed. *)
Definition free_all (chain : list nat) (heap : Heap) : Heap :=
  foldr (fun e heap' => <[e := None]> heap') heap chain.

(** The heap with one reference to an environment given up. *)
Definition decremented (env : option nat) (heap : Heap) : Heap :=
  match env with
  | None => heap
  | Some p =>
      match heap !! p with
      | Some (Some r) =>
          <[p := Some (mkEnvironment (parent r)
                         (wrap64 (ref_count r - 1)))]> heap
      | _ => heap
      end
  end.

End Environment.

(** ** The vectorized addition (vector_f_add_sse) *)

Module Simd.

Section Floats.

(** The C type [float] and its addition, which [_mm_add_ps] performs on
    each of its four lanes. *)
Variable float : Type.
Variable fadd : float -> float -> float.

(** The fields of [VectorF] that the function uses: the dimension, a
    [size_t], and the array of components. *)
Record VectorF := mkVectorF {
  dim : Z;
  data : list float
}.

(** Four packed [float]s. *)
Definition __m128 : Type := float * float * float * float.

(** [_mm_load_ps(&p[i])]; there is no result where it reads past the end
    of the array. The alignment the instruction demands of the address is
    left out. *)
Definition _mm_load_ps (p : list float) (i : nat) : option __m128 :=
  match p !! i, p !! (i + 1)%nat, p !! (i + 2)%nat, p !! (i + 3)%nat with
  | Some x0, Some x1, Some x2, Some x3 => Some (x0, x1, x2, x3)
  | _, _, _, _ => None
  end.

Definition _mm_add_ps (va vb : __m128) : __m128 :=
  let '(a0, a1, a2, a3) := va in
  let '(b0, b1, b2, b3) := vb in
  (fadd a0 b0, fadd a1 b1, fadd a2 b2, fadd a3 b3).

(** [_mm_store_ps(&p[i], v)]; there is no result where it writes past the
    end of the array. *)
Definition _mm_store_ps (p : list float) (i : nat) (v : __m128)
    : option (list float) :=
  let '(x0, x1, x2, x3) := v in
  if decide (i + 3 < length p)%nat then
    Some (<[(i + 3)%nat := x3]>
            (<[(i + 2)%nat := x2]> (<[(i + 1)%nat := x1]> (<[i := x0]> p))))
  else None.

(** [for (; i + 3 < dim; i += 4)]: process 4 elements at a time using SSE.
    The result is the index the loop stops at and the components of
    [result]. [fuel] bounds the number of rounds. *)
Fixpoint sse_loop (fuel : nat) (i dim : Z) (a b result : list float)
    : option (Z * list float) :=
  if wrap64 (i + 3) <? dim then
    match fuel with
    | O => None
    | S fuel' =>
        match _mm_load_ps a (Z.to_nat i), _mm_load_ps b (Z.to_nat i) with
        | Some va, Some vb =>
            match _mm_store_ps result (Z.to_nat i) (_mm_add_ps va vb) with
            | Some result' =>
                sse_loop fuel' (wrap64 (i + 4)) dim a b result'
            | None => None
            end
        | _, _ => None
        end
    end
  else Some (i, result).

(** [for (; i < dim; i++)]: process remaining elements. *)
Fixpoint scalar_loop (fuel : nat) (i dim : Z) (a b result : list float)
    : option (list float) :=
  if i <? dim then
    match fuel with
    | O => None
    | S fuel' =>
        match a !! Z.to_nat i, b !! Z.to_nat i with
        | Some x, Some y =>
            if decide (Z.to_nat i < length result)%nat then
              scalar_loop fuel' (wrap64 (i + 1)) dim a b
                (<[Z.to_nat i := fadd x y]> result)
            else None
        | _, _ => None
        end
    end
  else Some result.

(** [vector_f_add_sse]: the vector [result] points at afterwards. There is
    no result where an assertion fails. Neither loop runs more rounds
    than the vectors have components. *)
Definition vector_f_add_sse (result a b : VectorF) : option VectorF :=
  if negb (dim a =? dim b) then None
  else if negb (dim result >=? dim a) then None
  else
    let fuel := Z.to_nat (dim a) in
    match sse_loop fuel 0 (dim a) (data a) (data b) (data result) with
    | Some (i, data1) =>
        match scalar_loop fuel i (dim a) (data a) (data b) data1 with
        | Some data2 => Some (mkVectorF (dim result) data2)
        | None => None
        end
    | None => None
    end.

(** A vector holds as many components as its dimension says. *)
Definition well_formed (v : VectorF) : Prop :=
  0 <= dim v /\ dim v + 3 <= SIZE_MAX
  /\ length (data v) = Z.to_nat (dim v).

End Floats.

Arguments mkVectorF {float}.
Arguments dim {float}.
Arguments data {float}.
Arguments well_formed {float}.

End Simd.

(** * Properties *)

(** ** Machine integers *)

Lemma wrap64_small z : in_size_t z -> wrap64 z = z.
Proof.
  unfold in_size_t, SIZE_MAX, wrap64. intros H.
  apply Z.mod_small. lia.
Qed.

Lemma wrap64_range z : in_size_t (wrap64 z).
Proof.
  unfold in_size_t, SIZE_MAX, wrap64.
  pose proof (Z.mod_pos_bound z (2 ^ 64) ltac:(lia)). lia.
Qed.

(** Masking with [~7] clears the three low bits. *)
Lemma land_not7 x :
  in_size_t x -> Z.land x (wrap64 (Z.lnot 7)) = 8 * (x / 8).
Proof.
  intros Hx. unfold wrap64.
  rewrite <- (Z.land_ones (Z.lnot 7) 64) by lia.
  rewrite (Z.land_comm (Z.lnot 7)), Z.land_assoc.
  rewrite (Z.land_ones x 64) by lia.
  fold (wrap64 x). rewrite (wrap64_small x Hx).
  rewrite <- Z.ldiff_land.
  change 7 with (Z.ones 3).
  rewrite Z.ldiff_ones_r by lia.
  rewrite Z.shiftr_div_pow2, Z.shiftl_mul_pow2 by lia.
  change (2 ^ 3) with 8. lia.
Qed.

(** ** The arena *)

Section ArenaFacts.

Import Arena.

Lemma round_up8_bounds size :
  round_up8 size mod 8 = 0 /\ size <= round_up8 size < size + 8.
Proof.
  unfold round_up8. split.
  - rewrite Z.mul_comm. apply Z.mod_mul. lia.
  - pose proof (Z.div_mod (size + 7) 8 ltac:(lia)).
    pose proof (Z.mod_pos_bound (size + 7) 8 ltac:(lia)). lia.
Qed.

Lemma align8_round_up size :
  0 <= size <= SIZE_MAX - 7 -> align8 size = round_up8 size.
Proof.
  intros H. unfold align8, round_up8.
  assert (Hs : in_size_t (size + 7)) by (unfold in_size_t; lia).
  rewrite (wrap64_small _ Hs). now apply land_not7.
Qed.

Lemma arena_alloc_zero malloc_ok a : arena_alloc malloc_ok a 0 = (None, a).
Proof. reflexivity. Qed.

(** What an allocation does when nothing wraps: the two outcomes. *)
Lemma arena_alloc_no_wrap malloc_ok a size :
  arena_ok a -> 0 < size -> no_wrap a size ->
  let r := round_up8 size in
  arena_alloc malloc_ok a size =
    if used (current a) + r >? Arena.size (current a) then
      if malloc_ok then
        (Some (length (earlier a ++ [current a]), 0),
         mkArena (earlier a ++ [current a])
           (mkBlock (Z.max (Arena.size (current a) * 2) r) r) []
           (total_used a + r) (wrap64 (allocation_count a + 1))
           (min_block_size a))
      else (None, a)
    else
      (Some (length (earlier a), used (current a)),
       mkArena (earlier a)
         (mkBlock (Arena.size (current a)) (used (current a) + r))
         (later a) (total_used a + r) (wrap64 (allocation_count a + 1))
         (min_block_size a)).
Proof.
  intros [[Hsz Hus] Htot] Hpos (H7 & Hur & H2 & Htr) r.
  pose proof (round_up8_bounds size) as [_ Hr]. fold r in Hr, Hur, Htr.
  unfold arena_alloc.
  destruct (Z.eqb_spec size 0) as [->|_]; [lia|].
  rewrite align8_round_up by lia. fold r. cbv zeta.
  unfold in_size_t in *.
  rewrite !(wrap64_small (used (current a) + r)) by (unfold in_size_t; lia).
  rewrite !(wrap64_small (total_used a + r)) by (unfold in_size_t; lia).
  rewrite (wrap64_small (Arena.size (current a) * 2))
    by (unfold in_size_t; lia).
  rewrite (wrap64_small (0 + r)) by (unfold in_size_t; lia).
  destruct (used (current a) + r >? Arena.size (current a)); [|reflexivity].
  destruct malloc_ok; simpl; [|reflexivity].
  replace (if Arena.size (current a) * 2 <? r then r
           else Arena.size (current a) * 2)
    with (Z.max (Arena.size (current a) * 2) r)
    by (destruct (Z.ltb_spec (Arena.size (current a) * 2) r); lia).
  reflexivity.
Qed.

Example arena_alloc_in_block :
  arena_alloc false (mkArena [] (mkBlock 1024 0) [] 0 0 1024) 10
  = (Some (0%nat, 0), mkArena [] (mkBlock 1024 16) [] 16 1 1024).
Proof. reflexivity. Qed.

Example arena_alloc_new_block :
  arena_alloc true (mkArena [] (mkBlock 1024 1020) [] 1020 3 1024) 4000
  = (Some (1%nat, 0),
     mkArena [mkBlock 1024 1020] (mkBlock 4000 4000) [] 5020 4 1024).
Proof. reflexivity. Qed.

Example arena_alloc_malloc_fails :
  arena_alloc false (mkArena [] (mkBlock 1024 1020) [] 1020 3 1024) 8
  = (None, mkArena [] (mkBlock 1024 1020) [] 1020 3 1024).
Proof. reflexivity. Qed.

(** C9 (as amended): [arena_alloc] with size zero returns [NULL] and leaves
    the arena unchanged; a successful [arena_alloc] of a size greater than
    zero, when none of its [size_t] computations wraps around, rounds the
    size up to the next multiple of 8 and adds exactly that amount to
    [total_used] and to the [used] count of the current block, which is a
    new block of size max(twice the old block's size, the rounded size),
    linked behind the old one, when the old one lacks room. *)
Theorem arena_alloc_accounting malloc_ok a size :
  arena_alloc malloc_ok a 0 = (None, a)
  /\ (arena_ok a -> 0 < size -> no_wrap a size ->
      forall p a', arena_alloc malloc_ok a size = (Some p, a') ->
      let r := round_up8 size in
      (r mod 8 = 0 /\ size <= r < size + 8)
      /\ total_used a' = total_used a + r
      /\ if used (current a) + r >? Arena.size (current a) then
           earlier a' = earlier a ++ [current a]
           /\ Arena.size (current a') = Z.max (Arena.size (current a) * 2) r
           /\ used (current a') = r
         else
           earlier a' = earlier a /\ later a' = later a
           /\ Arena.size (current a') = Arena.size (current a)
           /\ used (current a') = used (current a) + r).
Proof.
  split; [apply arena_alloc_zero|].
  intros Hok Hpos Hnw p a' Halloc r.
  split; [apply round_up8_bounds|].
  rewrite (arena_alloc_no_wrap malloc_ok a size Hok Hpos Hnw) in Halloc.
  fold r in Halloc.
  destruct (used (current a) + r >? Arena.size (current a)).
  - destruct malloc_ok; [|discriminate].
    injection Halloc as _ <-. simpl. auto.
  - injection Halloc as _ <-. simpl. auto.
Qed.

(** The arena [arena_create] returns for a capacity of 1024 bytes. *)
Lemma arena_create_1024 :
  arena_create true true 1024 = Some (mkArena [] (mkBlock 1024 0) [] 0 0 1024).
Proof. reflexivity. Qed.

Lemma arena_alloc_accounting_witness :
  let a := mkArena [] (mkBlock 1024 0) [] 0 0 1024 in
  let a' := snd (arena_alloc true a 10) in
  total_used a' = 16 /\ used (current a') = 16.
Proof.
  intros a a'.
  destruct (arena_alloc_accounting true a 10) as [_ H].
  assert (Hok : arena_ok a) by (vm_compute; intuition discriminate).
  assert (Hnw : no_wrap a 10) by (vm_compute; intuition discriminate).
  assert (Hpos : 0 < 10) by lia.
  destruct (H Hok Hpos Hnw (0%nat, 0) a' eq_refl) as (_ & Ht & Hc).
  simpl in Hc. destruct Hc as (_ & _ & _ & Hu).
  split; [exact Ht | exact Hu].
Defined.

(** C9 as stated fails where the rounding wraps around: asked for
    [SIZE_MAX] bytes, [arena_alloc] succeeds and accounts for no byte at
    all, while the next multiple of 8 is [2^64]. *)
Lemma arena_alloc_wraps :
  let a := mkArena [] (mkBlock 1024 0) [] 0 0 1024 in
  arena_alloc true a SIZE_MAX
    = (Some (0%nat, 0), mkArena [] (mkBlock 1024 0) [] 0 1 1024)
  /\ round_up8 SIZE_MAX = 2 ^ 64.
Proof. split; vm_compute; reflexivity. Qed.

End ArenaFacts.

(** ** The binding table *)

Section BindingFacts.

Import Binding.

Variable sizeof_StringId sizeof_BindingFlags : Z.

Local Abbreviation create_binding :=
  (binding_system_create_binding sizeof_StringId sizeof_BindingFlags).
Local Abbreviation create_all :=
  (create_bindings sizeof_StringId sizeof_BindingFlags).

(** Every call, successful or not, takes the next id and moves the counter
    on; a successful call returns the id it took. *)
Lemma create_binding_counter mallocs system scope_id name flags r system' :
  create_binding mallocs system scope_id name flags = (r, system') ->
  next_binding_id system' = wrap64 (next_binding_id system + 1)
  /\ (forall id, r = Some id -> id = next_binding_id system).
Proof.
  unfold binding_system_create_binding.
  destruct mallocs as [[[m1 m2] m3] m4].
  intros H. repeat case_match; simplify_eq; simpl; split; congruence.
Qed.

(** A call fails only when the table is full and the arena cannot supply
    one of the four new arrays. *)
Lemma create_binding_succeeds mallocs system scope_id name flags :
  count (binding_table system) < capacity (binding_table system) ->
  fst (create_binding mallocs system scope_id name flags)
    = Some (next_binding_id system).
Proof.
  intros Hroom. unfold binding_system_create_binding.
  destruct mallocs as [[[m1 m2] m3] m4].
  destruct (Z.geb_spec (count (binding_table system))
              (capacity (binding_table system))); [lia|reflexivity].
Qed.

Lemma create_bindings_range calls : forall system results system',
  0 <= next_binding_id system ->
  next_binding_id system + Z.of_nat (length calls) <= 2 ^ 64 ->
  create_all calls system = (results, system') ->
  Forall (fun id => next_binding_id system <= id
                    < next_binding_id system + Z.of_nat (length calls))
         (successful_ids results)
  /\ StronglySorted Z.lt (successful_ids results).
Proof.
  induction calls as [|c rest IH]; intros system results system' H0 Hmax Hrun.
  - simpl in Hrun. simplify_eq. split; constructor.
  - simpl in Hrun.
    destruct (create_binding (call_mallocs c) system (call_scope c)
                (call_name c) (call_flags c)) as [r s1] eqn:Hcall.
    destruct (create_all rest s1) as [rs s2] eqn:Hrest.
    simplify_eq.
    apply create_binding_counter in Hcall as [Hnext Hid].
    simpl length in *.
    assert (Htail :
      Forall (fun id => next_binding_id system + 1 <= id
                        < next_binding_id system + 1
                          + Z.of_nat (length rest)) (successful_ids rs)
      /\ StronglySorted Z.lt (successful_ids rs)).
    { destruct rest as [|c' rest'].
      - simpl in Hrest. simplify_eq. split; constructor.
      - assert (Hs1 : next_binding_id s1 = next_binding_id system + 1).
        { rewrite Hnext. apply wrap64_small.
          unfold in_size_t, SIZE_MAX. simpl length in Hmax. lia. }
        rewrite <- Hs1. apply (IH s1 rs system'); [lia| |exact Hrest].
        rewrite Hs1. lia. }
    destruct Htail as [Hrange Hsorted].
    unfold successful_ids in *. destruct r as [id0|]; simpl.
    + specialize (Hid id0 eq_refl). subst id0. split.
      * constructor; [lia|].
        eapply Forall_impl; [exact Hrange|]. simpl. intros; lia.
      * constructor; [exact Hsorted|].
        eapply Forall_impl; [exact Hrange|]. simpl. intros; lia.
    + split; [|exact Hsorted].
      eapply Forall_impl; [exact Hrange|]. simpl. intros; lia.
Qed.

Lemma StronglySorted_lt_NoDup (l : list Z) : StronglySorted Z.lt l -> NoDup l.
Proof.
  induction 1 as [|x l _ IH Hall]; constructor; [|exact IH].
  intros Hin. rewrite Forall_forall in Hall.
  specialize (Hall x Hin). lia.
Qed.

(** C6 (as amended): as long as the 64-bit counter [next_binding_id] does
    not wrap around during the calls, the binding ids returned by the
    successful ones among successive calls of
    [binding_system_create_binding] are strictly increasing in call order,
    hence pairwise distinct. *)
Theorem binding_ids_increase calls system results system' :
  0 <= next_binding_id system ->
  next_binding_id system + Z.of_nat (length calls) <= 2 ^ 64 ->
  create_all calls system = (results, system') ->
  StronglySorted Z.lt (successful_ids results)
  /\ NoDup (successful_ids results).
Proof.
  intros H0 Hmax Hrun.
  destruct (create_bindings_range calls system results system' H0 Hmax Hrun)
    as [_ Hsorted].
  split; [exact Hsorted|now apply StronglySorted_lt_NoDup].
Qed.

End BindingFacts.

Section BindingExamples.

Import Binding.

Lemma binding_ids_increase_witness :
  StronglySorted Z.lt
    (Binding.successful_ids
       (fst (Binding.create_bindings 8 8 [a_call; a_call; a_call]
               (empty_system 1))))
  /\ NoDup
    (Binding.successful_ids
       (fst (Binding.create_bindings 8 8 [a_call; a_call; a_call]
               (empty_system 1)))).
Proof.
  apply (binding_ids_increase 8 8 [a_call; a_call; a_call] (empty_system 1)
           _ (snd (Binding.create_bindings 8 8 [a_call; a_call; a_call]
                     (empty_system 1)))).
  - simpl. lia.
  - simpl. lia.
  - reflexivity.
Defined.

(** C6 as stated fails when the counter wraps around: in a system whose
    counter stands at [2^64 - 1], two successive successful calls return
    [2^64 - 1] and then [0]. *)
Lemma binding_ids_wrap :
  Binding.successful_ids
    (fst (Binding.create_bindings 8 8 [a_call; a_call]
            (empty_system (2 ^ 64 - 1))))
  = [2 ^ 64 - 1; 0]
  /\ ~ StronglySorted Z.lt [2 ^ 64 - 1; 0].
Proof.
  split; [vm_compute; reflexivity|].
  intros H. inversion H as [|x l _ Hall]; subst.
  inversion Hall as [|y l' Hlt _]; subst. lia.
Qed.

End BindingExamples.

(** ** The lexer's number routine *)

Section LexerFacts.

Import Lexer.

Variable strtod : string -> double.
Variable strtol : string -> Z -> Z.

Lemma get_past_end (s : string) : forall n,
  (String.length s <= n)%nat -> String.get n s = None.
Proof.
  induction s as [|c s IH]; intros n Hn; [now destruct n|].
  destruct n as [|n]; simpl in *; [lia|]. apply IH. lia.
Qed.

Lemma char_at_past_end lexer i :
  (String.length (source lexer) <= i)%nat -> char_at lexer i = zero.
Proof. intros H. unfold char_at. now rewrite get_past_end. Qed.

Lemma char_at_same_source a b i :
  source a = source b -> char_at a i = char_at b i.
Proof. unfold char_at. now intros ->. Qed.

Lemma is_digit_dot : is_digit "." = false.
Proof. reflexivity. Qed.

Lemma is_digit_zero : is_digit zero = false.
Proof. reflexivity. Qed.

(** The digit loop keeps the text and the start of the lexeme, consumes
    digits only, and with fuel for every byte left it stops in front of a
    byte that is no digit. *)
Lemma advance_digits_spec fuel : forall lexer,
  let lexer' := advance_digits fuel lexer in
  source lexer' = source lexer
  /\ start lexer' = start lexer
  /\ (current lexer <= current lexer')%nat
  /\ (forall i, (current lexer <= i < current lexer')%nat ->
        is_digit (char_at lexer i) = true)
  /\ ((String.length (source lexer) - current lexer <= fuel)%nat ->
      is_digit (peek lexer') = false).
Proof.
  induction fuel as [|fuel IH]; intros lexer; simpl.
  - repeat split; try lia.
    intros H. unfold peek. rewrite char_at_past_end by lia.
    apply is_digit_zero.
  - destruct (is_digit (peek lexer)) eqn:Hd.
    + destruct (IH (advance lexer)) as (Hs & Hst & Hle & Hdig & Hstop).
      simpl in *. repeat split; try assumption; try lia.
      * intros i Hi. destruct (Nat.eq_dec i (current lexer)) as [->|Hne].
        -- exact Hd.
        -- rewrite (char_at_same_source lexer (advance lexer)) by reflexivity.
           apply Hdig. lia.
      * intros Hf. apply Hstop. lia.
    + repeat split; try lia. intros _. exact Hd.
Qed.

Lemma skip_digits_spec lexer :
  let lexer' := skip_digits lexer in
  source lexer' = source lexer
  /\ start lexer' = start lexer
  /\ (current lexer <= current lexer')%nat
  /\ (forall i, (current lexer <= i < current lexer')%nat ->
        is_digit (char_at lexer i) = true)
  /\ is_digit (peek lexer') = false.
Proof.
  destruct (advance_digits_spec
              (String.length (source lexer) - current lexer) lexer)
    as (Hs & Hst & Hle & Hdig & Hstop).
  unfold skip_digits. repeat split; try assumption. now apply Hstop.
Qed.

Lemma has_dot_In lexer n : forall i,
  has_dot lexer i n = true <-> In "."%char (map (char_at lexer) (seq i n)).
Proof.
  induction n as [|n IH]; intros i; simpl; [easy|].
  destruct (Ascii.eqb_spec (char_at lexer i) ".") as [->|Hne].
  - split; auto.
  - rewrite IH. split; [auto|]. intros [H|H]; [congruence|exact H].
Qed.

Example number_float :
  number strtod strtol (mkLexer "12.5)" 0 0)
  = (mkToken TOKEN_NUMBER 0 4 (FloatingValue (strtod "12.5)")),
     mkLexer "12.5)" 0 4).
Proof. reflexivity. Qed.

Example number_trailing_dot :
  number strtod strtol (mkLexer "12.)" 0 0)
  = (mkToken TOKEN_NUMBER 0 2 (IntegerValue (strtol "12.)" 10)),
     mkLexer "12.)" 0 2).
Proof. reflexivity. Qed.

Example number_signed :
  number strtod strtol (mkLexer "(- -7 x)" 3 4)
  = (mkToken TOKEN_NUMBER 3 2 (IntegerValue (strtol "-7 x)" 10)),
     mkLexer "(- -7 x)" 3 5).
Proof. reflexivity. Qed.

(** C5: the token of [number] is a number token whose payload is the
    floating one, converted by [strtod], if and only if its lexeme holds a
    decimal point, and otherwise the integer one, converted by [strtol] in
    base 10; and every ['.'] that [number] consumes stands immediately in
    front of a digit. *)
Theorem number_payload lexer :
  let token := fst (number strtod strtol lexer) in
  let lexer' := snd (number strtod strtol lexer) in
  let text := text_from lexer (start lexer) in
  type token = TOKEN_NUMBER
  /\ (In "."%char (lexeme_text lexer' token)
        /\ value token = FloatingValue (strtod text)
      \/ ~ In "."%char (lexeme_text lexer' token)
        /\ value token = IntegerValue (strtol text 10))
  /\ (forall i, (current lexer <= i < current lexer')%nat ->
        char_at lexer i = "."%char -> is_digit (char_at lexer (S i)) = true).
Proof.
  unfold number.
  destruct (skip_digits_spec lexer) as (Hs1 & Hst1 & Hle1 & Hdig1 & Hstop1).
  set (l1 := skip_digits lexer) in *.
  set (l2 := if Ascii.eqb (peek l1) "." && is_digit (peek_next l1)
             then skip_digits (advance l1) else l1).
  assert (H2 : source l2 = source lexer /\ start l2 = start lexer
               /\ forall i, (current lexer <= i < current l2)%nat ->
                    char_at lexer i = "."%char ->
                    is_digit (char_at lexer (S i)) = true).
  { subst l2.
    destruct (Ascii.eqb_spec (peek l1) ".") as [Hdot|Hnodot]; simpl.
    - destruct (is_digit (peek_next l1)) eqn:Hnext.
      + destruct (skip_digits_spec (advance l1))
          as (Hs2 & Hst2 & Hle2 & Hdig2 & _).
        simpl in *. repeat split; try congruence.
        intros i Hi Hc.
        assert (Hcases : (i < current l1 \/ i = current l1
                          \/ current l1 < i)%nat) by lia.
        destruct Hcases as [Hlt|[->|Hgt]].
        * assert (Hd := Hdig1 i ltac:(lia)). rewrite Hc in Hd. discriminate.
        * unfold peek_next, is_at_end in Hnext. rewrite Hdot in Hnext.
          simpl in Hnext.
          now rewrite (char_at_same_source lexer l1) by congruence.
        * assert (Hd : is_digit (char_at (advance l1) i) = true)
            by (apply Hdig2; lia).
          rewrite (char_at_same_source lexer (advance l1)) in Hc
            by (simpl; congruence).
          rewrite Hc in Hd. discriminate.
      + repeat split; try assumption.
        intros i Hi Hc. assert (Hd := Hdig1 i Hi).
        rewrite Hc in Hd. discriminate.
    - repeat split; try assumption.
      intros i Hi Hc. assert (Hd := Hdig1 i Hi).
      rewrite Hc in Hd. discriminate. }
  destruct H2 as (Hs2 & Hst2 & Hdots).
  cbn zeta. simpl fst. simpl snd. simpl type. simpl value.
  split; [reflexivity|]. split; [|exact Hdots].
  unfold lexeme_text. simpl lexeme. simpl Lexer.length.
  replace (text_from l2 (start l2)) with (text_from lexer (start lexer))
    by (unfold text_from; now rewrite Hs2, Hst2).
  destruct (has_dot l2 (start l2) (current l2 - start l2)) eqn:Hdot.
  - left. split; [|reflexivity]. now apply has_dot_In.
  - right. split; [|reflexivity]. rewrite <- has_dot_In. congruence.
Qed.

End LexerFacts.

(** ** The code generation context *)

Section ContextFacts.

Import Context.

Variable sizeof_CodegenContext : Z.

Lemma create_initial malloc_ok arena arena_state diagnostics type_context
    context arena_state' :
  codegen_context_create sizeof_CodegenContext malloc_ok arena arena_state
    diagnostics type_context = (Some context, arena_state') ->
  context = mkContext arena diagnostics type_context None 0 false None.
Proof.
  unfold codegen_context_create.
  destruct (Arena.arena_alloc _ _ _) as [[p|] a]; intros H; now simplify_eq.
Qed.

Lemma increment_adds_one context context' :
  codegen_context_increment_indent context = Some context' ->
  indent_level context' = indent_level context + 1.
Proof.
  unfold codegen_context_increment_indent.
  destruct (indent_level context <? INT_MAX); intros H; now simplify_eq.
Qed.

Lemma decrement_at_zero context :
  indent_level context = 0 -> codegen_context_decrement_indent context = context.
Proof.
  unfold codegen_context_decrement_indent. now intros ->.
Qed.

Lemma indent_step_nonnegative op context context' :
  0 <= indent_level context ->
  indent_step op context = Some context' ->
  0 <= indent_level context'.
Proof.
  intros H0. destruct op; simpl.
  - intros H. apply increment_adds_one in H. lia.
  - unfold codegen_context_decrement_indent.
    destruct (Z.gtb_spec (indent_level context) 0);
      intros Heq; simplify_eq; simpl; lia.
Qed.

Lemma indent_run_nonnegative ops : forall context context',
  0 <= indent_level context ->
  indent_run ops context = Some context' ->
  0 <= indent_level context'.
Proof.
  induction ops as [|op ops IH]; intros context context' H0; simpl.
  - intros H. now simplify_eq.
  - destruct (indent_step op context) as [c1|] eqn:Hstep; [|discriminate].
    apply IH. eapply indent_step_nonnegative; eassumption.
Qed.

(** A run has a result unless an increment overflows. *)
Lemma indent_run_defined ops : forall context,
  0 <= indent_level context ->
  indent_level context + Z.of_nat (length ops) <= INT_MAX ->
  exists context', indent_run ops context = Some context'.
Proof.
  induction ops as [|op ops IH]; intros context H0 Hmax; simpl.
  - eauto.
  - simpl length in Hmax.
    destruct op; simpl.
    + unfold codegen_context_increment_indent.
      destruct (Z.ltb_spec (indent_level context) INT_MAX); [|lia].
      apply IH; simpl; lia.
    + apply IH.
      * eapply (indent_step_nonnegative Decrement); [exact H0|reflexivity].
      * unfold codegen_context_decrement_indent.
        destruct (Z.gtb_spec (indent_level context) 0); simpl; lia.
Qed.

Lemma indent_run_app ops1 : forall ops2 context,
  indent_run (ops1 ++ ops2) context
  = match indent_run ops1 context with
    | Some context' => indent_run ops2 context'
    | None => None
    end.
Proof.
  induction ops1 as [|op ops1 IH]; intros ops2 context; simpl; [reflexivity|].
  destruct (indent_step op context); [apply IH|reflexivity].
Qed.

(** A run has a result as long as it makes no more than [INT_MAX]
    increments, and the level is then at least 0. *)
Lemma indent_run_bounded ops : forall context,
  0 <= indent_level context ->
  indent_level context + Z.of_nat (increments ops) <= INT_MAX ->
  exists context',
    indent_run ops context = Some context' /\ 0 <= indent_level context'.
Proof.
  induction ops as [|op ops IH]; intros context H0 Hmax; simpl.
  - eauto.
  - destruct op; simpl in *.
    + unfold codegen_context_increment_indent.
      destruct (Z.ltb_spec (indent_level context) INT_MAX); [|lia].
      apply IH; simpl; lia.
    + apply IH.
      * eapply (indent_step_nonnegative Decrement); [exact H0|reflexivity].
      * unfold codegen_context_decrement_indent.
        destruct (Z.gtb_spec (indent_level context) 0); simpl; lia.
Qed.

Lemma increments_run n : forall context,
  indent_level context + Z.of_nat n <= INT_MAX ->
  indent_run (repeat Increment n) context
  = Some (codegen_context_set_indent_level context
            (indent_level context + Z.of_nat n)).
Proof.
  induction n as [|n IH]; intros context Hmax.
  - simpl. destruct context. unfold codegen_context_set_indent_level.
    simpl. do 2 f_equal. lia.
  - change (repeat Increment (S n)) with (Increment :: repeat Increment n).
    cbn [indent_run indent_step].
    unfold codegen_context_increment_indent.
    destruct (Z.ltb_spec (indent_level context) INT_MAX); [|lia].
    rewrite IH by (simpl; lia).
    destruct context. unfold codegen_context_set_indent_level. simpl.
    do 2 f_equal. lia.
Qed.

Lemma increment_past_INT_MAX n context :
  indent_level context + Z.of_nat n = INT_MAX ->
  indent_run (repeat Increment n ++ [Increment]) context = None.
Proof.
  intros Hn. rewrite indent_run_app, increments_run by lia.
  cbn [indent_run indent_step]. unfold codegen_context_increment_indent.
  cbn [indent_level codegen_context_set_indent_level].
  destruct (Z.ltb_spec (indent_level context + Z.of_nat n) INT_MAX);
    [lia|reflexivity].
Qed.

(** C10 as stated fails: one increment more than [INT_MAX] from a new
    context overflows the [int], and the run has no level that C
    defines. *)
Lemma indent_level_overflows :
  ~ (forall ops,
       exists context',
         indent_run ops (mkContext 1%nat 2%nat None None 0 false None)
         = Some context'
         /\ 0 <= indent_level context').
Proof.
  intros H.
  destruct (H (repeat Increment (Z.to_nat INT_MAX) ++ [Increment]))
    as (context' & Hrun & _).
  rewrite increment_past_INT_MAX in Hrun; [discriminate Hrun|].
  cbn [indent_level]. rewrite Z2Nat.id; [reflexivity|].
  unfold INT_MAX. lia.
Qed.

(** C10 (as amended): the indentation level is never negative as long as
    the [int] does not overflow. It is 0 in the context
    [codegen_context_create] returns, [codegen_context_increment_indent]
    adds one, [codegen_context_decrement_indent] at level 0 changes
    nothing, and every run of increments and decrements from a new context
    that makes no more than [INT_MAX] increments has a result, at a level
    of at least 0; whatever run has a result ends at a level of at least
    0. *)
Theorem indent_level_never_negative malloc_ok arena arena_state diagnostics
    type_context context arena_state' ops :
  codegen_context_create sizeof_CodegenContext malloc_ok arena arena_state
    diagnostics type_context = (Some context, arena_state') ->
  Z.of_nat (increments ops) <= INT_MAX ->
  indent_level context = 0
  /\ (forall c c', codegen_context_increment_indent c = Some c' ->
        indent_level c' = indent_level c + 1)
  /\ (forall c, indent_level c = 0 -> codegen_context_decrement_indent c = c)
  /\ (exists context',
        indent_run ops context = Some context'
        /\ 0 <= indent_level context')
  /\ (forall ops' context', indent_run ops' context = Some context' ->
        0 <= indent_level context').
Proof.
  intros Hcreate Hbound. apply create_initial in Hcreate. subst context.
  split; [reflexivity|].
  split; [apply increment_adds_one|].
  split; [apply decrement_at_zero|].
  split.
  - apply indent_run_bounded; simpl; lia.
  - intros ops' context'. apply indent_run_nonnegative. simpl. lia.
Qed.

End ContextFacts.

Lemma indent_level_never_negative_witness :
  exists context',
    Context.indent_run
      [Context.Decrement; Context.Increment; Context.Decrement;
       Context.Decrement]
      (Context.mkContext 1%nat 2%nat None None 0 false None) = Some context'
    /\ 0 <= Context.indent_level context'.
Proof.
  refine (proj1 (proj2 (proj2 (proj2
    (indent_level_never_negative 64 true 1%nat
       (Arena.mkArena [] (Arena.mkBlock 1024 0) [] 0 0 1024) 2%nat None
       (Context.mkContext 1%nat 2%nat None None 0 false None)
       (Arena.mkArena [] (Arena.mkBlock 1024 64) [] 64 1 1024)
       [Context.Decrement; Context.Increment; Context.Decrement;
        Context.Decrement]
       eq_refl _))))).
  vm_compute. discriminate.
Defined.

(** ** Call lowering *)

Section CallFacts.

Import Context Ast Calls.
Local Open Scope string_scope.
Local Open Scope gen_scope.

Lemma append_assoc (a b c : string) : (a ++ b) ++ c = a ++ (b ++ c).
Proof. induction a as [|x a IH]; simpl; [reflexivity|now rewrite IH]. Qed.

Lemma append_nil_r (a : string) : a ++ "" = a.
Proof. induction a as [|x a IH]; simpl; [reflexivity|now rewrite IH]. Qed.

Lemma fprintf_on_stream text context file :
  fprintf text (on_stream context file) = on_stream context (file ++ text).
Proof. reflexivity. Qed.

Lemma on_stream_twice context file file' :
  on_stream (on_stream context file) file' = on_stream context file'.
Proof. reflexivity. Qed.

Lemma fprintf_append a b context :
  fprintf (a ++ b) context = fprintf b (fprintf a context).
Proof.
  destruct context as [ar di ty [file|] il inf td]; unfold fprintf; simpl;
    [now rewrite append_assoc|reflexivity].
Qed.

(** *** Routines built from [emit], sequencing and the expression generator *)

Section Closed.

Variable gen : AstNode -> Gen.
Variable P : Gen -> Prop.
Hypothesis P_emit : forall text, P (emit text).
Hypothesis P_done : P (fun context => (true, context)).
Hypothesis P_fail : P (fun context => (false, context)).
Hypothesis P_then : forall m k, P m -> P k -> P (m ;; k).
Hypothesis P_gen : forall node, P (gen node).

Ltac compose :=
  repeat lazymatch goal with
  | |- P (if ?b then _ else _) => destruct b
  | |- P (and_then _ _) => apply P_then
  | |- P (emit _) => apply P_emit
  | |- P (gen _) => apply P_gen
  | |- P (fun context => (true, context)) => exact P_done
  end.

Lemma generate_arguments_closed args : forall i,
  P (generate_arguments gen i args).
Proof.
  induction args as [|arg rest IH]; intros i; simpl; compose. apply IH.
Qed.

Lemma generate_strcats_closed args : P (generate_strcats gen args).
Proof. induction args as [|arg rest IH]; simpl; compose. exact IH. Qed.

Lemma regular_call_closed callee args : P (regular_call gen callee args).
Proof. unfold regular_call. compose. apply generate_arguments_closed. Qed.

(** Whatever holds of [emit], of success and of the expression generator,
    and is kept by sequencing, holds of the generation of a call node. *)
Lemma call_node_closed callee args :
  P (codegen_generate_call gen (Call callee args)).
Proof.
  unfold codegen_generate_call.
  pose proof (regular_call_closed callee args) as Hregular.
  pose proof (generate_arguments_closed args 0) as Hargs.
  pose proof (generate_strcats_closed args) as Hcats.
  destruct callee; try exact Hregular.
  cbv zeta beta. unfold around2.
  repeat lazymatch goal with
  | |- P (if ?b then _ else _) => destruct b
  | |- P (and_then _ _) => apply P_then
  | |- P (emit _) => apply P_emit
  | |- P (gen _) => apply P_gen
  | |- P (regular_call _ _ _) => exact Hregular
  | |- P (generate_arguments _ _ _) => exact Hargs
  | |- P (generate_strcats _ _) => exact Hcats
  end.
Qed.

(** If it holds of failure too, it holds on every node. *)
Lemma codegen_generate_call_closed node : P (codegen_generate_call gen node).
Proof.
  destruct node; try exact P_fail. apply call_node_closed.
Qed.

End Closed.

(** *** Reading the stream is impossible: the closure instances *)

Lemma blind_emit text : stream_blind (emit text).
Proof. intros context. now exists true, text, context. Qed.

Lemma blind_done : stream_blind (fun context => (true, context)).
Proof.
  intros context. exists true, "", context. intros file.
  now rewrite append_nil_r.
Qed.

Lemma blind_fail : stream_blind (fun context => (false, context)).
Proof.
  intros context. exists false, "", context. intros file.
  now rewrite append_nil_r.
Qed.

Lemma blind_then m k : stream_blind m -> stream_blind k -> stream_blind (m ;; k).
Proof.
  intros Hm Hk context.
  destruct (Hm context) as (ok1 & t1 & c1 & H1).
  destruct ok1.
  - destruct (Hk c1) as (ok2 & t2 & c2 & H2).
    exists ok2, (t1 ++ t2), c2. intros file.
    unfold and_then. rewrite H1, H2. now rewrite append_assoc.
  - exists false, t1, c1. intros file. unfold and_then. now rewrite H1.
Qed.

Lemma append_only_emit text : append_only (emit text).
Proof.
  intros context file ok context' Hout H. unfold emit in H. simplify_eq.
  exists text. unfold fprintf. simpl. now rewrite Hout.
Qed.

Lemma append_only_done : append_only (fun context => (true, context)).
Proof.
  intros context file ok context' Hout H. simplify_eq.
  exists "". now rewrite append_nil_r.
Qed.

Lemma append_only_fail : append_only (fun context => (false, context)).
Proof.
  intros context file ok context' Hout H. simplify_eq.
  exists "". now rewrite append_nil_r.
Qed.

Lemma append_only_then m k :
  append_only m -> append_only k -> append_only (m ;; k).
Proof.
  intros Hm Hk context file ok context' Hout H. unfold and_then in H.
  destruct (m context) as [ok1 c1] eqn:H1.
  destruct (Hm context file ok1 c1 Hout H1) as [t1 Ht1].
  destruct ok1.
  - destruct (Hk c1 (file ++ t1) ok context' Ht1 H) as [t2 Ht2].
    exists (t1 ++ t2). now rewrite <- append_assoc.
  - simplify_eq. now exists t1.
Qed.

Lemma fails_with_emit gen text : fails_with gen (emit text).
Proof. intros context context' H. discriminate H. Qed.

Lemma fails_with_done gen : fails_with gen (fun context => (true, context)).
Proof. intros context context' H. discriminate H. Qed.

Lemma fails_with_then gen m k :
  fails_with gen m -> fails_with gen k -> fails_with gen (m ;; k).
Proof.
  intros Hm Hk context context' H. unfold and_then in H.
  destruct (m context) as [[|] c1] eqn:H1.
  - now apply (Hk c1).
  - simplify_eq. now apply (Hm context).
Qed.

Lemma fails_with_gen gen node : fails_with gen (gen node).
Proof. intros context context' H. eauto. Qed.

(** *** The regular call is the general call of the specification *)

Section Regular.

Variable gen : AstNode -> Gen.

Lemma generate_arguments_comma args : forall i context,
  generate_arguments gen i args context
  = comma_separated gen (i =? 0)%nat args context.
Proof.
  induction args as [|arg rest IH]; intros i context; [reflexivity|].
  simpl. destruct i as [|i]; simpl; unfold and_then; simpl.
  - destruct (gen arg context) as [[|] c']; [apply IH|reflexivity].
  - destruct (gen arg (fprintf ", " context)) as [[|] c'];
      [apply IH|reflexivity].
Qed.

Lemma regular_call_general callee args context :
  regular_call gen callee args context = general_call gen callee args context.
Proof.
  unfold regular_call, general_call, and_then.
  destruct (gen callee context) as [[|] c1]; [|reflexivity]. simpl.
  now rewrite generate_arguments_comma.
Qed.

End Regular.

(** *** Texts *)

Lemma writes_emit text : writes (emit text) text.
Proof. now intros context. Qed.

Lemma writes_then m k a b :
  writes m a -> writes k b -> writes (m ;; k) (a ++ b).
Proof.
  intros Hm Hk context. unfold and_then.
  now rewrite Hm, Hk, fprintf_append.
Qed.

(** The infix lowering writes [(a op b)] around the texts of its
    operands. *)
Lemma infix_lowering_writes gen c_op a b text_a text_b :
  writes (gen a) text_a ->
  writes (gen b) text_b ->
  writes (infix_lowering gen c_op a b)
    ("(" ++ text_a ++ " " ++ c_op ++ " " ++ text_b ++ ")").
Proof.
  intros Ha Hb.
  assert (H : writes (infix_lowering gen c_op a b)
                ("(" ++ text_a ++ (" " ++ c_op ++ " ") ++ text_b ++ ")")).
  { unfold infix_lowering.
    repeat apply writes_then; first [apply writes_emit | assumption]. }
  simpl in H. rewrite append_assoc in H. exact H.
Qed.

(** C1: a call whose callee is the identifier of a built-in arithmetic or
    comparison operator and that has exactly two arguments is lowered to
    the parenthesized infix C expression of the operator ([=] becomes
    [==]): it writes [(a op b)] around the texts of its operands; with one
    argument, [-] is lowered to the unary minus; with any other number of
    arguments the call is emitted as a general call through the callee. *)
Theorem operator_calls_lowered gen op c_op args context :
  c_operator op = Some c_op ->
  codegen_generate_call gen (Call (Identifier op) args) context
  = match args with
    | [a; b] => infix_lowering gen c_op a b context
    | [a] =>
        if String.eqb op "-" then negation_lowering gen a context
        else general_call gen (Identifier op) args context
    | _ => general_call gen (Identifier op) args context
    end
  /\ (forall a b text_a text_b,
        args = [a; b] ->
        writes (gen a) text_a ->
        writes (gen b) text_b ->
        codegen_generate_call gen (Call (Identifier op) args) context
        = (true,
           fprintf ("(" ++ text_a ++ " " ++ c_op ++ " " ++ text_b ++ ")")
             context)).
Proof.
  intros Hop.
  assert (Hdispatch :
    codegen_generate_call gen (Call (Identifier op) args) context
    = match args with
      | [a; b] => infix_lowering gen c_op a b context
      | [a] =>
          if String.eqb op "-" then negation_lowering gen a context
          else general_call gen (Identifier op) args context
      | _ => general_call gen (Identifier op) args context
      end).
  { unfold c_operator in Hop.
    repeat match type of Hop with
    | (if String.eqb ?a ?b then _ else _) = _ =>
        destruct (String.eqb_spec a b) as [->|?]
    end; try discriminate; injection Hop as <-;
    (destruct args as [|a [|b [|c rest]]];
     [ apply regular_call_general
     | first [reflexivity | apply regular_call_general]
     | reflexivity
     | apply regular_call_general ]). }
  split; [exact Hdispatch|].
  intros a b text_a text_b -> Ha Hb. rewrite Hdispatch.
  now apply infix_lowering_writes.
Qed.

(** C8: a call of [autodiff-forward] with exactly two arguments is lowered
    to a statement expression that casts the first argument to a function
    pointer [wrapper_func], builds the [VectorF] [vec_input] of length 1
    that holds the second argument, passes both to
    [compute_gradient_autodiff] and takes element 0 of the gradient with
    [vector_f_get]. *)
Theorem autodiff_forward_lowered gen f x text_f text_x :
  writes (gen f) text_f ->
  writes (gen x) text_x ->
  writes (codegen_generate_call gen (Call (Identifier "autodiff-forward") [f; x]))
    ("({ float (*wrapper_func)(VectorF*) = (float (*)(VectorF*))" ++ text_f
     ++ "; VectorF* vec_input = vector_f_create_from_array(arena, (float[]){"
     ++ text_x
     ++ "}, 1); vector_f_get(compute_gradient_autodiff(arena, wrapper_func, vec_input), 0); })").
Proof.
  intros Hf Hx.
  assert (H : writes
    (emit wrapper_float_VectorF ;; gen f ;; emit "; " ;;
     emit "VectorF* vec_input = vector_f_create_from_array(arena, (float[]){" ;;
     gen x ;; emit "}, 1); " ;;
     emit "vector_f_get(compute_gradient_autodiff(arena, wrapper_func, vec_input), 0); })")
    (wrapper_float_VectorF ++ text_f ++ "; "
     ++ "VectorF* vec_input = vector_f_create_from_array(arena, (float[]){"
     ++ text_x ++ "}, 1); "
     ++ "vector_f_get(compute_gradient_autodiff(arena, wrapper_func, vec_input), 0); })")).
  { repeat apply writes_then; first [apply writes_emit | assumption]. }
  intros context. exact (H context).
Qed.

Lemma autodiff_forward_lowered_witness :
  output (snd (codegen_generate_call
                 (codegen_generate_expression (fun _ => ""))
                 (Call (Identifier "autodiff-forward")
                    [IntegerLiteral 7; IntegerLiteral 3])
                 (context_on "")))
  = Some ("({ float (*wrapper_func)(VectorF*) = (float (*)(VectorF*))7"
          ++ "; VectorF* vec_input = vector_f_create_from_array(arena, (float[]){3"
          ++ "}, 1); vector_f_get(compute_gradient_autodiff(arena, wrapper_func, vec_input), 0); })").
Proof.
  rewrite (autodiff_forward_lowered
             (codegen_generate_expression (fun _ => ""))
             (IntegerLiteral 7) (IntegerLiteral 3) "7" "3"
             (fun context => eq_refl) (fun context => eq_refl)
             (context_on "")).
  reflexivity.
Defined.

Lemma operator_calls_lowered_witness :
  codegen_generate_call (codegen_generate_expression (fun _ => ""))
    (Call (Identifier "=") [IntegerLiteral 1; IntegerLiteral 2])
    (context_on "")
  = infix_lowering (codegen_generate_expression (fun _ => "")) "=="
      (IntegerLiteral 1) (IntegerLiteral 2) (context_on "").
Proof.
  exact (proj1 (operator_calls_lowered
                  (codegen_generate_expression (fun _ => ""))
                  "=" "==" [IntegerLiteral 1; IntegerLiteral 2]
                  (context_on "") eq_refl)).
Defined.

(** What the lowering writes for [(= 1 2)] and for [(- 5)]. *)
Example equality_text :
  codegen_generate_call (codegen_generate_expression (fun _ => ""))
    (Call (Identifier "=") [IntegerLiteral 1; IntegerLiteral 2])
    (context_on "")
  = (true, context_on "(1 == 2)").
Proof. reflexivity. Qed.

Example vector_text :
  codegen_generate_call (codegen_generate_expression (fun _ => ""))
    (Call (Identifier "vector")
       [IntegerLiteral 1; IntegerLiteral 2; IntegerLiteral 3])
    (context_on "")
  = (true,
     context_on "vector_f_create_from_array(arena, (float[]){1, 2, 3}, 3)").
Proof. reflexivity. Qed.

Example string_append_text :
  codegen_generate_call (codegen_generate_expression (fun _ => ""))
    (Call (Identifier "string-append") [IntegerLiteral 1; IntegerLiteral 2])
    (context_on "")
  = (true,
     context_on
       ("({ char buffer[1024] = " ++ dquote ++ dquote
        ++ "; strcat(buffer, 1); strcat(buffer, 2); strdup(buffer); })")).
Proof. reflexivity. Qed.

(** [(+ 1 2 3)] is no intrinsic: the general call starts with the callee,
    which the documented expression generator does not lower. *)
Example ternary_sum_is_general :
  codegen_generate_call (codegen_generate_expression (fun _ => ""))
    (Call (Identifier "+")
       [IntegerLiteral 1; IntegerLiteral 2; IntegerLiteral 3])
    (context_on "")
  = (false, context_on "").
Proof. reflexivity. Qed.

Example negation_text :
  codegen_generate_call (codegen_generate_expression (fun _ => ""))
    (Call (Identifier "-") [IntegerLiteral 5]) (context_on "")
  = (true, context_on "(-5)").
Proof. reflexivity. Qed.

(** *** Failure *)

(** When the first operand of a sum cannot be lowered, the opening
    parenthesis has been written already. *)
Lemma failing_operand gen a b context :
  gen a (fprintf "(" context) = (false, fprintf "(" context) ->
  codegen_generate_call gen (Call (Identifier "+") [a; b]) context
  = (false, fprintf "(" context).
Proof.
  intros H. simpl. unfold around2, and_then, emit. now rewrite H.
Qed.

Lemma sum_of_quote_fails format_f :
  codegen_generate_call (codegen_generate_expression format_f) sum_of_quote
    (context_on "")
  = (false, context_on "(").
Proof. reflexivity. Qed.

(** C2 as stated fails: generating [(+ 'x 1)] fails, and the output holds
    an opening parenthesis that it did not hold before. *)
Lemma partial_output_is_written :
  ~ (forall format_f node context context',
       codegen_generate_call (codegen_generate_expression format_f) node
         context = (false, context') ->
       output context' = output context).
Proof.
  intros H.
  specialize (H (fun _ => "") sum_of_quote (context_on "") (context_on "(")
                (sum_of_quote_fails _)).
  discriminate H.
Qed.

Lemma expression_append_only format_f node :
  append_only (codegen_generate_expression format_f node).
Proof.
  destruct node; simpl;
    first [apply append_only_emit | apply append_only_fail].
Qed.

(** *** What the stream already holds *)

Lemma write_indents_text n : forall context file,
  write_indents n (on_stream context file)
  = on_stream context (file ++ indentation_of n).
Proof.
  induction n as [|n IH]; intros context file; simpl.
  - now rewrite append_nil_r.
  - rewrite fprintf_on_stream, IH. now rewrite append_assoc.
Qed.

Lemma expression_stream_blind format_f node :
  stream_blind (codegen_generate_expression format_f node).
Proof.
  destruct node; simpl; first [apply blind_emit | apply blind_fail].
Qed.

(** X23: what the stream already holds does not matter. Run on the same
    node from contexts that agree on everything but what the stream
    already holds, [codegen_generate_call] returns the same flag, appends
    the same bytes and leaves the same context (as long as the expression
    generator does not read the stream either), and
    [codegen_context_write_indent] appends the same indentation. *)
Theorem appended_bytes_ignore_the_stream gen node context file1 file2 :
  (forall n, stream_blind (gen n)) ->
  (exists ok text context',
     codegen_generate_call gen node (on_stream context file1)
       = (ok, on_stream context' (file1 ++ text))
     /\ codegen_generate_call gen node (on_stream context file2)
       = (ok, on_stream context' (file2 ++ text)))
  /\ (exists text,
       codegen_context_write_indent (on_stream context file1)
         = on_stream context (file1 ++ text)
       /\ codegen_context_write_indent (on_stream context file2)
         = on_stream context (file2 ++ text)).
Proof.
  intros Hgen. split.
  - destruct (codegen_generate_call_closed gen stream_blind blind_emit
                blind_done blind_fail blind_then Hgen node context)
      as (ok & text & context' & H).
    exists ok, text, context'. now rewrite !H.
  - exists (indentation (indent_level context)).
    unfold codegen_context_write_indent. simpl.
    now rewrite !write_indents_text.
Qed.

Lemma appended_bytes_ignore_the_stream_witness :
  exists ok text context',
    codegen_generate_call (codegen_generate_expression (fun _ => ""))
      sum_of_quote (on_stream (context_on "") "")
      = (ok, on_stream context' ("" ++ text))
    /\ codegen_generate_call (codegen_generate_expression (fun _ => ""))
      sum_of_quote (on_stream (context_on "") "int y = ")
      = (ok, on_stream context' ("int y = " ++ text)).
Proof.
  exact (proj1 (appended_bytes_ignore_the_stream
                  (codegen_generate_expression (fun _ => "")) sum_of_quote
                  (context_on "") "" "int y = "
                  (expression_stream_blind _))).
Defined.

End CallFacts.

(** ** The command line driver *)

Section DriverFacts.

Import Driver.
Local Open Scope string_scope.
Local Open Scope list_scope.

(** The option loop stops at the first option that is neither [-v] nor
    [-d], and otherwise hands over the arguments after the options. *)
Lemma parse_options_deciding args : forall verbose_mode debug_mode,
  match deciding_option args with
  | Some arg =>
      parse_options args verbose_mode debug_mode
      = if is_help arg then Help else UnknownOption
  | None =>
      exists verbose_mode' debug_mode',
        parse_options args verbose_mode debug_mode
        = Parsed verbose_mode' debug_mode' (positional args)
  end.
Proof.
  unfold deciding_option.
  induction args as [|arg rest IH]; intros v d; simpl; [eauto|].
  destruct (is_option arg); simpl; [|eauto].
  unfold is_verbose, is_debug, is_help.
  destruct (String.eqb arg "-v" || String.eqb arg "--verbose"); simpl;
    [apply IH|].
  destruct (String.eqb arg "-d" || String.eqb arg "--debug"); simpl;
    [apply IH|].
  reflexivity.
Qed.

Lemma read_file_succeeds world filename :
  bool_decide (is_Some (read_file world filename))
  = bool_decide (is_Some (fopen world filename))
    && read_malloc world && fread_complete world.
Proof.
  unfold read_file.
  destruct (fopen world filename), (read_malloc world),
    (fread_complete world); reflexivity.
Qed.

Lemma arena_create_succeeds m1 m2 capacity :
  bool_decide (is_Some (Arena.arena_create m1 m2 capacity)) = m1 && m2.
Proof. destruct m1, m2; reflexivity. Qed.

(** C4: [main] returns 0 on success (a request for help, or a compilation
    all of whose steps succeed) and 1 on every failure: an unknown option,
    no input file, an input file that cannot be read, a failed creation of
    the arena, the string table, the diagnostics, the lexer, the parser or
    the code generator, a failed parse, a failed generation of the C code,
    or a non-zero result of compiling and executing it. *)
Theorem main_exit_code argv world :
  fst (main argv world) = exit_code argv world
  /\ (fst (main argv world) = 0 \/ fst (main argv world) = 1).
Proof.
  assert (H : fst (main argv world) = exit_code argv world).
  { unfold main, exit_code.
    pose proof (parse_options_deciding (skipn 1 argv) false false) as Hopt.
    destruct (deciding_option (skipn 1 argv)) as [arg|].
    - rewrite Hopt. now destruct (is_help arg).
    - destruct Hopt as (v & d & ->).
      destruct (positional (skipn 1 argv)) as [|input_file rest];
        [reflexivity|].
      unfold all_succeed.
      rewrite read_file_succeeds, arena_create_succeeds.
      destruct (bool_decide (is_Some (fopen world input_file)));
        [|reflexivity].
      destruct (read_malloc world); [|reflexivity].
      destruct (fread_complete world); [|reflexivity].
      destruct (arena_mallocs world) as [[|] [|]]; try reflexivity.
      destruct (string_table_create world); [|reflexivity].
      destruct (diagnostic_context_create world); [|reflexivity].
      destruct (lexer_create world); [|reflexivity].
      destruct (parser_create world); [|reflexivity].
      destruct (parser_parse_program world); [|reflexivity].
      destruct (codegen_context_create world); [|reflexivity].
      destruct (head rest) as [output_file|]; simpl;
        (destruct (codegen_generate world); [|reflexivity]);
        [reflexivity|].
      simpl. now destruct (codegen_compile_and_execute world =? 0)%Z. }
  split; [exact H|]. rewrite H. unfold exit_code.
  repeat case_match; auto.
Qed.

Example help_exits_0 world :
  main ["eshkol"; "-v"; "--help"; "-x"] world = (0, []).
Proof. reflexivity. Qed.

Example unknown_option_exits_1 world :
  main ["eshkol"; "-x"; "--help"] world = (1, []).
Proof. reflexivity. Qed.

Example no_input_exits_1 world : main ["eshkol"; "-d"] world = (1, []).
Proof. reflexivity. Qed.

Example failed_parse_exits_1 :
  main ["eshkol"; "a.esk"]
    (mkWorld (fun _ => Some "(") true true (true, true) true true true true
       false true true 0)
  = (1, [ReadFile "a.esk"; ArenaCreate; StringTableCreate;
         DiagnosticContextCreate; LexerCreate; ParserCreate;
         ParserParseProgram; ArenaDestroy]).
Proof. reflexivity. Qed.

Example host_compiler_failure_exits_1 :
  fst (main ["eshkol"; "a.esk"]
         (mkWorld (fun _ => Some "(display 1)") true true (true, true) true
            true true true true true true 2))
  = 1.
Proof. reflexivity. Qed.

(** No call of [main] belongs to the binding resolver or to the type
    inferencer. *)
Lemma no_resolver_no_inferencer trace :
  ~ In StageBindingResolver (stages trace)
  /\ ~ In StageTypeInferencer (stages trace).
Proof.
  unfold stages. split; intros H; apply list_elem_of_In in H;
    apply list_elem_of_omap in H as (step & _ & Hstep);
    destruct step; discriminate.
Qed.

(** C3 as stated fails: a compilation that succeeds runs the lexer, the
    parser and the code generator, and neither a binding resolver nor a
    type inferencer; the code generator is created without a type
    context. *)
Lemma compilation_without_inference :
  main compile_to_c willing_world
  = (0, [ReadFile "a.esk"; ArenaCreate; StringTableCreate;
         DiagnosticContextCreate; LexerCreate; ParserCreate;
         ParserParseProgram; CodegenContextCreate None;
         CodegenGenerate "a.c"; ArenaDestroy])
  /\ stages (snd (main compile_to_c willing_world))
    = [StageLexer; StageParser; StageParser; StageCodeGenerator;
       StageCodeGenerator].
Proof. split; reflexivity. Qed.

(** A run that stopped before code generation generated no code. *)
Ltac stopped :=
  let file := fresh "file" in
  let Hin := fresh "Hin" in
  intros [file Hin]; exfalso; simpl in Hin; intuition discriminate.

(** C3 (as amended): in every run of [main] that generates code, the calls
    before code generation are, in this order, those that read the file and
    create the arena, the string table, the diagnostics, the lexer and the
    parser, the parse, which succeeded, and the creation of the code
    generator's context, which [main] hands no type context; no binding
    resolver and no type inferencer runs. [codegen_context_create] keeps
    the type context it is given, null or not, for the generator to
    query. *)
Theorem driver_pipeline sizeof_CodegenContext argv world :
  generates_code (snd (main argv world)) ->
  (exists input_file rest,
     snd (main argv world)
     = [ReadFile input_file; ArenaCreate; StringTableCreate;
        DiagnosticContextCreate; LexerCreate; ParserCreate;
        ParserParseProgram; CodegenContextCreate None] ++ rest)
  /\ parser_parse_program world = true
  /\ ~ In StageBindingResolver (stages (snd (main argv world)))
  /\ ~ In StageTypeInferencer (stages (snd (main argv world)))
  /\ (forall malloc_ok arena arena_state diagnostics type_context context
            arena_state',
        Context.codegen_context_create sizeof_CodegenContext malloc_ok arena
          arena_state diagnostics type_context = (Some context, arena_state')
        -> Context.codegen_context_get_type_context context = type_context).
Proof.
  intros Hgen.
  assert (Hrun :
    (exists input_file rest,
       snd (main argv world)
       = [ReadFile input_file; ArenaCreate; StringTableCreate;
          DiagnosticContextCreate; LexerCreate; ParserCreate;
          ParserParseProgram; CodegenContextCreate None] ++ rest)
    /\ parser_parse_program world = true).
  { revert Hgen. unfold generates_code, main.
    destruct (parse_options (skipn 1 argv) false false)
      as [| |v d [|input_file rest]]; simpl;
      try (intros [file []]).
    destruct (bool_decide (is_Some (read_file world input_file))); simpl;
      [|stopped].
    destruct (bool_decide (is_Some (Arena.arena_create _ _ _))); simpl;
      [|stopped].
    destruct (string_table_create world); simpl; [|stopped].
    destruct (diagnostic_context_create world); simpl; [|stopped].
    destruct (lexer_create world); simpl; [|stopped].
    destruct (parser_create world); simpl; [|stopped].
    destruct (parser_parse_program world); simpl; [|stopped].
    destruct (codegen_context_create world); simpl; [|stopped].
    intros _. split; [|reflexivity].
    exists input_file.
    destruct (head rest), (codegen_generate world); simpl; eauto.
    destruct (codegen_compile_and_execute world =? 0)%Z; simpl; eauto. }
  destruct Hrun as [Htrace Hparse].
  split; [exact Htrace|]. split; [exact Hparse|].
  split; [apply no_resolver_no_inferencer|].
  split; [apply no_resolver_no_inferencer|].
  intros malloc_ok arena arena_state diagnostics type_context context
    arena_state' Hcreate.
  apply create_initial in Hcreate. now subst context.
Qed.

Lemma driver_pipeline_witness :
  exists input_file rest,
    snd (main compile_to_c willing_world)
    = [ReadFile input_file; ArenaCreate; StringTableCreate;
       DiagnosticContextCreate; LexerCreate; ParserCreate;
       ParserParseProgram; CodegenContextCreate None] ++ rest.
Proof.
  refine (proj1 (driver_pipeline 64 compile_to_c willing_world _)).
  exists "a.c". simpl. tauto.
Defined.

End DriverFacts.

(** * Further properties of the arena *)

Section ArenaRuns.

Import Arena.

Lemma align8_aligned size :
  in_size_t (align8 size) /\ align8 size mod 8 = 0.
Proof.
  unfold align8. rewrite land_not7 by apply wrap64_range.
  pose proof (wrap64_range (size + 7)) as Hr. unfold in_size_t in *.
  pose proof (Z.div_mod (wrap64 (size + 7)) 8 ltac:(lia)).
  pose proof (Z.mod_pos_bound (wrap64 (size + 7)) 8 ltac:(lia)).
  split; [lia|]. rewrite Z.mul_comm. apply Z.mod_mul. lia.
Qed.

Lemma wrap64_mod8 z : wrap64 z mod 8 = z mod 8.
Proof.
  unfold wrap64. apply Z.mod_mod_divide.
  exists (2 ^ 61). reflexivity.
Qed.

(** The three outcomes of [arena_alloc]: nothing happens, the current block
    takes the bytes, or a new block is linked behind it. *)
Lemma arena_alloc_outcomes malloc_ok a size :
  let s := align8 size in
  (arena_alloc malloc_ok a size = (None, a))
  \/ (wrap64 (used (current a) + s) <= Arena.size (current a)
      /\ arena_alloc malloc_ok a size
         = (Some (length (earlier a), used (current a)),
            mkArena (earlier a)
              (mkBlock (Arena.size (current a))
                 (wrap64 (used (current a) + s)))
              (later a) (wrap64 (total_used a + s))
              (wrap64 (allocation_count a + 1)) (min_block_size a)))
  \/ (exists new_size,
        s <= new_size /\ in_size_t new_size
        /\ Arena.size (current a) < wrap64 (used (current a) + s)
        /\ arena_alloc malloc_ok a size
           = (Some (length (live_blocks a), 0),
              mkArena (live_blocks a) (mkBlock new_size s) []
                (wrap64 (total_used a + s))
                (wrap64 (allocation_count a + 1)) (min_block_size a))).
Proof.
  intros s. unfold arena_alloc. fold s.
  destruct (size =? 0); [now left|].
  destruct (Z.gtb_spec (wrap64 (used (current a) + s))
              (Arena.size (current a))) as [Hgt|Hle].
  - destruct malloc_ok; simpl; [|now left].
    right. right.
    destruct (align8_aligned size) as [Hs _]. fold s in Hs.
    exists (if wrap64 (Arena.size (current a) * 2) <? s then s
            else wrap64 (Arena.size (current a) * 2)).
    pose proof (wrap64_range (Arena.size (current a) * 2)) as Hw.
    unfold in_size_t in *.
    repeat split.
    + destruct (Z.ltb_spec (wrap64 (Arena.size (current a) * 2)) s); lia.
    + destruct (Z.ltb_spec (wrap64 (Arena.size (current a) * 2)) s); lia.
    + destruct (Z.ltb_spec (wrap64 (Arena.size (current a) * 2)) s); lia.
    + lia.
    + unfold live_blocks.
      now rewrite Z.add_0_l, (wrap64_small s) by exact Hs.
  - right. left. split; [lia|reflexivity].
Qed.

(** X1: whatever is asked for, [arena_alloc] keeps every block within its
    size and the total within [size_t]. *)
Theorem arena_alloc_keeps_blocks_within_size malloc_ok a size :
  chain_ok a -> chain_ok (snd (arena_alloc malloc_ok a size)).
Proof.
  intros [Hblocks Htotal].
  pose proof Hblocks as Hall.
  unfold live_blocks in Hblocks.
  apply Forall_app in Hblocks as [Hearlier Hcurrent].
  apply Forall_inv in Hcurrent.
  destruct (arena_alloc_outcomes malloc_ok a size)
    as [-> | [[Hroom ->] | (new_size & Hs & Hnew & _ & ->)]]; simpl.
  - split; assumption.
  - split; [|apply wrap64_range].
    unfold live_blocks. simpl. apply Forall_app. split; [exact Hearlier|].
    constructor; [|constructor]. destruct Hcurrent as [Hsize _].
    split; [exact Hsize|]. simpl.
    pose proof (wrap64_range (used (current a) + align8 size)) as Hw.
    unfold in_size_t in Hw. lia.
  - split; [|apply wrap64_range].
    unfold live_blocks at 1. simpl. apply Forall_app. split; [exact Hall|].
    constructor; [|constructor]. split; [exact Hnew|]. simpl.
    destruct (align8_aligned size) as [Ha _]. unfold in_size_t in Ha. lia.
Qed.

Lemma arena_alloc_keeps_blocks_within_size_witness :
  chain_ok (snd (arena_alloc true
                   (mkArena [] (mkBlock 1024 1020) [] 1020 3 1024)
                   SIZE_MAX)).
Proof.
  apply arena_alloc_keeps_blocks_within_size.
  split; [|vm_compute; intuition discriminate].
  constructor; [|constructor]. vm_compute. intuition discriminate.
Defined.

(** *** Alignment *)

Lemma arena_alloc_aligned malloc_ok a size p a' :
  used (current a) mod 8 = 0 ->
  arena_alloc malloc_ok a size = (p, a') ->
  used (current a') mod 8 = 0
  /\ (forall i o, p = Some (i, o) -> o mod 8 = 0).
Proof.
  intros Hal Halloc.
  destruct (align8_aligned size) as [_ Hs].
  destruct (arena_alloc_outcomes malloc_ok a size)
    as [H | [[_ H] | (new_size & _ & _ & _ & H)]];
    rewrite H in Halloc; simplify_eq; simpl.
  - split; [exact Hal|discriminate].
  - split.
    + rewrite wrap64_mod8, Z.add_mod, Hal, Hs by lia. reflexivity.
    + intros i o Heq. now simplify_eq.
  - split; [exact Hs|]. intros i o Heq. now simplify_eq.
Qed.

Lemma arena_allocs_aligned requests : forall a results a',
  used (current a) mod 8 = 0 ->
  arena_allocs requests a = (results, a') ->
  Forall (fun p => forall i o, p = Some (i, o) -> o mod 8 = 0) results.
Proof.
  induction requests as [|[malloc_ok size] rest IH];
    intros a results a' Hal Hrun; simpl in Hrun.
  - simplify_eq. constructor.
  - destruct (arena_alloc malloc_ok a size) as [p a1] eqn:Halloc.
    destruct (arena_allocs rest a1) as [ps a2] eqn:Hrest. simplify_eq.
    destruct (arena_alloc_aligned _ _ _ _ _ Hal Halloc) as [Hal1 Hp].
    constructor; [exact Hp|]. eapply IH; eassumption.
Qed.

(** X2: every pointer that [arena_alloc] returns on an arena made by
    [arena_create] is aligned to 8 bytes within its block, whatever sizes
    were asked for before. *)
Theorem arena_pointers_are_aligned m1 m2 capacity a requests results a' :
  arena_create m1 m2 capacity = Some a ->
  arena_allocs requests a = (results, a') ->
  Forall (fun p => forall i o, p = Some (i, o) -> o mod 8 = 0) results.
Proof.
  intros Hcreate. apply arena_allocs_aligned.
  unfold arena_create in Hcreate.
  destruct m1, m2; simpl in Hcreate; now simplify_eq.
Qed.

Lemma arena_pointers_are_aligned_witness :
  Forall (fun p => forall i o, p = Some (i, o) -> o mod 8 = 0)
    (fst (arena_allocs [(true, 3); (true, 2000); (false, 5); (true, 1)]
            (mkArena [] (mkBlock 1024 0) [] 0 0 1024))).
Proof.
  exact (arena_pointers_are_aligned true true 1024 _
           [(true, 3); (true, 2000); (false, 5); (true, 1)] _ _
           eq_refl eq_refl).
Defined.

(** *** Accounting *)

Lemma sum_used_app (l1 l2 : list Block) :
  foldr (fun b acc => used b + acc) 0 (l1 ++ l2)
  = foldr (fun b acc => used b + acc) 0 l1
    + foldr (fun b acc => used b + acc) 0 l2.
Proof.
  induction l1 as [|b l1 IH]; simpl; [reflexivity|]. rewrite IH. lia.
Qed.

Lemma used_sum_split a :
  used_sum a
  = foldr (fun b acc => used b + acc) 0 (earlier a) + used (current a).
Proof.
  unfold used_sum, live_blocks. rewrite sum_used_app. simpl. lia.
Qed.

Lemma wrap64_add_l a b : wrap64 (wrap64 a + b) = wrap64 (a + b).
Proof. unfold wrap64. apply Z.add_mod_idemp_l. lia. Qed.

Lemma wrap64_add_r a b : wrap64 (a + wrap64 b) = wrap64 (a + b).
Proof. unfold wrap64. apply Z.add_mod_idemp_r. lia. Qed.

Lemma arena_alloc_accounts malloc_ok a size p a' :
  total_used a = wrap64 (used_sum a) ->
  arena_alloc malloc_ok a size = (p, a') ->
  total_used a' = wrap64 (used_sum a')
  /\ allocation_count a'
     = match p with
       | Some _ => wrap64 (allocation_count a + 1)
       | None => allocation_count a
       end.
Proof.
  intros Htotal Halloc.
  destruct (arena_alloc_outcomes malloc_ok a size)
    as [H | [[_ H] | (new_size & _ & _ & _ & H)]];
    rewrite H in Halloc; simplify_eq; simpl.
  - now split.
  - split; [|reflexivity].
    rewrite Htotal, !used_sum_split. simpl.
    rewrite wrap64_add_l, wrap64_add_r. f_equal. lia.
  - split; [|reflexivity].
    rewrite Htotal, (used_sum_split (mkArena _ _ _ _ _ _)). simpl.
    rewrite wrap64_add_l. fold (used_sum a). reflexivity.
Qed.

Lemma arena_allocs_account requests : forall a results a',
  total_used a = wrap64 (used_sum a) ->
  in_size_t (allocation_count a) ->
  arena_allocs requests a = (results, a') ->
  total_used a' = wrap64 (used_sum a')
  /\ allocation_count a'
     = wrap64 (allocation_count a + Z.of_nat (length (omap id results))).
Proof.
  induction requests as [|[malloc_ok size] rest IH];
    intros a results a' Htotal Hcount Hrun; simpl in Hrun.
  - simplify_eq. split; [exact Htotal|].
    simpl. rewrite Z.add_0_r. symmetry. now apply wrap64_small.
  - destruct (arena_alloc malloc_ok a size) as [p a1] eqn:Halloc.
    destruct (arena_allocs rest a1) as [ps a2] eqn:Hrest. simplify_eq.
    destruct (arena_alloc_accounts _ _ _ _ _ Htotal Halloc) as [Ht1 Hc1].
    assert (Hin1 : in_size_t (allocation_count a1))
      by (rewrite Hc1; destruct p; [apply wrap64_range|exact Hcount]).
    destruct (IH a1 ps a' Ht1 Hin1 Hrest) as [Ht2 Hc2].
    split; [exact Ht2|]. rewrite Hc2, Hc1.
    destruct p as [ptr|].
    + change (omap id (Some ptr :: ps)) with (ptr :: omap id ps).
      rewrite wrap64_add_l. f_equal. simpl length. lia.
    + reflexivity.
Qed.

(** X3: on an arena made by [arena_create], after any calls of
    [arena_alloc], [total_used] is the sum of the [used] counts of the
    blocks and [allocation_count] the number of calls that returned a
    pointer, both modulo [2^64]. *)
Theorem arena_counters_track_the_blocks m1 m2 capacity a requests results a' :
  arena_create m1 m2 capacity = Some a ->
  arena_allocs requests a = (results, a') ->
  total_used a' = wrap64 (used_sum a')
  /\ allocation_count a' = wrap64 (Z.of_nat (length (omap id results))).
Proof.
  intros Hcreate Hrun.
  assert (Ha : a = mkArena [] (mkBlock (if capacity >? 1024 then capacity
                                        else 1024) 0) [] 0 0 1024).
  { unfold arena_create in Hcreate.
    destruct m1, m2; simpl in Hcreate; now simplify_eq. }
  subst a.
  eapply arena_allocs_account in Hrun as [Htotal Hcount];
    [|reflexivity|simpl; unfold in_size_t, SIZE_MAX; lia].
  split; [exact Htotal|]. rewrite Hcount. simpl allocation_count.
  now rewrite Z.add_0_l.
Qed.

Lemma arena_counters_track_the_blocks_witness :
  let a' := snd (arena_allocs [(true, 3); (true, 2000); (false, 5000)]
                   (mkArena [] (mkBlock 1024 0) [] 0 0 1024)) in
  total_used a' = wrap64 (used_sum a') /\ allocation_count a' = wrap64 2.
Proof.
  exact (arena_counters_track_the_blocks true true 1024 _
           [(true, 3); (true, 2000); (false, 5000)] _ _ eq_refl eq_refl).
Defined.

(** *** Regions *)

Lemma arena_alloc_keeps_ok malloc_ok a size :
  arena_ok a -> 0 < size -> no_wrap a size ->
  arena_ok (snd (arena_alloc malloc_ok a size)).
Proof.
  intros Hok Hpos Hnw.
  rewrite (arena_alloc_no_wrap malloc_ok a size Hok Hpos Hnw).
  destruct Hok as [[Hsz Hus] Htot]. destruct Hnw as (H7 & Hur & H2 & Htr).
  pose proof (round_up8_bounds size) as [_ Hr].
  unfold arena_ok, block_ok, in_size_t in *. cbv zeta.
  destruct (Z.gtb_spec (used (current a) + round_up8 size)
              (Arena.size (current a))); [destruct malloc_ok|]; simpl; lia.
Qed.

(** The sizes of the blocks up to [current] never change. *)
Lemma arena_alloc_keeps_sizes malloc_ok a size i b :
  live_blocks a !! i = Some b ->
  exists b', live_blocks (snd (arena_alloc malloc_ok a size)) !! i = Some b'
             /\ Arena.size b' = Arena.size b.
Proof.
  intros Hi.
  destruct (arena_alloc_outcomes malloc_ok a size)
    as [-> | [[_ ->] | (new_size & _ & _ & _ & ->)]]; simpl.
  - eauto.
  - unfold live_blocks in *. simpl.
    destruct (decide (i < length (earlier a))%nat) as [Hlt|Hge].
    + rewrite lookup_app_l in * by exact Hlt. eauto.
    + rewrite lookup_app_r in * by lia.
      destruct (i - length (earlier a))%nat; simpl in *; [|discriminate].
      simplify_eq. eauto.
  - unfold live_blocks at 1. simpl.
    rewrite lookup_app_l by (eapply lookup_lt_Some; exact Hi). eauto.
Qed.

Lemma arena_allocs_keep_sizes requests : forall a i b,
  live_blocks a !! i = Some b ->
  exists b', live_blocks (snd (arena_allocs requests a)) !! i = Some b'
             /\ Arena.size b' = Arena.size b.
Proof.
  induction requests as [|[malloc_ok size] rest IH]; intros a i b Hi; simpl.
  - eauto.
  - destruct (arena_alloc_keeps_sizes malloc_ok a size i b Hi)
      as (b1 & H1 & Hs1).
    destruct (arena_alloc malloc_ok a size) as [p a1]. simpl in H1.
    destruct (IH a1 i b1 H1) as (b2 & H2 & Hs2).
    destruct (arena_allocs rest a1) as [ps a2]. simpl in *.
    exists b2. split; [exact H2|congruence].
Qed.

Section Regions.

(** [sizeof(Block)] *)
Variable header_size : Z.
Hypothesis header_size_nonnegative : 0 <= header_size.

Lemma data_area_size b :
  in_size_t (Arena.size b) ->
  header_size + Arena.size b <= SIZE_MAX ->
  data_area header_size b = Arena.size b.
Proof.
  intros Hsize Hfit. unfold data_area, in_size_t in *.
  rewrite wrap64_small by (unfold in_size_t; lia). lia.
Qed.

Lemma arena_allocs_regions requests : forall a,
  arena_ok a ->
  header_size + Arena.size (current a) <= SIZE_MAX ->
  run_no_wrap header_size requests a ->
  let results := fst (arena_allocs requests a) in
  let a' := snd (arena_allocs requests a) in
  Forall (behind a) (regions requests results)
  /\ Forall (inside header_size a') (regions requests results)
  /\ ForallOrdPairs disjoint (regions requests results).
Proof.
  induction requests as [|[malloc_ok size] rest IH]; intros a Hok Hfit Hrun.
  - simpl. repeat split; constructor.
  - destruct Hrun as (Hpos & Hnw & Hheader & Hrest).
    pose proof (arena_alloc_keeps_ok malloc_ok a size Hok Hpos Hnw) as Hok1.
    pose proof (arena_alloc_no_wrap malloc_ok a size Hok Hpos Hnw) as Hstep.
    cbv zeta in Hstep.
    assert (Hr : align8 size = round_up8 size)
      by (apply align8_round_up; destruct Hnw; unfold SIZE_MAX in *; lia).
    pose proof (round_up8_bounds size) as [_ Hrb].
    destruct Hok as [[Hsz Hus] Htot].
    simpl.
    destruct (arena_alloc malloc_ok a size) as [p a1] eqn:Halloc.
    simpl in Hrest, Hok1.
    assert (Hfit1 : header_size + Arena.size (current a1) <= SIZE_MAX).
    { destruct (Z.gtb_spec (used (current a) + round_up8 size)
                  (Arena.size (current a))) as [Hgt|Hle];
        [destruct malloc_ok|]; simplify_eq; simpl; auto. }
    specialize (IH a1 Hok1 Hfit1 Hrest). cbv zeta in IH.
    pose proof (arena_allocs_keep_sizes rest a1) as Hkeep.
    destruct (arena_allocs rest a1) as [ps a2] eqn:Hrun. simpl in *.
    destruct IH as (Hbehind & Hinside & Hpairs).
    destruct (Z.gtb_spec (used (current a) + round_up8 size)
                (Arena.size (current a))) as [Hgt|Hle].
    + (* a new block, or no block at all *)
      destruct malloc_ok; simplify_eq.
      * simpl in *. rewrite Hr.
        repeat split.
        -- constructor.
           ++ right. rewrite length_app. simpl. lia.
           ++ eapply Forall_impl; [exact Hbehind|].
              intros [[i o] n]. simpl. rewrite length_app. simpl. lia.
        -- constructor; [|exact Hinside].
           destruct (Hkeep (length (earlier a ++ [current a]))
                       (mkBlock (Z.max (Arena.size (current a) * 2)
                                   (round_up8 size)) (round_up8 size)))
             as (b' & Hb' & Hsize).
           { unfold live_blocks. simpl.
             rewrite lookup_app_r by lia.
             now rewrite Nat.sub_diag. }
           exists b'. split; [exact Hb'|].
           rewrite data_area_size; rewrite Hsize; simpl;
             unfold in_size_t; lia.
        -- constructor; [|exact Hpairs].
           eapply Forall_impl; [exact Hbehind|].
           intros [[i o] n]. simpl. rewrite length_app. simpl. lia.
      * simpl. repeat split; assumption.
    + simplify_eq. simpl in *. rewrite Hr.
      repeat split.
      * constructor; [left; lia|].
        eapply Forall_impl; [exact Hbehind|]. intros [[i o] n]. simpl. lia.
      * constructor; [|exact Hinside].
        destruct (Hkeep (length (earlier a))
                    (mkBlock (Arena.size (current a))
                       (used (current a) + round_up8 size)))
          as (b' & Hb' & Hsize).
        { unfold live_blocks. simpl.
          rewrite lookup_app_r by lia. now rewrite Nat.sub_diag. }
        exists b'. split; [exact Hb'|].
        rewrite data_area_size; rewrite Hsize; simpl;
          unfold in_size_t in *; lia.
      * constructor; [|exact Hpairs].
        eapply Forall_impl; [exact Hbehind|]. intros [[i o] n]. simpl. lia.
Qed.

(** X4: as long as no computation of a run of [arena_alloc] wraps around,
    the argument [header_size + new_block_size] of [malloc] included, the
    regions it hands out lie within the bytes that [malloc] was asked for
    as the data areas of their blocks, and no two of them overlap. *)
Theorem arena_regions_do_not_overlap requests a :
  arena_ok a ->
  header_size + Arena.size (current a) <= SIZE_MAX ->
  run_no_wrap header_size requests a ->
  Forall (inside header_size (snd (arena_allocs requests a)))
    (regions requests (fst (arena_allocs requests a)))
  /\ ForallOrdPairs disjoint
       (regions requests (fst (arena_allocs requests a))).
Proof.
  intros Hok Hfit Hrun.
  destruct (arena_allocs_regions requests a Hok Hfit Hrun)
    as (_ & Hin & Hdis).
  split; assumption.
Qed.

End Regions.

Lemma arena_regions_do_not_overlap_witness :
  Forall
    (inside 24
       (snd (arena_allocs
               [(true, 10); (true, 2000); (false, 4000); (true, 8)]
               (mkArena [] (mkBlock 1024 0) [] 0 0 1024))))
    (regions [(true, 10); (true, 2000); (false, 4000); (true, 8)]
       (fst (arena_allocs [(true, 10); (true, 2000); (false, 4000); (true, 8)]
               (mkArena [] (mkBlock 1024 0) [] 0 0 1024))))
  /\ ForallOrdPairs disjoint
       (regions [(true, 10); (true, 2000); (false, 4000); (true, 8)]
          (fst (arena_allocs
                  [(true, 10); (true, 2000); (false, 4000); (true, 8)]
                  (mkArena [] (mkBlock 1024 0) [] 0 0 1024)))).
Proof.
  apply (arena_regions_do_not_overlap 24).
  - vm_compute. discriminate.
  - vm_compute. intuition discriminate.
  - vm_compute. discriminate.
  - vm_compute. intuition discriminate.
Defined.

(** A request of [SIZE_MAX - 7] bytes needs a block whose [malloc] is asked
    for 16 bytes only: the run is not one without wrap-around. *)
Example huge_request_wraps :
  run_no_wrap 24 [(true, SIZE_MAX - 7)]
    (mkArena [] (mkBlock 1024 0) [] 0 0 1024)
  -> False.
Proof. vm_compute. intuition. Qed.

Example regions_of_a_run :
  regions [(true, 10); (true, 2000); (false, 4000); (true, 8)]
    (fst (arena_allocs [(true, 10); (true, 2000); (false, 4000); (true, 8)]
            (mkArena [] (mkBlock 1024 0) [] 0 0 1024)))
  = [(0%nat, 0, 16); (1%nat, 0, 2000); (1%nat, 2000, 8)].
Proof. reflexivity. Qed.

End ArenaRuns.

(** * Further properties of the binding table *)

Section BindingTableFacts.

Import Binding.

Variable sizeof_StringId sizeof_BindingFlags : Z.

Local Abbreviation create_binding :=
  (binding_system_create_binding sizeof_StringId sizeof_BindingFlags).

Lemma length_memcpy dst src n :
  (Z.to_nat n <= length src)%nat -> (Z.to_nat n <= length dst)%nat ->
  length (memcpy dst src n) = length dst.
Proof.
  intros Hsrc Hdst. unfold memcpy.
  rewrite length_app, length_take, length_drop. lia.
Qed.

Lemma lookup_memcpy dst src n i :
  (i < Z.to_nat n)%nat -> (Z.to_nat n <= length src)%nat ->
  memcpy dst src n !! i = src !! i.
Proof.
  intros Hi Hsrc. unfold memcpy.
  rewrite lookup_app_l by (rewrite length_take; lia).
  now rewrite lookup_take_lt.
Qed.

Lemma lookup_store_eq array i v :
  0 <= i -> (Z.to_nat i < length array)%nat ->
  store array i v !! Z.to_nat i = Some v.
Proof. intros _ Hi. unfold store. now apply list_lookup_insert_eq. Qed.

Lemma lookup_store_ne array i v j :
  (j < Z.to_nat i)%nat -> store array i v !! j = array !! j.
Proof. intros Hj. unfold store. apply list_lookup_insert_ne. lia. Qed.

Lemma length_store array i v : length (store array i v) = length array.
Proof. unfold store. apply length_insert. Qed.

Lemma length_fresh_array n : length (fresh_array n) = Z.to_nat n.
Proof. unfold fresh_array. apply length_replicate. Qed.

(** Adding a binding to a table that has room for it. *)
Lemma append_binding t id scope_id name flags :
  table_ok t -> count t < capacity t ->
  let t' := mkTable (store (binding_ids t) (count t) id)
              (store (scope_ids t) (count t) scope_id)
              (store (names t) (count t) name)
              (store (Binding.flags t) (count t) flags)
              (wrap64 (count t + 1)) (capacity t) in
  table_ok t'
  /\ count t' = count t + 1
  /\ binding_at t' (Z.to_nat (count t)) = Some (id, scope_id, name, flags)
  /\ (forall i, (i < Z.to_nat (count t))%nat ->
        binding_at t' i = binding_at t i).
Proof.
  intros (Hcount & Hcap & H1 & H2 & H3 & H4) Hroom t'.
  assert (Hw : wrap64 (count t + 1) = count t + 1)
    by (apply wrap64_small; unfold in_size_t; lia).
  subst t'. unfold table_ok, binding_at, StringId, BindingFlags in *. simpl.
  rewrite Hw, !length_store.
  repeat split; try assumption; try lia.
  - rewrite !lookup_store_eq by lia. reflexivity.
  - intros i Hi. now rewrite !lookup_store_ne by exact Hi.
Qed.

(** X5: a successful call adds the binding in the first free slot of the
    table, under the id it returns, and leaves the bindings before it as
    they were, whether the table had to grow or not; the table stays in
    order. *)
Theorem created_binding_is_stored mallocs system scope_id name flags id
    system' :
  table_ok (binding_table system) ->
  capacity (binding_table system) * 2 <= SIZE_MAX ->
  create_binding mallocs system scope_id name flags = (Some id, system') ->
  let t := binding_table system in
  let t' := binding_table system' in
  table_ok t'
  /\ count t' = count t + 1
  /\ binding_at t' (Z.to_nat (count t)) = Some (id, scope_id, name, flags)
  /\ (forall i, (i < Z.to_nat (count t))%nat ->
        binding_at t' i = binding_at t i).
Proof.
  intros Hok Hdouble Hcall t t'. subst t t'.
  pose proof Hok as (Hcount & Hcap & H1 & H2 & H3 & H4).
  unfold binding_system_create_binding in Hcall.
  destruct mallocs as [[[m1 m2] m3] m4].
  destruct (Z.geb_spec (count (binding_table system))
              (capacity (binding_table system))) as [Hfull|Hroom].
  - (* the table grows *)
    set (t := binding_table system) in *.
    set (new_capacity :=
           if wrap64 (capacity t * 2) =? 0 then 8
           else wrap64 (capacity t * 2)) in *.
    assert (Hnew : capacity t < new_capacity /\ new_capacity <= SIZE_MAX).
    { subst new_capacity.
      rewrite (wrap64_small (capacity t * 2)) by (unfold in_size_t; lia).
      destruct (Z.eqb_spec (capacity t * 2) 0); unfold SIZE_MAX in *; lia. }
    repeat case_match; simplify_eq. simpl.
    set (grown :=
           mkTable (memcpy (fresh_array new_capacity) (binding_ids t) (count t))
             (memcpy (fresh_array new_capacity) (scope_ids t) (count t))
             (memcpy (fresh_array new_capacity) (names t) (count t))
             (memcpy (fresh_array new_capacity) (Binding.flags t) (count t))
             (count t) new_capacity).
    assert (Hgrown : table_ok grown).
    { subst grown. unfold table_ok, StringId, BindingFlags in *. simpl.
      rewrite !length_memcpy, !length_fresh_array
        by (rewrite ?length_fresh_array; lia).
      repeat split; lia. }
    destruct (append_binding grown (next_binding_id system) scope_id name
                flags Hgrown ltac:(subst grown; simpl; lia))
      as (Hok' & Hc' & Hat & Hbefore).
    split; [exact Hok'|]. split; [exact Hc'|]. split; [exact Hat|].
    intros i Hi. simpl in Hi. etransitivity; [exact (Hbefore i Hi)|].
    subst grown. unfold binding_at, StringId, BindingFlags in *. simpl.
    now rewrite !lookup_memcpy by lia.
  - simplify_eq. simpl.
    now apply append_binding.
Qed.


End BindingTableFacts.

Section BindingTableExamples.

Import Binding.

Lemma created_binding_is_stored_witness :
  binding_at
    (binding_table
       (snd (binding_system_create_binding 8 8 (true, true, true, true)
               full_system 4 5 6)))
    1
  = Some (8, 4, 5, 6)
  /\ binding_at
       (binding_table
          (snd (binding_system_create_binding 8 8 (true, true, true, true)
                  full_system 4 5 6)))
       0
     = Some (7, 0, 3, 1).
Proof.
  destruct (created_binding_is_stored 8 8 (true, true, true, true)
              full_system 4 5 6 8 _
              ltac:(vm_compute; intuition discriminate)
              ltac:(vm_compute; discriminate) eq_refl)
    as (_ & _ & Hat & Hbefore).
  split; [exact Hat|]. exact (Hbefore 0%nat ltac:(vm_compute; lia)).
Defined.


End BindingTableExamples.

(** * Further properties of the lexer *)

Section NumberShape.

Import Lexer.

Variable strtod : string -> double.
Variable strtol : string -> Z -> Z.

Lemma digits_between lexer c c' :
  (forall i, (c <= i < c')%nat -> is_digit (char_at lexer i) = true) ->
  all_digits (map (char_at lexer) (seq c (c' - c))).
Proof.
  intros H. apply List.Forall_forall. intros ch Hin.
  apply in_map_iff in Hin as (i & <- & Hi). apply in_seq in Hi.
  apply H. lia.
Qed.

(** X7: [number] moves the cursor forward only, over the longest run of
    digits and then, if a ['.'] with a digit behind it follows, over that
    ['.'] and the longest run of digits behind it: what it consumes is
    digits, optionally followed by one ['.'] and at least one digit, and it
    stops in front of a byte that is no digit. The text and the start of
    the lexeme stay as they are. *)
Theorem number_consumes_a_decimal lexer :
  let lexer' := snd (number strtod strtol lexer) in
  source lexer' = source lexer
  /\ start lexer' = start lexer
  /\ (current lexer <= current lexer')%nat
  /\ is_digit (peek lexer') = false
  /\ exists whole fraction,
       consumed lexer lexer' = whole ++ fraction
       /\ all_digits whole
       /\ (fraction = []
           \/ exists d ds, fraction = "."%char :: d :: ds
                           /\ all_digits (d :: ds)).
Proof.
  unfold number.
  destruct (skip_digits_spec lexer) as (Hs1 & Hst1 & Hle1 & Hdig1 & Hstop1).
  set (l1 := skip_digits lexer) in *.
  cbn zeta. simpl snd.
  destruct (Ascii.eqb_spec (peek l1) ".") as [Hdot|Hnodot]; simpl;
    [destruct (is_digit (peek_next l1)) eqn:Hnext|].
  - destruct (skip_digits_spec (advance l1))
      as (Hs2 & Hst2 & Hle2 & Hdig2 & Hstop2).
    set (l2 := skip_digits (advance l1)) in *. simpl in *.
    assert (Hafter : is_digit (char_at lexer (S (current l1))) = true).
    { unfold peek_next, is_at_end in Hnext. rewrite Hdot in Hnext.
      simpl in Hnext.
      now rewrite (char_at_same_source lexer l1) by congruence. }
    assert (Hpast : (S (current l1) < current l2)%nat).
    { destruct (Nat.eq_dec (current l2) (S (current l1))) as [Heq|Hne];
        [|lia].
      unfold peek in Hstop2. rewrite Heq in Hstop2.
      rewrite (char_at_same_source l2 lexer) in Hstop2 by congruence.
      congruence. }
    repeat split; try congruence; try lia.
    exists (map (char_at lexer) (seq (current lexer)
                                   (current l1 - current lexer))),
      (map (char_at lexer) (seq (current l1) (current l2 - current l1))).
    repeat split.
    + unfold consumed. rewrite <- map_app. f_equal.
      replace (current l2 - current lexer)%nat
        with ((current l1 - current lexer)
              + (current l2 - current l1))%nat by lia.
      rewrite seq_app. do 2 f_equal. lia.
    + apply digits_between. exact Hdig1.
    + right.
      destruct (current l2 - current l1)%nat as [|[|k]] eqn:Hk; try lia.
      simpl. eexists _, _. split.
      * f_equal. unfold peek in Hdot.
        rewrite (char_at_same_source lexer l1) by congruence. exact Hdot.
      * change (all_digits
                  (map (char_at lexer) (seq (S (current l1)) (S k)))).
        replace (S k) with (current l2 - S (current l1))%nat by lia.
        apply digits_between. intros i Hi.
        rewrite (char_at_same_source lexer (advance l1))
          by (simpl; congruence).
        apply Hdig2. simpl. lia.
  - repeat split; try assumption.
    exists (consumed lexer l1), []. rewrite app_nil_r.
    repeat split; [|now left]. apply digits_between. exact Hdig1.
  - repeat split; try assumption.
    exists (consumed lexer l1), []. rewrite app_nil_r.
    repeat split; [|now left]. apply digits_between. exact Hdig1.
Qed.

Example number_stops_at_second_dot :
  snd (number strtod strtol (mkLexer "1.5.2" 0 0)) = mkLexer "1.5.2" 0 3.
Proof. reflexivity. Qed.

End NumberShape.

(** * Further properties of the code generation context *)

Section IndentationFacts.

Import Context.

Lemma decrement_undoes_increment context context' :
  0 <= indent_level context ->
  codegen_context_increment_indent context = Some context' ->
  codegen_context_decrement_indent context' = context.
Proof.
  unfold codegen_context_increment_indent, codegen_context_decrement_indent.
  intros H0. destruct (indent_level context <? INT_MAX); [|discriminate].
  intros H. simplify_eq. simpl.
  destruct (Z.gtb_spec (indent_level context + 1) 0); [|lia].
  destruct context. unfold codegen_context_set_indent_level. simpl.
  f_equal. lia.
Qed.

Lemma nested_run n : forall context,
  0 <= indent_level context ->
  indent_level context + Z.of_nat n <= INT_MAX ->
  indent_run (repeat Increment n ++ repeat Decrement n) context
  = Some context.
Proof.
  induction n as [|n IH]; intros context H0 Hmax; [reflexivity|].
  change (repeat Decrement (S n)) with (Decrement :: repeat Decrement n).
  rewrite (repeat_cons n Decrement).
  change (repeat Increment (S n) ++ repeat Decrement n ++ [Decrement])
    with (Increment :: (repeat Increment n ++ repeat Decrement n
                        ++ [Decrement])).
  simpl indent_run.
  destruct (codegen_context_increment_indent context) as [c1|] eqn:Hinc.
  - pose proof (increment_adds_one _ _ Hinc) as Hlevel.
    rewrite app_assoc, indent_run_app, IH by lia.
    simpl. f_equal. now apply decrement_undoes_increment.
  - unfold codegen_context_increment_indent in Hinc.
    destruct (Z.ltb_spec (indent_level context) INT_MAX); [discriminate|lia].
Qed.

Lemma decrements_run m : forall context,
  0 <= indent_level context ->
  exists context',
    indent_run (repeat Decrement m) context = Some context'
    /\ indent_level context'
       = Z.max 0 (indent_level context - Z.of_nat m).
Proof.
  induction m as [|m IH]; intros context H0.
  - exists context. split; [reflexivity|]. simpl. lia.
  - simpl.
    destruct (IH (codegen_context_decrement_indent context))
      as (c' & Hrun & Hlevel).
    + unfold codegen_context_decrement_indent.
      destruct (Z.gtb_spec (indent_level context) 0); simpl; lia.
    + exists c'. split; [exact Hrun|]. rewrite Hlevel.
      unfold codegen_context_decrement_indent.
      destruct (Z.gtb_spec (indent_level context) 0); simpl; lia.
Qed.

(** X8: indentation nests. From a level of at least 0, [n] increments
    followed by [n] decrements give back the very context they started
    from (as long as the level stays within [int]), while decrements alone
    stop at level 0: [m] of them from level [l] end at [max 0 (l - m)]. *)
Theorem indentation_nests context n m :
  0 <= indent_level context ->
  indent_level context + Z.of_nat n <= INT_MAX ->
  indent_run (repeat Increment n ++ repeat Decrement n) context
  = Some context
  /\ exists context',
      indent_run (repeat Decrement m) context = Some context'
      /\ indent_level context'
         = Z.max 0 (indent_level context - Z.of_nat m).
Proof.
  intros H0 Hmax. split; [now apply nested_run|now apply decrements_run].
Qed.

Lemma indentation_nests_witness :
  indent_run (repeat Increment 3 ++ repeat Decrement 3)
    (mkContext 1%nat 2%nat None None 2 true None)
  = Some (mkContext 1%nat 2%nat None None 2 true None).
Proof.
  refine (proj1 (indentation_nests
                   (mkContext 1%nat 2%nat None None 2 true None)
                   3 5 _ _)).
  - vm_compute. discriminate.
  - vm_compute. discriminate.
Defined.

Lemma length_indentation_of n :
  String.length (Calls.indentation_of n) = (4 * n)%nat.
Proof.
  induction n as [|n IH]; simpl; [reflexivity|]. rewrite IH. lia.
Qed.

Lemma write_indents_open n : forall context file,
  output context = Some file ->
  write_indents n context
  = codegen_context_set_output context
      (Some (String.append file (Calls.indentation_of n))).
Proof.
  induction n as [|n IH]; intros context file Hout; simpl.
  - destruct context; simpl in *. subst.
    unfold codegen_context_set_output. simpl. f_equal. f_equal.
    clear. induction file as [|c file IH]; simpl; congruence.
  - rewrite (IH (fprintf "    " context) (String.append file "    ")).
    + unfold fprintf, codegen_context_set_output. simpl. do 2 f_equal.
      clear. induction file as [|c file IH]; simpl; congruence.
    + unfold fprintf. simpl. now rewrite Hout.
Qed.

(** X9: on an open stream, [codegen_context_write_indent] appends four
    spaces per level of indentation and changes nothing else in the
    context; at a level of 0 or below it writes nothing. *)
Theorem write_indent_appends_four_spaces_per_level context file :
  output context = Some file ->
  codegen_context_write_indent context
  = codegen_context_set_output context
      (Some (String.append file
               (Calls.indentation (indent_level context))))
  /\ String.length (Calls.indentation (indent_level context))
     = (4 * Z.to_nat (indent_level context))%nat
  /\ (indent_level context <= 0 ->
      codegen_context_write_indent context = context).
Proof.
  intros Hout. unfold codegen_context_write_indent, Calls.indentation.
  split; [now apply write_indents_open|].
  split; [apply length_indentation_of|].
  intros Hle. now replace (Z.to_nat (indent_level context)) with 0%nat by lia.
Qed.

Lemma write_indent_appends_four_spaces_per_level_witness :
  codegen_context_write_indent
    (mkContext 1%nat 2%nat None (Some "{"%string) 2 true None)
  = mkContext 1%nat 2%nat None (Some "{        "%string) 2 true None.
Proof.
  exact (proj1 (write_indent_appends_four_spaces_per_level
                  (mkContext 1%nat 2%nat None (Some "{"%string) 2 true None)
                  "{"%string eq_refl)).
Defined.

End IndentationFacts.

(** * Further properties of call lowering *)

Section CallTexts.

Import Context Ast Calls.
Local Open Scope string_scope.
Local Open Scope gen_scope.

Variable gen : AstNode -> Gen.

(** The text of a branch of calls.c whose operator and arguments are
    known: the branch is a composition of [emit]s and of generations of
    the arguments. *)
Ltac branch_text :=
  match goal with
  | |- writes ?call _ =>
      let H := fresh "H" in
      eassert (H : writes call _);
      [ cbv - [and_then emit writes];
        repeat first [apply writes_then | apply writes_emit | eassumption]
      | let context := fresh "context" in
        intros context; exact (H context) ]
  end.

Ltac by_name Hp :=
  lazymatch type of Hp with
  | (if String.eqb ?op ?name then _ else _) = Some _ =>
      destruct (String.eqb_spec op name) as [->|_];
      [ injection Hp as <-; branch_text | by_name Hp ]
  | None = Some _ => discriminate Hp
  end.

(** X10: every call of a fixed number of arguments that calls.c lowers
    itself (the arithmetic and comparison operators, the vector, calculus,
    display, conversion, automatic differentiation and indexing
    intrinsics) writes the C texts of its table entry around the texts of
    its arguments, in the order of the arguments, and nothing else. *)
Theorem intrinsic_calls_lowered op_name args pieces texts :
  intrinsic_pieces op_name (length args) = Some pieces ->
  Forall2 (fun arg text => writes (gen arg) text) args texts ->
  writes (codegen_generate_call gen (Call (Identifier op_name) args))
    (interleave pieces texts).
Proof.
  intros Hp Hargs.
  destruct args as [|a [|b [|c [|d rest]]]]; try discriminate Hp.
  - apply Forall2_cons_inv_l in Hargs as (ta & ts & Ha & Hrest & ->).
    apply Forall2_nil_inv_l in Hrest as ->.
    cbv beta iota zeta delta [intrinsic_pieces length] in Hp.
    by_name Hp.
  - apply Forall2_cons_inv_l in Hargs as (ta & ts & Ha & Hrest & ->).
    apply Forall2_cons_inv_l in Hrest as (tb & ts' & Hb & Hrest & ->).
    apply Forall2_nil_inv_l in Hrest as ->.
    cbv beta iota zeta delta [intrinsic_pieces length] in Hp.
    by_name Hp.
  - apply Forall2_cons_inv_l in Hargs as (ta & ts & Ha & Hrest & ->).
    apply Forall2_cons_inv_l in Hrest as (tb & ts' & Hb & Hrest & ->).
    apply Forall2_cons_inv_l in Hrest as (tc & ts'' & Hc & Hrest & ->).
    apply Forall2_nil_inv_l in Hrest as ->.
    cbv beta iota zeta delta [intrinsic_pieces length] in Hp.
    by_name Hp.
Qed.

(** *** Calls that calls.c does not lower itself *)

Lemma other_calls_regular callee args :
  (forall name, callee = Identifier name ->
     intrinsic_pieces name (length args) = None
     /\ is_variadic name = false) ->
  codegen_generate_call gen (Call callee args) = regular_call gen callee args.
Proof.
  intros H. destruct callee; try reflexivity.
  destruct (H name eq_refl) as [Hp Hv]. clear H.
  destruct args as [|a [|b [|c [|d rest]]]];
    cbv beta iota zeta delta
      [codegen_generate_call length strcmp0 Nat.eqb andb];
    repeat match goal with
    | |- context [String.eqb name ?s] =>
        destruct (String.eqb_spec name s) as [->|_];
        [ first [ discriminate Hp | discriminate Hv | reflexivity ]
        | cbv beta iota ]
    end;
    reflexivity.
Qed.

(** X11: a call is lowered by calls.c itself only by the name of its
    callee and the number of its arguments. A callee that is no
    identifier, an identifier outside the table, and an intrinsic of a
    fixed arity called with another number of arguments (as [(dot a)] or
    [(norm a b)]) are all emitted as a general call through the callee. *)
Theorem other_calls_are_general callee args context :
  (forall name, callee = Identifier name ->
     intrinsic_pieces name (length args) = None
     /\ is_variadic name = false) ->
  codegen_generate_call gen (Call callee args) context
  = general_call gen callee args context.
Proof.
  intros H. rewrite (other_calls_regular callee args H).
  apply regular_call_general.
Qed.

Lemma fprintf_nil context : fprintf "" context = context.
Proof.
  destruct context as [ar di ty [file|] il inf td]; unfold fprintf; simpl;
    [now rewrite append_nil_r|reflexivity].
Qed.

Lemma writes_done : writes (fun context => (true, context)) "".
Proof. intros context. now rewrite fprintf_nil. Qed.

Lemma generate_arguments_writes args texts :
  Forall2 (fun arg text => writes (gen arg) text) args texts ->
  forall i, writes (generate_arguments gen i args)
              (separated (i =? 0)%nat texts).
Proof.
  induction 1 as [|arg text args texts Harg Hargs IH]; intros i.
  - exact writes_done.
  - simpl generate_arguments. destruct i as [|i].
    + assert (Hw : writes ((fun context => (true, context)) ;;
                            gen arg ;; generate_arguments gen 1 args)
                     ("" ++ text ++ separated false texts)).
      { apply writes_then; [exact writes_done|].
        apply writes_then; [exact Harg|]. apply (IH 1%nat). }
      exact Hw.
    + assert (Hw : writes (emit ", " ;;
                            gen arg ;; generate_arguments gen (S (S i)) args)
                     (", " ++ text ++ separated false texts)).
      { apply writes_then; [apply writes_emit|].
        apply writes_then; [exact Harg|]. apply (IH (S (S i))). }
      intros context. etransitivity; [exact (Hw context)|].
      reflexivity.
Qed.

Lemma separated_concat texts : separated true texts = String.concat ", " texts.
Proof.
  destruct texts as [|text texts]; [reflexivity|].
  revert text. induction texts as [|next texts IH]; intros text.
  - simpl. apply append_nil_r.
  - change (String.concat ", " (text :: next :: texts))
      with (text ++ ", " ++ String.concat ", " (next :: texts)).
    rewrite <- IH. reflexivity.
Qed.

(** X12: the general call writes the callee's text, an opening
    parenthesis, the texts of the arguments in order with a comma and a
    space between them, and a closing parenthesis. *)
Theorem general_call_text callee args callee_text texts :
  (forall name, callee = Identifier name ->
     intrinsic_pieces name (length args) = None
     /\ is_variadic name = false) ->
  writes (gen callee) callee_text ->
  Forall2 (fun arg text => writes (gen arg) text) args texts ->
  writes (codegen_generate_call gen (Call callee args))
    (callee_text ++ "(" ++ String.concat ", " texts ++ ")").
Proof.
  intros H Hcallee Hargs. rewrite (other_calls_regular callee args H).
  rewrite <- separated_concat. unfold regular_call.
  repeat apply writes_then;
    first [apply writes_emit | assumption
          | apply (generate_arguments_writes args texts Hargs 0%nat)].
Qed.

Lemma generate_strcats_writes args texts :
  Forall2 (fun arg text => writes (gen arg) text) args texts ->
  writes (generate_strcats gen args) (strcat_statements texts).
Proof.
  induction 1 as [|arg text args texts Harg Hargs IH].
  - exact writes_done.
  - simpl generate_strcats.
    assert (Hw : writes (emit "strcat(buffer, " ;; gen arg ;; emit "); " ;;
                          generate_strcats gen args)
                   ("strcat(buffer, " ++ text ++ "); "
                    ++ strcat_statements texts)).
    { repeat apply writes_then; first [apply writes_emit | assumption]. }
    exact Hw.
Qed.

(** X13: the three intrinsics that take any number of arguments.
    [(vector a ...)] writes a [float] array literal of the arguments'
    texts and their count; [(printf a ...)] writes a call of [printf] on
    them; [(string-append a ...)] writes a statement expression that
    appends each argument's text to a buffer of 1024 bytes, in order, and
    duplicates the buffer. *)
Theorem variadic_calls_lowered args texts :
  Forall2 (fun arg text => writes (gen arg) text) args texts ->
  writes (codegen_generate_call gen (Call (Identifier "vector") args))
    ("vector_f_create_from_array(arena, (float[]){"
     ++ String.concat ", " texts
     ++ "}, " ++ format_zu (length args) ++ ")")
  /\ writes (codegen_generate_call gen (Call (Identifier "printf") args))
       ("printf(" ++ String.concat ", " texts ++ ")")
  /\ writes
       (codegen_generate_call gen (Call (Identifier "string-append") args))
       (string_append_open ++ strcat_statements texts
        ++ "strdup(buffer); })").
Proof.
  intros Hargs. rewrite <- separated_concat.
  pose proof (generate_arguments_writes args texts Hargs 0%nat) as Hsep.
  pose proof (generate_strcats_writes args texts Hargs) as Hcats.
  split; [|split].
  - change (codegen_generate_call gen (Call (Identifier "vector") args))
      with (emit "vector_f_create_from_array(arena, (float[]){" ;;
            generate_arguments gen 0 args ;;
            emit ("}, " ++ format_zu (length args) ++ ")")).
    repeat apply writes_then; first [apply writes_emit | assumption].
  - change (codegen_generate_call gen (Call (Identifier "printf") args))
      with (emit "printf(" ;; generate_arguments gen 0 args ;; emit ")").
    repeat apply writes_then; first [apply writes_emit | assumption].
  - change (codegen_generate_call gen
              (Call (Identifier "string-append") args))
      with (emit string_append_open ;; generate_strcats gen args ;;
            emit "strdup(buffer); })").
    repeat apply writes_then; first [apply writes_emit | assumption].
Qed.

(** *** What generation leaves alone *)

Lemma output_only_emit text : output_only (emit text).
Proof. intros [ar di ty out il inf td]. reflexivity. Qed.

Lemma output_only_done : output_only (fun context => (true, context)).
Proof. intros [ar di ty out il inf td]. reflexivity. Qed.

Lemma output_only_fail : output_only (fun context => (false, context)).
Proof. intros [ar di ty out il inf td]. reflexivity. Qed.

Lemma output_only_then m k :
  output_only m -> output_only k -> output_only (m ;; k).
Proof.
  intros Hm Hk context. specialize (Hm context). unfold and_then.
  destruct (m context) as [[|] c1]; simpl in Hm; [|exact Hm].
  specialize (Hk c1). destruct (k c1) as [ok c2]. simpl in *.
  unfold same_but_output, codegen_context_set_output in *.
  destruct context, c1, c2; simpl in *. congruence.
Qed.

(** X14: generating a call changes nothing of the context but the output
    stream: the arena, the diagnostics, the type context, the indentation
    level, the function flag and the temporary directory are after the
    call what they were before it, on success and on failure alike,
    provided the generator of the sub-expressions leaves them alone. *)
Theorem call_generation_changes_only_the_stream node context :
  (forall node', output_only (gen node')) ->
  same_but_output context (snd (codegen_generate_call gen node context)).
Proof.
  intros Hgen.
  apply (codegen_generate_call_closed gen output_only
           output_only_emit output_only_done output_only_fail
           output_only_then Hgen node context).
Qed.

(** *** A call as the items it goes through *)

Lemma run_items_app items1 : forall items2 context,
  run_items gen (items1 ++ items2) context
  = (run_items gen items1 ;; run_items gen items2) context.
Proof.
  induction items1 as [|[text|node] items1 IH]; intros items2 context.
  - reflexivity.
  - simpl. unfold and_then, emit. rewrite IH. reflexivity.
  - simpl. unfold and_then.
    destruct (gen node context) as [[|] c1]; [|reflexivity].
    rewrite IH. reflexivity.
Qed.

Lemma generate_arguments_items args : forall i context,
  generate_arguments gen i args context
  = run_items gen (separated_items (i =? 0)%nat args) context.
Proof.
  induction args as [|arg rest IH]; intros i context; [reflexivity|].
  destruct i as [|i]; simpl; unfold and_then, emit; simpl.
  - destruct (gen arg context) as [[|] c1]; [apply (IH 1%nat)|reflexivity].
  - destruct (gen arg (fprintf ", " context)) as [[|] c1];
      [apply (IH (S (S i)))|reflexivity].
Qed.

Lemma generate_strcats_items args : forall context,
  generate_strcats gen args context
  = run_items gen (strcat_items args) context.
Proof.
  induction args as [|arg rest IH]; intros context; [reflexivity|].
  simpl. unfold and_then, emit.
  destruct (gen arg (fprintf "strcat(buffer, " context)) as [[|] c1];
    [apply IH|reflexivity].
Qed.

(** A text, the arguments and a text. *)
Lemma arguments_between open_ close args context :
  (emit open_ ;; generate_arguments gen 0 args ;; emit close) context
  = run_items gen
      (Text open_ :: separated_items true args ++ [Text close]) context.
Proof.
  simpl run_items. unfold and_then at 1 2 3. unfold emit at 1 3.
  rewrite run_items_app. unfold and_then.
  rewrite generate_arguments_items. simpl.
  now destruct (run_items gen (separated_items true args)
                  (fprintf open_ context)) as [[|] c1].
Qed.

Lemma regular_call_items callee args context :
  regular_call gen callee args context
  = run_items gen
      (Sub callee :: Text "(" :: separated_items true args ++ [Text ")"])
      context.
Proof.
  unfold regular_call. simpl run_items. unfold and_then at 1 4.
  destruct (gen callee context) as [[|] c1]; [|reflexivity].
  apply arguments_between.
Qed.

(** The two sides go through the same texts and sub-expressions. *)
Ltac same_items :=
  cbv - [fprintf];
  repeat (rewrite <- ?fprintf_append; cbv [String.append];
          match goal with
          | |- context [gen ?node ?c] =>
              destruct (gen node c) as [[|] ?]; cbv beta iota
          end);
  rewrite <- ?fprintf_append; reflexivity.

Ltac items_by_name Hp :=
  lazymatch type of Hp with
  | (if String.eqb ?op ?name then _ else _) = Some _ =>
      destruct (String.eqb_spec op name) as [->|_];
      [ injection Hp as <-; same_items | items_by_name Hp ]
  | None = Some _ => discriminate Hp
  end.

(** The generation of a call goes through the items of the call, on
    success and on failure alike. *)
Lemma call_runs_its_items callee args context :
  codegen_generate_call gen (Call callee args) context
  = run_items gen (call_items callee args) context.
Proof.
  destruct callee; try apply regular_call_items.
  unfold call_items.
  destruct (intrinsic_pieces name (length args)) as [pieces|] eqn:Hp.
  - destruct args as [|a [|b [|c [|d rest]]]]; try discriminate Hp;
      cbv beta iota zeta delta [intrinsic_pieces length] in Hp;
      items_by_name Hp.
  - destruct (String.eqb_spec name "vector") as [->|Hvector].
    { apply (arguments_between
               "vector_f_create_from_array(arena, (float[]){"
               ("}, " ++ format_zu (length args) ++ ")")). }
    destruct (String.eqb_spec name "string-append") as [->|Happend].
    { change (codegen_generate_call gen
                (Call (Identifier "string-append") args))
        with (emit string_append_open ;; generate_strcats gen args ;;
              emit "strdup(buffer); })").
      simpl run_items. unfold and_then at 1 3, emit at 1 3.
      rewrite run_items_app. unfold and_then.
      rewrite generate_strcats_items. simpl.
      now destruct (run_items gen (strcat_items args)
                      (fprintf string_append_open context)) as [[|] c1]. }
    destruct (String.eqb_spec name "printf") as [->|Hprintf].
    { apply (arguments_between "printf(" ")"). }
    rewrite other_calls_regular; [apply regular_call_items|].
    intros name' Hname. injection Hname as <-. split; [exact Hp|].
    unfold is_variadic.
    destruct (String.eqb_spec name "vector"); [contradiction|].
    destruct (String.eqb_spec name "string-append"); [contradiction|].
    now destruct (String.eqb_spec name "printf").
Qed.

(** A run of items that fails has failed in one of its sub-expressions:
    the items before it have been gone through, and the run ends with what
    that sub-expression left. *)
Lemma run_items_fails items : forall context context',
  run_items gen items context = (false, context') ->
  exists before failing after context0,
    items = (before ++ Sub failing :: after)%list
    /\ run_items gen before context = (true, context0)
    /\ gen failing context0 = (false, context').
Proof.
  induction items as [|[text|node] items IH]; intros context context' Hrun;
    simpl in Hrun.
  - discriminate Hrun.
  - unfold and_then, emit in Hrun.
    destruct (IH _ _ Hrun) as (before & failing & after & c0 & -> & Hb & Hf).
    exists (Text text :: before), failing, after, c0.
    repeat split; [|exact Hf]. simpl. unfold and_then, emit. exact Hb.
  - unfold and_then in Hrun.
    destruct (gen node context) as [[|] c1] eqn:Hnode.
    + destruct (IH _ _ Hrun)
        as (before & failing & after & c0 & -> & Hb & Hf).
      exists (Sub node :: before), failing, after, c0.
      repeat split; [|exact Hf]. simpl. unfold and_then. now rewrite Hnode.
    + simplify_eq. now exists [], node, items, context.
Qed.

Lemma subs_app items1 items2 :
  subs (items1 ++ items2) = (subs items1 ++ subs items2)%list.
Proof.
  induction items1 as [|[text|node] items1 IH]; simpl; congruence.
Qed.

Lemma subs_weave pieces : forall args node,
  In node (subs (weave pieces args)) -> In node args.
Proof.
  induction pieces as [|piece pieces IH]; intros [|arg args] node; simpl;
    try tauto.
  intros [->|Hin]; [now left|right; now apply IH].
Qed.

Lemma subs_separated args : forall first node,
  In node (subs (separated_items first args)) -> In node args.
Proof.
  induction args as [|arg args IH]; intros first node; simpl; [tauto|].
  rewrite subs_app, in_app_iff.
  intros [Hin|Hin]; [|right; now apply (IH false)].
  destruct first; simpl in Hin; tauto.
Qed.

Lemma subs_strcat args node :
  In node (subs (strcat_items args)) -> In node args.
Proof. induction args as [|arg args IH]; simpl; tauto. Qed.

(** The sub-expressions a call goes through are its callee and its
    arguments. *)
Lemma subs_call_items callee args node :
  In node (subs (call_items callee args)) -> In node (callee :: args).
Proof.
  assert (Hgeneral :
            In node (subs (Sub callee :: Text "("
                           :: separated_items true args ++ [Text ")"])) ->
            In node (callee :: args)).
  { simpl. rewrite subs_app, in_app_iff. simpl.
    intros [->|[Hin|[]]]; [now left|right].
    now apply (subs_separated args true). }
  unfold call_items. destruct callee; try exact Hgeneral.
  destruct (intrinsic_pieces name (length args)) as [pieces|].
  { intros Hin. right. now apply (subs_weave pieces). }
  repeat match goal with
         | |- context [if ?b then _ else _] => destruct b
         end;
    try exact Hgeneral; simpl; rewrite subs_app, in_app_iff; simpl;
    intros [Hin|[]]; right;
    first [now apply (subs_separated args true) | now apply subs_strcat].
Qed.

Lemma run_items_append_only items :
  (forall node, append_only (gen node)) ->
  append_only (run_items gen items).
Proof.
  intros Hgen.
  induction items as [|[text|node] items IH]; simpl.
  - apply append_only_done.
  - apply append_only_then; [apply append_only_emit|exact IH].
  - apply append_only_then; [apply Hgen|exact IH].
Qed.

Lemma run_items_writes items : forall texts text,
  Forall2 (fun node t => writes (gen node) t) (subs items) texts ->
  written items texts = Some text ->
  writes (run_items gen items) text.
Proof.
  induction items as [|[piece|node] items IH]; intros texts text Hsubs Hw;
    simpl in *.
  - destruct texts; [|discriminate]. simplify_eq. exact writes_done.
  - destruct (written items texts) as [rest|] eqn:Hrest; [|discriminate].
    simpl in Hw. simplify_eq.
    apply writes_then; [apply writes_emit|]. now apply (IH texts).
  - apply Forall2_cons_inv_l in Hsubs as (t & texts' & Ht & Hsubs & ->).
    destruct (written items texts') as [rest|] eqn:Hrest; [|discriminate].
    simpl in Hw. simplify_eq.
    apply writes_then; [exact Ht|]. now apply (IH texts').
Qed.

Lemma append_cancel (a b c : string) : a ++ b = a ++ c -> b = c.
Proof.
  induction a as [|x a IH]; simpl; intros H; [exact H|].
  apply IH. congruence.
Qed.

(** C2 (as amended): when the generation of a call node fails, it fails in
    one of the node's sub-expressions, the callee or an argument. What
    the call goes through before that sub-expression has been written and
    generated, and the output holds it behind what it held before the
    generation of the node began: none of it is taken back. The run ends
    with the context that the failing sub-expression left, so that
    nothing is written after it. Where the sub-expressions in front of
    the failing one write known texts, what the output holds in front of
    the failing sub-expression's own bytes is exactly the texts of the
    call and of those sub-expressions, in order. *)
Theorem failed_call_keeps_output callee args context file context' :
  (forall n, append_only (gen n)) ->
  output context = Some file ->
  codegen_generate_call gen (Call callee args) context = (false, context') ->
  exists before failing after context0 text tail,
    call_items callee args = (before ++ Sub failing :: after)%list
    /\ In failing (callee :: args)
    /\ run_items gen before context = (true, context0)
    /\ gen failing context0 = (false, context')
    /\ output context0 = Some (file ++ text)
    /\ output context' = Some (file ++ text ++ tail)
    /\ (forall texts,
          Forall2 (fun node t => writes (gen node) t) (subs before) texts ->
          written before texts = Some text).
Proof.
  intros Hgen Hout Hcall. rewrite call_runs_its_items in Hcall.
  destruct (run_items_fails _ _ _ Hcall)
    as (before & failing & after & context0 & Hitems & Hbefore & Hfail).
  destruct (run_items_append_only before Hgen context file true context0
              Hout Hbefore) as [text Htext].
  destruct (Hgen failing context0 (file ++ text) false context' Htext Hfail)
    as [tail Htail].
  exists before, failing, after, context0, text, tail.
  split; [exact Hitems|].
  split.
  { apply subs_call_items. rewrite Hitems, subs_app. apply in_app_iff.
    right. now left. }
  split; [exact Hbefore|]. split; [exact Hfail|].
  split; [exact Htext|].
  split; [now rewrite Htail, append_assoc|].
  intros texts Hsubs.
  destruct (written before texts) as [text'|] eqn:Hw.
  - pose proof (run_items_writes before texts text' Hsubs Hw context) as Hrun.
    rewrite Hbefore in Hrun. simplify_eq.
    unfold fprintf in Htext. simpl in Htext. rewrite Hout in Htext.
    simpl in Htext. simplify_eq. f_equal. symmetry.
    now apply (append_cancel file).
  - exfalso. clear - Hsubs Hw. revert texts Hsubs Hw.
    induction before as [|[piece|node] before IH]; intros texts Hsubs Hw;
      simpl in *.
    + apply Forall2_nil_inv_l in Hsubs as ->. discriminate Hw.
    + destruct (written before texts) eqn:Hrest; [discriminate|].
      now apply (IH texts).
    + apply Forall2_cons_inv_l in Hsubs as (t & texts' & _ & Hsubs & ->).
      destruct (written before texts') eqn:Hrest; [discriminate|].
      now apply (IH texts').
Qed.

End CallTexts.

Section CallTextExamples.

Import Context Ast Calls.
Local Open Scope string_scope.

Lemma literals_write values :
  Forall2
    (fun arg text =>
       writes (codegen_generate_expression (fun _ => "") arg) text)
    (map IntegerLiteral values) (map format_ld values).
Proof.
  induction values as [|value values IH]; simpl; constructor;
    [now intros context|exact IH].
Qed.

Lemma intrinsic_calls_lowered_witness :
  codegen_generate_call (codegen_generate_expression (fun _ => ""))
    (Call (Identifier "matrix-ref")
       [IntegerLiteral 7; IntegerLiteral 1; IntegerLiteral 2])
    (context_on "")
  = (true, context_on "(7[1]->data[2])").
Proof.
  exact (intrinsic_calls_lowered
           (codegen_generate_expression (fun _ => "")) "matrix-ref"
           (map IntegerLiteral [7; 1; 2]%Z)
           ["("; "["; "]->data["; "])"] (map format_ld [7; 1; 2]%Z)
           eq_refl (literals_write [7; 1; 2]%Z) (context_on "")).
Defined.

Lemma other_calls_are_general_witness :
  codegen_generate_call (codegen_generate_expression (fun _ => ""))
    (Call (Identifier "dot") [IntegerLiteral 1]) (context_on "")
  = general_call (codegen_generate_expression (fun _ => ""))
      (Identifier "dot") [IntegerLiteral 1] (context_on "").
Proof.
  apply (other_calls_are_general
           (codegen_generate_expression (fun _ => ""))
           (Identifier "dot") [IntegerLiteral 1] (context_on "")).
  intros name Hname. injection Hname as <-. split; reflexivity.
Defined.

Lemma general_call_text_witness :
  codegen_generate_call (codegen_generate_expression (fun _ => ""))
    (Call (IntegerLiteral 9) [IntegerLiteral 1; IntegerLiteral 2])
    (context_on "")
  = (true, context_on "9(1, 2)").
Proof.
  refine (general_call_text
            (codegen_generate_expression (fun _ => ""))
            (IntegerLiteral 9) (map IntegerLiteral [1; 2]%Z)
            "9" (map format_ld [1; 2]%Z) _ _
            (literals_write [1; 2]%Z) (context_on "")).
  - intros name Hname. discriminate Hname.
  - intros context. reflexivity.
Defined.

Lemma variadic_calls_lowered_witness :
  codegen_generate_call (codegen_generate_expression (fun _ => ""))
    (Call (Identifier "vector")
       [IntegerLiteral 1; IntegerLiteral 2; IntegerLiteral 3])
    (context_on "")
  = (true,
     context_on "vector_f_create_from_array(arena, (float[]){1, 2, 3}, 3)").
Proof.
  exact (proj1 (variadic_calls_lowered
                  (codegen_generate_expression (fun _ => ""))
                  (map IntegerLiteral [1; 2; 3]%Z)
                  (map format_ld [1; 2; 3]%Z)
                  (literals_write [1; 2; 3]%Z)) (context_on "")).
Defined.

Lemma expression_output_only format_f node :
  output_only (codegen_generate_expression format_f node).
Proof.
  destruct node; intros [ar di ty out il inf td]; reflexivity.
Qed.

Lemma call_generation_changes_only_the_stream_witness :
  same_but_output (mkContext 1%nat 2%nat None (Some "x = ") 3 true None)
    (snd (codegen_generate_call (codegen_generate_expression (fun _ => ""))
            sum_of_quote
            (mkContext 1%nat 2%nat None (Some "x = ") 3 true None))).
Proof.
  exact (call_generation_changes_only_the_stream
           (codegen_generate_expression (fun _ => "")) sum_of_quote
           (mkContext 1%nat 2%nat None (Some "x = ") 3 true None)
           (expression_output_only (fun _ => ""))).
Defined.

Lemma failed_call_keeps_output_witness :
  exists before failing after context0 text tail,
    call_items (Identifier "+") [Quote (Identifier "x"); IntegerLiteral 1]
    = (before ++ Sub failing :: after)%list
    /\ In failing
         [Identifier "+"; Quote (Identifier "x"); IntegerLiteral 1]
    /\ run_items (codegen_generate_expression (fun _ => "")) before
         (context_on "int y = ")
       = (true, context0)
    /\ codegen_generate_expression (fun _ => "") failing context0
       = (false, context_on "int y = (")
    /\ output context0 = Some ("int y = " ++ text)
    /\ output (context_on "int y = (") = Some ("int y = " ++ text ++ tail)
    /\ (forall texts,
          Forall2
            (fun node t =>
               writes (codegen_generate_expression (fun _ => "") node) t)
            (subs before) texts ->
          written before texts = Some text).
Proof.
  exact (failed_call_keeps_output
           (codegen_generate_expression (fun _ => "")) (Identifier "+")
           [Quote (Identifier "x"); IntegerLiteral 1]
           (context_on "int y = ") "int y = " (context_on "int y = (")
           (expression_append_only _) eq_refl eq_refl).
Defined.

(** In [(+ 1 'x)] it is the second operand that fails: the output holds
    the parenthesis, the first operand and the operator. *)
Example second_operand_fails :
  codegen_generate_call (codegen_generate_expression (fun _ => ""))
    (Call (Identifier "+") [IntegerLiteral 1; Quote (Identifier "x")])
    (context_on "int y = ")
  = (false, context_on "int y = (1 + ").
Proof. reflexivity. Qed.

End CallTextExamples.

(** * Further properties of the command line driver *)

Section DriverRuns.

Import Driver.
Local Open Scope string_scope.
Local Open Scope list_scope.

Lemma parse_options_accumulates args : forall v0 d0 v d rest,
  parse_options args v0 d0 = Parsed v d rest ->
  v = v0 || existsb (fun arg => is_verbose arg || is_debug arg)
             (leading_options args)
  /\ d = d0 || existsb is_debug (leading_options args)
  /\ rest = positional args
  /\ Forall (fun arg => is_verbose arg || is_debug arg = true)
       (leading_options args).
Proof.
  induction args as [|arg args IH]; intros v0 d0 v d rest; simpl.
  - intros H. injection H as <- <- <-.
    now rewrite !orb_false_r.
  - destruct (is_option arg).
    + unfold is_verbose, is_debug.
      destruct (String.eqb arg "-v" || String.eqb arg "--verbose") eqn:Hv.
      * assert (Hd : String.eqb arg "-d" || String.eqb arg "--debug"
                     = false).
        { apply orb_true_iff in Hv as [Hv|Hv];
            apply String.eqb_eq in Hv; now subst. }
        intros H. apply IH in H as (-> & -> & -> & Hall).
        simpl. rewrite Hv, Hd. simpl.
        repeat split; try (destruct v0, d0; reflexivity).
        constructor; [now rewrite Hv|exact Hall].
      * destruct (String.eqb arg "-d" || String.eqb arg "--debug") eqn:Hd.
        -- intros H. apply IH in H as (-> & -> & -> & Hall).
           simpl. rewrite Hv, Hd. simpl.
           repeat split; try (destruct v0, d0; reflexivity).
           constructor; [now rewrite Hv, Hd|exact Hall].
        -- destruct (String.eqb arg "-h" || String.eqb arg "--help");
             discriminate.
    + intros H. injection H as <- <- <-. simpl.
      now rewrite !orb_false_r.
Qed.

(** X15: when the option loop of [main] hands over to the compilation,
    every leading option was a verbose or a debug option; verbose mode is
    on exactly when one of them was given, debug mode exactly when a debug
    option was given, whatever their order and number, so that debug mode
    implies verbose mode; and the arguments handed over are those after
    the options. *)
Theorem option_flags args verbose_mode debug_mode rest :
  parse_options args false false = Parsed verbose_mode debug_mode rest ->
  verbose_mode
  = existsb (fun arg => is_verbose arg || is_debug arg)
      (leading_options args)
  /\ debug_mode = existsb is_debug (leading_options args)
  /\ (debug_mode = true -> verbose_mode = true)
  /\ rest = positional args
  /\ Forall (fun arg => is_verbose arg || is_debug arg = true)
       (leading_options args).
Proof.
  intros H. apply parse_options_accumulates in H as (Hv & Hd & Hrest & Hall).
  simpl in Hv, Hd. repeat split; try assumption.
  subst verbose_mode debug_mode. intros Hdebug.
  apply existsb_exists in Hdebug as (arg & Hin & Hdebug).
  apply existsb_exists. exists arg. split; [exact Hin|].
  now rewrite Hdebug, orb_true_r.
Qed.

Lemma option_flags_witness :
  true = existsb (fun arg => is_verbose arg || is_debug arg)
           (leading_options ["--debug"; "-v"; "a.esk"; "-d"])
  /\ true = existsb is_debug (leading_options ["--debug"; "-v"; "a.esk"; "-d"])
  /\ (true = true -> true = true)
  /\ ["a.esk"; "-d"] = positional ["--debug"; "-v"; "a.esk"; "-d"]
  /\ Forall (fun arg => is_verbose arg || is_debug arg = true)
       (leading_options ["--debug"; "-v"; "a.esk"; "-d"]).
Proof.
  exact (option_flags ["--debug"; "-v"; "a.esk"; "-d"] true true
           ["a.esk"; "-d"] eq_refl).
Defined.

(** The runs of [main], path by path; [leaf] settles each of them. *)
Ltac each_run argv world leaf :=
  unfold main;
  destruct (parse_options (skipn 1 argv) false false)
    as [| |v d [|input_file rest]];
  [ leaf | leaf | leaf
  | rewrite read_file_succeeds, arena_create_succeeds;
    destruct (bool_decide (is_Some (fopen world input_file)));
   [ destruct (read_malloc world);
   [ destruct (fread_complete world);
   [ destruct (arena_mallocs world) as [[|] [|]];
   [ destruct (string_table_create world);
   [ destruct (diagnostic_context_create world);
   [ destruct (lexer_create world);
   [ destruct (parser_create world);
   [ destruct (parser_parse_program world);
   [ destruct (codegen_context_create world);
   [ destruct (head rest) as [output_file|] eqn:?;
     [ destruct (codegen_generate world); [leaf|leaf]
     | destruct (codegen_generate world);
       [ destruct (codegen_compile_and_execute world =? 0)%Z; [leaf|leaf]
       | leaf ] ]
   | leaf ]
   | leaf ]
   | leaf ]
   | leaf ]
   | leaf ]
   | leaf ]
   | leaf | leaf | leaf ]
   | leaf ]
   | leaf ]
   | leaf ] ].

Ltac is_in := solve [simpl; repeat first [left; reflexivity | right]].

Ltac not_in :=
  solve [let H := fresh in intros H; simpl in H; intuition discriminate].

(** X16: [main] destroys the arena exactly in the runs in which it created
    one, whether the compilation then succeeds or fails at a later step,
    and [arena_destroy] is then the last call it makes: the arena is
    neither leaked nor destroyed twice, and nothing is called on it after
    its destruction. *)
Theorem arena_is_destroyed_once_created argv world :
  let trace := snd (main argv world) in
  (In ArenaDestroy trace
   <-> In ArenaCreate trace /\ arena_mallocs world = (true, true))
  /\ (In ArenaDestroy trace ->
      exists before,
        trace = before ++ [ArenaDestroy] /\ ~ In ArenaDestroy before).
Proof.
  cbv zeta.
  each_run argv world
    ltac:(simpl;
          split;
          [ split;
            [ first [ intros _; split; [is_in|reflexivity] | not_in ]
            | first [ intros _; is_in | intros [_ H]; discriminate H
                    | intros [H _]; revert H; not_in ] ]
          | first [ not_in
                  | intros _;
                    match goal with
                    | |- exists before, ?l = _ /\ _ =>
                        exists (removelast l)
                    end;
                    split; [reflexivity|not_in] ] ]).
Qed.



(** *** The name of the temporary C file *)

Lemma substring_all s : forall n,
  (String.length s <= n)%nat -> String.substring 0 n s = s.
Proof.
  induction s as [|c s IH]; intros [|n] Hn; simpl in *;
    try reflexivity; try lia.
  f_equal. apply IH. lia.
Qed.

Lemma substring_prefix s t :
  String.substring 0 (String.length s) (String.append s t) = s.
Proof. induction s as [|c s IH]; simpl; [now destruct t|now f_equal]. Qed.

Lemma length_substring_le n : forall s,
  (String.length (String.substring 0 n s) <= n)%nat.
Proof.
  induction n as [|n IH]; intros [|c s]; simpl; try lia.
  specialize (IH s). lia.
Qed.

Lemma length_append s t :
  String.length (String.append s t)
  = (String.length s + String.length t)%nat.
Proof. induction s as [|c s IH]; simpl; [reflexivity|now rewrite IH]. Qed.

(** X18: the name of the temporary C file is the name of the input file
    followed by [.c] as long as the input name has at most 253 bytes; it
    never has more than 255 bytes; and for an input name of exactly 255
    bytes it is the input name itself, so that the generated C code is
    then written to the source file. *)
Theorem temp_file_name_fits_the_buffer input_file :
  ((String.length input_file <= 253)%nat ->
   temp_file_name input_file = String.append input_file ".c")
  /\ (String.length (temp_file_name input_file) <= 255)%nat
  /\ (String.length input_file = 255%nat ->
      temp_file_name input_file = input_file).
Proof.
  unfold temp_file_name. split; [|split].
  - intros Hlen. apply substring_all. rewrite length_append. simpl. lia.
  - apply length_substring_le.
  - intros Hlen. rewrite <- Hlen at 1. apply substring_prefix.
Qed.

End DriverRuns.

(** * Reference-counted environments *)

Section EnvironmentFacts.

Import Environment.

(** X19: retaining an environment and then releasing it gives back the
    heap as it was, whatever the reference count the environment started
    with, as long as that count was not 0: no environment is freed and no
    count but the one of that environment is touched on the way. *)
Theorem retain_then_release heap e r :
  heap !! e = Some (Some r) ->
  in_size_t (ref_count r) ->
  ref_count r <> 0 ->
  exists heap1,
    eshkol_environment_retain (Some e) heap = Some heap1
    /\ eshkol_environment_release (Some e) heap1 = Some heap.
Proof.
  intros Hlive Hrange Hcount.
  unfold eshkol_environment_retain. rewrite Hlive.
  eexists. split; [reflexivity|].
  unfold eshkol_environment_release.
  assert (He : (e < length heap)%nat) by (eapply lookup_lt_Some; eauto).
  rewrite length_insert.
  destruct (length heap) as [|n] eqn:Hlen; [lia|].
  assert (Hback : wrap64 (wrap64 (ref_count r + 1) - 1) = ref_count r).
  { unfold wrap64. rewrite Zminus_mod_idemp_l.
    replace (ref_count r + 1 - 1) with (ref_count r) by lia.
    apply Z.mod_small. unfold in_size_t, SIZE_MAX in Hrange. lia. }
  simpl release. rewrite list_lookup_insert_eq by lia. simpl.
  rewrite Hback.
  destruct (Z.eqb_spec (ref_count r) 0) as [|_]; [contradiction|].
  rewrite list_insert_insert_eq. f_equal.
  apply list_insert_id. rewrite Hlive. now destruct r.
Qed.

Lemma retain_then_release_witness :
  exists heap1,
    eshkol_environment_retain (Some 1%nat)
      [Some (mkEnvironment None 1); Some (mkEnvironment (Some 0%nat) 1)]
    = Some heap1
    /\ eshkol_environment_release (Some 1%nat) heap1
       = Some [Some (mkEnvironment None 1);
               Some (mkEnvironment (Some 0%nat) 1)].
Proof.
  apply (retain_then_release
           [Some (mkEnvironment None 1); Some (mkEnvironment (Some 0%nat) 1)]
           1%nat (mkEnvironment (Some 0%nat) 1) eq_refl).
  - vm_compute. split; discriminate.
  - discriminate.
Defined.

Lemma lookup_free_all chain : forall heap a,
  a ∉ chain -> free_all chain heap !! a = heap !! a.
Proof.
  induction chain as [|e chain IH]; intros heap a Ha; [reflexivity|].
  simpl. apply not_elem_of_cons in Ha as [Hne Ha].
  rewrite list_lookup_insert_ne by congruence. now apply IH.
Qed.

Lemma free_all_insert chain : forall heap e x,
  e ∉ chain ->
  free_all chain (<[e := x]> heap) = <[e := x]> (free_all chain heap).
Proof.
  induction chain as [|e' chain IH]; intros heap e x He; [reflexivity|].
  simpl. apply not_elem_of_cons in He as [Hne He].
  rewrite IH by exact He. apply list_insert_insert_ne. congruence.
Qed.

Lemma decremented_insert stop heap e x :
  stop <> Some e ->
  decremented stop (<[e := x]> heap) = <[e := x]> (decremented stop heap).
Proof.
  intros Hne. destruct stop as [p|]; [|reflexivity]. simpl.
  assert (Hpe : e <> p) by congruence.
  rewrite list_lookup_insert_ne by exact Hpe.
  destruct (heap !! p) as [[r|]|]; try reflexivity.
  apply list_insert_insert_ne. congruence.
Qed.

Lemma sole_chain_insert chain : forall heap stop e x,
  e ∉ chain ->
  sole_chain heap chain stop ->
  sole_chain (<[e := x]> heap) chain stop.
Proof.
  induction chain as [|e' chain IH]; intros heap stop e x He Hchain;
    [exact I|].
  apply not_elem_of_cons in He as [Hne He].
  destruct Hchain as [(r & Hr & Hcount & Hparent) Hrest].
  split; [|now apply IH].
  exists r. rewrite list_lookup_insert_ne by congruence. auto.
Qed.

Lemma release_chain chain : forall fuel heap stop,
  (length chain <= fuel)%nat ->
  NoDup chain ->
  sole_chain heap chain stop ->
  (forall p, stop = Some p -> p ∉ chain) ->
  shared heap stop ->
  release fuel (first_of chain stop) heap
  = Some (free_all chain (decremented stop heap)).
Proof.
  induction chain as [|e chain IH];
    intros fuel heap stop Hfuel Hnodup Hchain Hstop Hshared.
  - simpl. destruct stop as [p|]; [|now destruct fuel].
    destruct Hshared as (r & Hr & Hrange & Hcount).
    assert (Hnot : wrap64 (ref_count r - 1) <> 0).
    { unfold wrap64, in_size_t, SIZE_MAX in *. intros H0.
      destruct (Z.eq_dec (ref_count r) 0) as [Hz|Hz].
      - rewrite Hz in H0. vm_compute in H0. discriminate.
      - rewrite Z.mod_small in H0 by lia. lia. }
    destruct fuel; simpl; rewrite Hr;
      (destruct (Z.eqb_spec (wrap64 (ref_count r - 1)) 0);
       [contradiction|reflexivity]).
  - apply NoDup_cons in Hnodup as [He Hnodup].
    destruct Hchain as [(r & Hr & Hcount & Hparent) Hrest].
    assert (Hlt : (e < length heap)%nat) by (eapply lookup_lt_Some; eauto).
    assert (Hstop' : stop <> Some e).
    { intros ->. apply (Hstop e eq_refl). now left. }
    destruct fuel as [|fuel']; [simpl in Hfuel; lia|].
    assert (Hrec : forall x,
              release fuel' (first_of chain stop) (<[e := x]> heap)
              = Some (free_all chain
                        (decremented stop (<[e := x]> heap)))).
    { intros x. apply IH.
      - simpl in Hfuel. lia.
      - exact Hnodup.
      - now apply sole_chain_insert.
      - intros p Hp. specialize (Hstop p Hp).
        now apply not_elem_of_cons in Hstop as [_ Hstop].
      - destruct stop as [p|]; [|exact I].
        destruct Hshared as (rp & Hrp & Hrange & Hone).
        exists rp. rewrite list_lookup_insert_ne by congruence. auto. }
    assert (Hfreed : forall x,
              <[e := None]>
                (free_all chain (decremented stop (<[e := x]> heap)))
              = <[e := None]> (free_all chain (decremented stop heap))).
    { intros x. rewrite decremented_insert by exact Hstop'.
      rewrite free_all_insert by exact He.
      apply list_insert_insert_eq. }
    simpl first_of. simpl release. rewrite Hr, Hcount. simpl.
    rewrite Hparent.
    destruct (first_of chain stop) as [q|] eqn:Hfirst.
    + rewrite Hrec. now rewrite Hfreed.
    + destruct chain as [|e' chain]; [|discriminate Hfirst].
      simpl in Hfirst. subst stop. simpl.
      now rewrite list_insert_insert_eq.
Qed.

(** X20: giving up the last reference to an environment frees it and then
    releases its parent, and so on along the chain of parents for as long
    as each one was held by that one reference only; the release stops at
    the first ancestor that other references hold as well, whose count it
    lowers by one, or at the end of the chain. It frees nothing else, and
    it returns. Releasing [NULL], or an environment that is shared, is the
    case of an empty chain. *)
Theorem last_release_frees_the_chain heap chain stop :
  NoDup chain ->
  sole_chain heap chain stop ->
  (forall p, stop = Some p -> p ∉ chain) ->
  shared heap stop ->
  eshkol_environment_release (first_of chain stop) heap
  = Some (free_all chain (decremented stop heap)).
Proof.
  intros Hnodup Hchain Hstop Hshared.
  apply release_chain; try assumption.
  assert (Hincl : incl chain (seq 0 (length heap))).
  { intros e He. apply in_seq. split; [lia|]. simpl.
    clear Hnodup Hstop Hshared.
    induction chain as [|e' chain IH]; [contradiction|].
    destruct Hchain as [(r & Hr & _) Hrest].
    destruct He as [->|He]; [|now apply IH].
    eapply lookup_lt_Some; eauto. }
  pose proof (NoDup_incl_length (proj1 (NoDup_ListNoDup chain) Hnodup)
                Hincl) as Hle.
  now rewrite length_seq in Hle.
Qed.

Lemma last_release_frees_the_chain_witness :
  eshkol_environment_release (Some 0%nat)
    [Some (mkEnvironment (Some 1%nat) 1);
     Some (mkEnvironment (Some 2%nat) 1);
     Some (mkEnvironment None 3)]
  = Some [None; None; Some (mkEnvironment None 2)].
Proof.
  apply (last_release_frees_the_chain
           [Some (mkEnvironment (Some 1%nat) 1);
            Some (mkEnvironment (Some 2%nat) 1);
            Some (mkEnvironment None 3)]
           [0; 1]%nat (Some 2%nat)).
  - apply NoDup_ListNoDup. repeat constructor; simpl; intuition lia.
  - simpl. repeat split; eexists; repeat split; reflexivity.
  - intros p Hp. injection Hp as <-. intros Hin.
    apply list_elem_of_In in Hin. simpl in Hin. intuition lia.
  - eexists. split; [reflexivity|]. simpl.
    split; [vm_compute; intuition discriminate|discriminate].
Defined.

(** A count of 0 is not a count of one reference: releasing such an
    environment wraps its count around and frees nothing. *)
Example release_at_zero :
  eshkol_environment_release (Some 0%nat) [Some (mkEnvironment None 0)]
  = Some [Some (mkEnvironment None SIZE_MAX)].
Proof. reflexivity. Qed.

End EnvironmentFacts.

(** * The vectorized addition *)

Section SimdFacts.

Import Simd.

Variable float : Type.
Variable fadd : float -> float -> float.

(** Writing the sum of the components at [i] extends the part of [result]
    that holds sums by one component. *)
Lemma store_one (sums r0 : list float) i s :
  sums !! i = Some s ->
  (length sums <= length r0)%nat ->
  <[i := s]> (take i sums ++ drop i r0)
  = take (S i) sums ++ drop (S i) r0.
Proof.
  intros Hs Hlen.
  assert (Hi : (i < length sums)%nat) by (eapply lookup_lt_Some; eauto).
  destruct (lookup_lt_is_Some_2 r0 i ltac:(lia)) as [y Hy].
  rewrite (drop_S r0 y i Hy).
  rewrite insert_app_r_alt by (rewrite length_take; lia).
  rewrite length_take.
  replace (i - i `min` length sums)%nat with 0%nat by lia. simpl.
  rewrite (take_S_r sums i s Hs). now rewrite <- app_assoc.
Qed.

Lemma length_sums_part (sums r0 : list float) i :
  (i <= length sums)%nat -> (length sums <= length r0)%nat ->
  length (take i sums ++ drop i r0) = length r0.
Proof.
  intros Hi Hlen. rewrite length_app, length_take, length_drop. lia.
Qed.

Section Loops.

Variables a b r0 : list float.
Hypothesis Hab : length a = length b.
Hypothesis Hr0 : (length a <= length r0)%nat.
Hypothesis Hmax : Z.of_nat (length a) + 3 <= SIZE_MAX.

Let sums := zip_with fadd a b.

Lemma length_sums : length sums = length a.
Proof. unfold sums. rewrite length_zip_with. lia. Qed.

Lemma lookup_sums i x y :
  a !! i = Some x -> b !! i = Some y -> sums !! i = Some (fadd x y).
Proof.
  intros Hx Hy. unfold sums. rewrite lookup_zip_with, Hx. simpl.
  now rewrite Hy.
Qed.

Lemma small_index (i : nat) (k : Z) :
  0 <= k -> Z.of_nat i + k <= Z.of_nat (length a) + 3 ->
  wrap64 (Z.of_nat i + k) = Z.of_nat i + k.
Proof.
  intros Hk Hi. unfold wrap64. unfold SIZE_MAX in Hmax.
  apply Z.mod_small. lia.
Qed.

Lemma sse_loop_sums fuel : forall i,
  (i <= length a)%nat ->
  (length a - i <= fuel)%nat ->
  exists j,
    (i <= j <= length a)%nat
    /\ sse_loop float fadd fuel (Z.of_nat i) (Z.of_nat (length a)) a b
         (take i sums ++ drop i r0)
       = Some (Z.of_nat j, take j sums ++ drop j r0).
Proof.
  pose proof length_sums as Hsums.
  induction fuel as [|fuel IH]; intros i Hi Hfuel.
  - exists i. split; [lia|]. simpl.
    rewrite (small_index i 3 ltac:(lia) ltac:(lia)).
    destruct (Z.ltb_spec (Z.of_nat i + 3) (Z.of_nat (length a)));
      [lia|reflexivity].
  - simpl. rewrite (small_index i 3 ltac:(lia) ltac:(lia)).
    destruct (Z.ltb_spec (Z.of_nat i + 3) (Z.of_nat (length a)))
      as [Hlt|Hge]; [|exists i; split; [lia|reflexivity]].
    rewrite Nat2Z.id. unfold _mm_load_ps.
    destruct (lookup_lt_is_Some_2 a i ltac:(lia)) as [x0 Hx0].
    destruct (lookup_lt_is_Some_2 a (i + 1) ltac:(lia)) as [x1 Hx1].
    destruct (lookup_lt_is_Some_2 a (i + 2) ltac:(lia)) as [x2 Hx2].
    destruct (lookup_lt_is_Some_2 a (i + 3) ltac:(lia)) as [x3 Hx3].
    destruct (lookup_lt_is_Some_2 b i ltac:(lia)) as [y0 Hy0].
    destruct (lookup_lt_is_Some_2 b (i + 1) ltac:(lia)) as [y1 Hy1].
    destruct (lookup_lt_is_Some_2 b (i + 2) ltac:(lia)) as [y2 Hy2].
    destruct (lookup_lt_is_Some_2 b (i + 3) ltac:(lia)) as [y3 Hy3].
    rewrite Hx0, Hx1, Hx2, Hx3, Hy0, Hy1, Hy2, Hy3.
    unfold _mm_add_ps, _mm_store_ps.
    rewrite length_sums_part by lia.
    destruct (decide (i + 3 < length r0)%nat) as [_|Hout]; [|lia].
    rewrite (store_one sums r0 i _ (lookup_sums _ _ _ Hx0 Hy0))
      by lia.
    replace (i + 1)%nat with (S i) in * by lia.
    rewrite (store_one sums r0 (S i) _ (lookup_sums _ _ _ Hx1 Hy1))
      by lia.
    replace (i + 2)%nat with (S (S i)) in * by lia.
    rewrite (store_one sums r0 (S (S i)) _ (lookup_sums _ _ _ Hx2 Hy2))
      by lia.
    replace (i + 3)%nat with (S (S (S i))) in * by lia.
    rewrite (store_one sums r0 (S (S (S i))) _
               (lookup_sums _ _ _ Hx3 Hy3)) by lia.
    rewrite (small_index i 4 ltac:(lia) ltac:(lia)).
    replace (Z.of_nat i + 4) with (Z.of_nat (S (S (S (S i))))) by lia.
    destruct (IH (S (S (S (S i)))) ltac:(lia) ltac:(lia))
      as (j & Hj & Hrun).
    exists j. split; [lia|exact Hrun].
Qed.

Lemma scalar_loop_sums fuel : forall i,
  (i <= length a)%nat ->
  (length a - i <= fuel)%nat ->
  scalar_loop float fadd fuel (Z.of_nat i) (Z.of_nat (length a)) a b
    (take i sums ++ drop i r0)
  = Some (sums ++ drop (length a) r0).
Proof.
  pose proof length_sums as Hsums.
  assert (Hdone : forall i, (i <= length a)%nat ->
            ~ Z.of_nat i < Z.of_nat (length a) ->
            take i sums ++ drop i r0 = sums ++ drop (length a) r0).
  { intros i Hi Hge. replace i with (length a) by lia.
    now rewrite take_ge by lia. }
  induction fuel as [|fuel IH]; intros i Hi Hfuel; simpl.
  - destruct (Z.ltb_spec (Z.of_nat i) (Z.of_nat (length a))); [lia|].
    f_equal. apply Hdone; lia.
  - destruct (Z.ltb_spec (Z.of_nat i) (Z.of_nat (length a))) as [Hlt|Hge];
      [|f_equal; apply Hdone; lia].
    rewrite Nat2Z.id.
    destruct (lookup_lt_is_Some_2 a i ltac:(lia)) as [x Hx].
    destruct (lookup_lt_is_Some_2 b i ltac:(lia)) as [y Hy].
    rewrite Hx, Hy. rewrite length_sums_part by lia.
    destruct (decide (i < length r0)%nat) as [_|Hout]; [|lia].
    rewrite (store_one sums r0 i _ (lookup_sums _ _ _ Hx Hy)) by lia.
    replace (wrap64 (Z.of_nat i + 1)) with (Z.of_nat (S i))
      by (rewrite (small_index i 1 ltac:(lia) ltac:(lia)); lia).
    apply IH; lia.
Qed.

End Loops.

(** X21: the vectorized addition is the addition. On vectors that hold
    as many components as their dimensions say, with the two operands of
    one dimension and the result of at least that dimension, the function
    returns, reads and writes no component past that dimension, and
    leaves in the result the sums of the components of the operands,
    whether or not the dimension is a multiple of four; the components of
    the result beyond the operands' dimension are as they were. *)
Theorem vector_f_add_sse_adds result a b :
  well_formed a -> well_formed b -> well_formed result ->
  dim a = dim b ->
  dim a <= dim result ->
  vector_f_add_sse float fadd result a b
  = Some (mkVectorF (dim result)
            (zip_with fadd (data a) (data b)
             ++ drop (Z.to_nat (dim a)) (data result))).
Proof.
  intros (Ha0 & Hamax & Ha) (Hb0 & Hbmax & Hb) (Hr0 & Hrmax & Hr) Hdim Hle.
  unfold vector_f_add_sse.
  destruct (Z.eqb_spec (dim a) (dim b)) as [_|]; [|contradiction].
  destruct (Z.geb_spec (dim result) (dim a)) as [_|Hlt]; [|lia].
  simpl negb. cbv iota.
  assert (Hab : length (data a) = length (data b)) by congruence.
  assert (Hlen : (length (data a) <= length (data result))%nat) by lia.
  assert (Hmax : Z.of_nat (length (data a)) + 3 <= SIZE_MAX) by lia.
  replace (dim a) with (Z.of_nat (length (data a))) by lia.
  rewrite Nat2Z.id.
  destruct (sse_loop_sums (data a) (data b) (data result) Hab Hlen Hmax
              (length (data a)) 0%nat ltac:(lia) ltac:(lia))
    as (j & Hj & Hsse).
  change (Z.of_nat 0) with 0 in Hsse.
  rewrite take_0, drop_0 in Hsse. simpl app in Hsse.
  cbv zeta. rewrite Hsse.
  rewrite (scalar_loop_sums (data a) (data b) (data result) Hab Hlen Hmax
             (length (data a)) j ltac:(lia) ltac:(lia)).
  reflexivity.
Qed.

End SimdFacts.

Lemma vector_f_add_sse_adds_witness :
  Simd.vector_f_add_sse Z Z.add
    (Simd.mkVectorF 6 [0; 0; 0; 0; 0; 9])
    (Simd.mkVectorF 5 [1; 2; 3; 4; 5])
    (Simd.mkVectorF 5 [10; 20; 30; 40; 50])
  = Some (Simd.mkVectorF 6 [11; 22; 33; 44; 55; 9]).
Proof.
  apply (vector_f_add_sse_adds Z Z.add
           (Simd.mkVectorF 6 [0; 0; 0; 0; 0; 9])
           (Simd.mkVectorF 5 [1; 2; 3; 4; 5])
           (Simd.mkVectorF 5 [10; 20; 30; 40; 50])).
  - vm_compute. intuition discriminate.
  - vm_compute. intuition discriminate.
  - vm_compute. intuition discriminate.
  - reflexivity.
  - vm_compute. discriminate.
Defined.

(** * The destruction of the arena *)

Section ArenaDestroyFacts.

Import Arena.

Lemma arena_alloc_chain malloc_ok a size :
  let a1 := snd (arena_alloc malloc_ok a size) in
  (later a = [] -> later a1 = [])
  /\ (length (live_blocks a) <= length (live_blocks a1))%nat
  /\ (forall i o,
        fst (arena_alloc malloc_ok a size) = Some (i, o) ->
        (i < length (live_blocks a1))%nat).
Proof.
  destruct (arena_alloc_outcomes malloc_ok a size)
    as [-> | [[_ ->] | (new_size & _ & _ & _ & ->)]]; simpl;
    unfold live_blocks; simpl; rewrite ?length_app; simpl.
  - repeat split; [auto|lia|discriminate].
  - repeat split; [auto|lia|]. intros i o H. simplify_eq. lia.
  - repeat split; [lia|]. intros i o H. simplify_eq. lia.
Qed.

Lemma arena_allocs_chain requests : forall a results a',
  later a = [] ->
  arena_allocs requests a = (results, a') ->
  later a' = []
  /\ (length (live_blocks a) <= length (live_blocks a'))%nat
  /\ Forall (fun p => forall i o,
               p = Some (i, o) -> (i < length (live_blocks a'))%nat)
       results.
Proof.
  induction requests as [|[malloc_ok size] rest IH];
    intros a results a' Hlater Hrun; simpl in Hrun.
  - simplify_eq. repeat split; [exact Hlater|lia|constructor].
  - pose proof (arena_alloc_chain malloc_ok a size) as Hstep.
    cbv zeta in Hstep.
    destruct (arena_alloc malloc_ok a size) as [p a1]. simpl in Hstep.
    destruct Hstep as (Hlater1 & Hgrow1 & Hp).
    destruct (arena_allocs rest a1) as [ps a2] eqn:Hrest. simplify_eq.
    destruct (IH a1 ps a' (Hlater1 Hlater) Hrest) as (Hlater2 & Hgrow2 & Hps).
    repeat split; [exact Hlater2|lia|].
    constructor; [|exact Hps].
    intros i o Hi. specialize (Hp i o Hi). lia.
Qed.

(** X22: on an arena made by [arena_create] and used by any calls of
    [arena_alloc], [arena_destroy] frees the blocks of the chain up to the
    current one, each once and in the order of their allocation, and
    there is no block behind the current one that it would miss; every
    pointer that the calls of [arena_alloc] returned lies in one of the
    blocks freed. *)
Theorem arena_destroy_frees_every_block m1 m2 capacity a requests results
    a' :
  arena_create m1 m2 capacity = Some a ->
  arena_allocs requests a = (results, a') ->
  arena_destroy (Some a') = live_blocks a'
  /\ Forall (fun p => forall i o,
               p = Some (i, o) -> is_Some (arena_destroy (Some a') !! i))
       results.
Proof.
  intros Hcreate Hrun.
  assert (Hlater : later a = []).
  { unfold arena_create in Hcreate.
    destruct m1, m2; simpl in Hcreate; now simplify_eq. }
  destruct (arena_allocs_chain requests a results a' Hlater Hrun)
    as (Hlater' & _ & Hps).
  assert (Hall : arena_destroy (Some a') = live_blocks a').
  { unfold arena_destroy, live_blocks. now rewrite Hlater'. }
  split; [exact Hall|]. rewrite Hall.
  eapply Forall_impl; [exact Hps|].
  intros p Hp i o Hi. apply lookup_lt_is_Some_2. eauto.
Qed.

Lemma arena_destroy_frees_every_block_witness :
  arena_destroy
    (Some (snd (arena_allocs [(true, 3); (true, 2000); (true, 1)]
                  (mkArena [] (mkBlock 1024 0) [] 0 0 1024))))
  = [mkBlock 1024 8; mkBlock 2048 2008].
Proof.
  exact (proj1 (arena_destroy_frees_every_block true true 1024 _
                  [(true, 3); (true, 2000); (true, 1)] _ _
                  eq_refl eq_refl)).
Defined.

End ArenaDestroyFacts.
